(** * Worker-side subtask execution core of Mars: a shallow embedding

    Sources embedded here:
    - [mars/services/scheduling/worker/execution.py]: [_retry_run],
      [_fill_subtask_result_with_exception], [_estimate_sizes],
      [_run_subtask_once], [_retry_run_subtask];
    - [mars/services/subtask/worker/processor.py]: [SubtaskProcessor.__init__],
      [_unpin_data], [_store_meta], [run], [report_progress_periodically].

    Python exceptions are values of [Py.exn]; a statement sequence that can
    raise is a computation of the state-and-exception monad [Py.M].  Calls to
    the collaborating actors (quota, slot manager, storage, meta) are
    answered by an environment that the theorems quantify over, and every
    such call is appended to a log kept in the state. *)

From stdpp Require Import base list strings gmap pretty.
From Stdlib Require Import ZArith Lia Qcanon.

Local Open Scope Z_scope.

(** ** Python values shared by both files *)

Module Py.

(** The exception classes the two files name or can meet, as leaves of the
    class tree, and the classes used in [except] clauses and [isinstance]
    tests.  [CancelledError] is [asyncio.CancelledError], which derives from
    [BaseException] and not from [Exception]; [TimeoutError] is
    [asyncio.TimeoutError]; [ConnectionResetError] derives from [OSError]. *)
Inductive plain_class :=
  | OSError | ConnectionResetError | MarsError | TimeoutError
  | AssertionError | ZeroDivisionError | KeyError | ValueError
  | CancelledError | KeyboardInterrupt.

Inductive pyclass :=
  | Plain (c : plain_class)
  | ExecutionError
  | Exception
  | BaseException.

Coercion Plain : plain_class >-> pyclass.

Global Instance plain_class_eq_dec : EqDecision plain_class.
Proof. solve_decision. Defined.

Global Instance pyclass_eq_dec : EqDecision pyclass.
Proof. solve_decision. Defined.

(** [issubclass c d] *)
Definition issubclass (c d : pyclass) : bool :=
  match d with
  | BaseException => true
  | Exception =>
      match c with
      | Plain CancelledError | Plain KeyboardInterrupt | BaseException => false
      | _ => true
      end
  | ExecutionError => bool_decide (c = ExecutionError)
  | Plain OSError =>
      bool_decide (c = Plain OSError) || bool_decide (c = Plain ConnectionResetError)
  | Plain p => bool_decide (c = Plain p)
  end.

(** A traceback is the list of its frames. *)
Definition traceback := list string.

(** Exception objects.  [ExecErr] is [mars.core.ExecutionError], which
    keeps the exception it was built from in [nested_error].  [Wrapped] is
    what [wrap_exception] returns. *)
Inductive exn :=
  | Exc (cls : plain_class) (args : string) (tb : traceback)
  | ExecErr (nested : exn) (tb : traceback)
  | Wrapped (wrapname : string) (message : string) (wrapped : exn).

(** [type(exc)], up to the names of generated classes: the class that
    [wrap_exception] creates derives from the class of the wrapped
    exception, so it passes the same [isinstance] tests. *)
Fixpoint type_of (e : exn) : pyclass :=
  match e with
  | Exc c _ _ => Plain c
  | ExecErr _ _ => ExecutionError
  | Wrapped _ _ e' => type_of e'
  end.

Definition isinstance (e : exn) (c : pyclass) : bool := issubclass (type_of e) c.
Global Arguments isinstance : simpl never.

(** [exc.__traceback__] *)
Fixpoint traceback_of (e : exn) : traceback :=
  match e with
  | Exc _ _ tb => tb
  | ExecErr _ tb => tb
  | Wrapped _ _ e' => traceback_of e'
  end.

(** [exc.nested_error]: an attribute of [ExecutionError] objects, reached
    through [__getattr__] on a wrapper. *)
Fixpoint nested_error (e : exn) : option exn :=
  match e with
  | Exc _ _ _ => None
  | ExecErr n _ => Some n
  | Wrapped _ _ e' => nested_error e'
  end.

(** [exc.__wrapname__], [None] on an exception that is not a wrapper. *)
Definition wrapname_of (e : exn) : option string :=
  match e with
  | Wrapped n _ _ => Some n
  | _ => None
  end.

(** [str(exc)] *)
Fixpoint str (e : exn) : string :=
  match e with
  | Exc _ args _ => args
  | ExecErr n _ => str n
  | Wrapped _ m e' => if bool_decide (m = "") then str e' else m
  end.

(** Modelled from the spec: [wrap_exception] of [mars.utils] is not part of
    the sources at hand.  The spec says that it wraps the error under the
    given name; the wrapper keeps the cause, its message and its traceback. *)
Definition wrap_exception (exc : exn) (wrap_name message : string) : exn :=
  Wrapped wrap_name message exc.

(** The outcome of running statements: normal completion with a value, or
    an exception in flight. *)
Inductive res (A : Type) :=
  | Ok (a : A)
  | Raise (e : exn).
Global Arguments Ok {A} a.
Global Arguments Raise {A} e.

Definition is_ok {A} (r : res A) : bool :=
  match r with Ok _ => true | Raise _ => false end.

(** Statements over a mutable state [W]. *)
Definition M (W A : Type) : Type := W -> res A * W.

Section Monad.
Context {W : Type}.

Definition ret {A} (a : A) : M W A := fun w => (Ok a, w).

Definition bind {A B} (m : M W A) (k : A -> M W B) : M W B :=
  fun w =>
    match m w with
    | (Ok a, w') => k a w'
    | (Raise e, w') => (Raise e, w')
    end.

Definition raise {A} (e : exn) : M W A := fun w => (Raise e, w).

Definition gets {A} (f : W -> A) : M W A := fun w => (Ok (f w), w).

Definition modify (f : W -> W) : M W unit := fun w => (Ok tt, f w).

(** [try: body except BaseException as ex: handler(ex)]; a handler that
    does not apply re-raises. *)
Definition try_except {A} (body : M W A) (handler : exn -> M W A) : M W A :=
  fun w =>
    match body w with
    | (Ok a, w') => (Ok a, w')
    | (Raise e, w') => handler e w'
    end.

(** [try: body finally: fin]: [fin] runs on every exit of [body]; when
    [fin] itself raises, that exception replaces the outcome of [body]. *)
Definition try_finally {A} (body : M W A) (fin : M W unit) : M W A :=
  fun w =>
    match body w with
    | (r, w') =>
        match fin w' with
        | (Ok _, w'') => (r, w'')
        | (Raise e, w'') => (Raise e, w'')
        end
    end.

(** [if c: body] *)
Definition when (c : bool) (body : M W unit) : M W unit :=
  if c then body else ret tt.
End Monad.

End Py.

Import Py.

Notation "'do' x <- m ; k" := (bind m (fun x => k))
  (at level 10, x name, m at level 100, k at level 200).
Notation "'do' ' p <- m ; k" := (bind m (fun x => match x with p => k end))
  (at level 10, p pattern, m at level 100, k at level 200).
Notation "m ;; k" := (bind m (fun _ => k))
  (at level 100, k at level 200, right associativity, only parsing).

(** ** The data model: operands, chunks, chunk graphs, subtasks *)

Module Core.

(** [size_context]: chunk key to [(store_size, memory_size)]. *)
Abbreviation size_ctx := (gmap string (Z * Z)).

Inductive op_kind := Fetch | FetchShuffle | Compute.

Global Instance op_kind_eq_dec : EqDecision op_kind.
Proof. solve_decision. Defined.

(** An operand.  [outputs] lists the keys of its output chunks;
    [retryable_attr] is the [retryable] attribute, [None] when the operand
    has none (the code reads it with [getattr(op, "retryable", True)]);
    [estimate_size] is the operand's own method: it updates the size context
    in place, or raises. *)
Record Operand := {
  op_key : string;
  kind : op_kind;
  outputs : list string;
  retryable_attr : option bool;
  estimate_size : size_ctx -> res size_ctx
}.

Record Chunk := {
  key : string;
  op : Operand
}.

(** Modelled from the spec: the graph classes of [mars.core.graph] are not
    part of the sources at hand.  A chunk graph is given by what the two
    files ask of it: [chunks] is the iteration order of [for n in graph],
    [edges] holds the pairs (i, j) of positions in [chunks] with an edge
    from chunk i to chunk j, [topo] is the order in which
    [topological_iter()] yields the chunks, and [result_chunks] is the
    declared list of results. *)
Record ChunkGraph := {
  chunks : list Chunk;
  edges : list (nat * nat);
  topo : list nat;
  result_chunks : list Chunk
}.

(** [update_meta_chunks] is [None] or a collection of result chunks, kept
    here by their keys. *)
Record Subtask := {
  subtask_id : string;
  session_id : string;
  chunk_graph : ChunkGraph;
  pure_depend_keys : list string;
  update_meta_chunks : option (list string);
  retryable : bool
}.

(** [isinstance(op, Fetch)] and [isinstance(op, (Fetch, FetchShuffle))] *)
Definition is_Fetch (o : Operand) : bool := bool_decide (kind o = Fetch).
Definition is_Fetch_or_FetchShuffle (o : Operand) : bool :=
  bool_decide (kind o = Fetch) || bool_decide (kind o = FetchShuffle).

Inductive SubtaskStatus := pending | running | succeeded | errored | cancelled.

Global Instance SubtaskStatus_eq_dec : EqDecision SubtaskStatus.
Proof. solve_decision. Defined.

(** [SubtaskStatus.is_done] *)
Definition is_done (s : SubtaskStatus) : bool :=
  match s with
  | succeeded | errored | cancelled => true
  | pending | running => false
  end.

(** [SubtaskResult], with the fields the two files write.  Progress is a
    Python float; it is kept as an exact rational here. *)
Record SubtaskResult := {
  status : SubtaskStatus;
  progress : Qc;
  error : option exn;
  result_traceback : option traceback;
  data_size : option Z
}.

End Core.

Import Core.

(** ** execution.py: the subtask execution coordinator *)

Module Execution.

Record SubtaskExecutionInfo := {
  band_name : string;
  supervisor_address : string;
  result : SubtaskResult;
  cancelling : bool;
  max_retries : Z;
  num_retries : Z;
  slot_id : option Z;
  kill_timeout : option Z
}.

Definition set_result (r : SubtaskResult) (i : SubtaskExecutionInfo) :=
  {| band_name := band_name i; supervisor_address := supervisor_address i;
     result := r; cancelling := cancelling i; max_retries := max_retries i;
     num_retries := num_retries i; slot_id := slot_id i;
     kill_timeout := kill_timeout i |}.

Definition set_cancelling (b : bool) (i : SubtaskExecutionInfo) :=
  {| band_name := band_name i; supervisor_address := supervisor_address i;
     result := result i; cancelling := b; max_retries := max_retries i;
     num_retries := num_retries i; slot_id := slot_id i;
     kill_timeout := kill_timeout i |}.

Definition set_num_retries (n : Z) (i : SubtaskExecutionInfo) :=
  {| band_name := band_name i; supervisor_address := supervisor_address i;
     result := result i; cancelling := cancelling i; max_retries := max_retries i;
     num_retries := n; slot_id := slot_id i;
     kill_timeout := kill_timeout i |}.

Definition set_slot_id (s : option Z) (i : SubtaskExecutionInfo) :=
  {| band_name := band_name i; supervisor_address := supervisor_address i;
     result := result i; cancelling := cancelling i; max_retries := max_retries i;
     num_retries := num_retries i; slot_id := s;
     kill_timeout := kill_timeout i |}.

Definition set_status (s : SubtaskStatus) (r : SubtaskResult) :=
  {| status := s; progress := progress r; error := error r;
     result_traceback := result_traceback r; data_size := data_size r |}.

(** *** [_fill_subtask_result_with_exception]

    [exc_info] is what [sys.exc_info()] gives: the exception being handled,
    whose traceback is its [__traceback__]; [None] when no exception is
    being handled.  The two [logger.exception] calls write to the log only. *)
Definition _fill_subtask_result_with_exception
    (exc_info : option exn) (subtask_info : SubtaskExecutionInfo)
    : SubtaskExecutionInfo :=
  let exc := exc_info in
  let tb := traceback_of <$> exc_info in
  let '(exc, tb) :=
    match exc with
    | Some e =>
        if isinstance e ExecutionError then
          match nested_error e with
          | Some n => (Some n, Some (traceback_of n))
          | None => (exc, tb)
          end
        else (exc, tb)
    | None => (exc, tb)
    end in
  let status :=
    match exc with
    | Some e => if isinstance e CancelledError then cancelled else errored
    | None => errored
    end in
  set_result
    {| status := status; progress := 1%Qc; error := exc;
       result_traceback := tb; data_size := data_size (result subtask_info) |}
    subtask_info.

(** [SubtaskExecutionInfo(aio_task, band_name, supervisor_address,
    max_retries=...)] with the defaults of the dataclass, and the result
    that [internal_run_subtask] installs first. *)
Definition new_SubtaskExecutionInfo (band_name supervisor_address : string)
    (max_retries : Z) : SubtaskExecutionInfo :=
  {| band_name := band_name; supervisor_address := supervisor_address;
     result := {| status := pending; progress := 0%Qc; error := None;
                  result_traceback := None; data_size := None |};
     cancelling := false; max_retries := max_retries; num_retries := 0;
     slot_id := None; kill_timeout := None |}.

(** *** The collaborating actors

    A look-up of an actor reference ([_get_band_quota_ref],
    [_get_slot_manager_ref]) or a call to the quota actor, the slot manager
    or the subtask API.  The slot argument is optional where the code passes
    its local [slot_id], which can be [None]. *)
Abbreviation quota_key := (string * string)%type.

Inductive call :=
  | _get_band_quota_ref (band : string)
  | _get_slot_manager_ref (band : string)
  | request_batch_quota (req : list (quota_key * Z))
  | acquire_free_slot (k : quota_key)
  | run_subtask_in_slot (band : string) (slot : Z) (subtask_id : string)
  | cancel_subtask_in_slot (band : string) (slot : option Z) (timeout : option Z)
  | kill_slot (slot : option Z)
  | get_slot_address (slot : option Z)
  | wait_actor_pool_recovered (sub_pool_address address : string)
  | get_subtask_slot (k : quota_key)
  | release_free_slot (slot : Z) (k : quota_key)
  | release_quotas (keys : list quota_key).

Global Instance call_eq_dec : EqDecision call.
Proof. solve_decision. Defined.

(** What an [await] on such a call gives back: the value or the exception
    thrown at the await (a failure of the call, or [CancelledError] when the
    task is cancelled while it waits), and whether [cancel_subtask] set
    [cancelling] on the info while the coroutine was suspended. *)
Record reply (A : Type) := {
  cancelled_meanwhile : bool;
  answer : res A
}.
Global Arguments cancelled_meanwhile {A} r.
Global Arguments answer {A} r.

(** What [_retry_run_subtask] meets before it defines [_run_subtask_once]:
    the answers to its two look-ups of actor references, which are cached
    but awaited all the same, and whether the table [_subtask_info] holds
    the subtask, whose info is then the one of the state. *)
Record refs_env := {
  on_quota_ref : reply unit;
  on_slot_manager_ref : reply unit;
  table_holds_subtask : bool
}.

(** The replies met by one run of [_run_subtask_once]. *)
Record run_env := {
  on_request_batch_quota : reply unit;
  on_acquire_free_slot : reply Z;
  on_run_subtask_in_slot : reply SubtaskResult;
  on_cancel_subtask_in_slot : reply unit;
  on_kill_slot : reply unit;
  on_get_slot_address : reply string;
  on_wait_actor_pool_recovered : reply unit;
  on_get_subtask_slot : reply (option Z);
  on_release_free_slot : reply unit;
  on_release_quotas : reply unit
}.

(** The state of the coordinator while it runs one subtask: the info
    object, the log of the calls made so far (each with whether it returned
    normally, latest last), the number of times [_run_subtask_once] was
    entered, and the two locals of [_run_subtask_once] that its handlers
    read ([aiotask] records whether the local is not [None]). *)
Record world := {
  subtask_info : SubtaskExecutionInfo;
  calls : list (call * bool);
  attempts : nat;
  aiotask : bool;
  slot_id_local : option Z
}.

Definition set_info (f : SubtaskExecutionInfo -> SubtaskExecutionInfo) (w : world) :=
  {| subtask_info := f (subtask_info w); calls := calls w; attempts := attempts w;
     aiotask := aiotask w; slot_id_local := slot_id_local w |}.

Definition log_call (c : call) (ok : bool) (w : world) :=
  {| subtask_info := subtask_info w; calls := calls w ++ [(c, ok)];
     attempts := attempts w; aiotask := aiotask w;
     slot_id_local := slot_id_local w |}.

Definition enter_run_subtask_once (w : world) :=
  {| subtask_info := subtask_info w; calls := calls w;
     attempts := S (attempts w); aiotask := false; slot_id_local := None |}.

Definition set_aiotask (b : bool) (w : world) :=
  {| subtask_info := subtask_info w; calls := calls w; attempts := attempts w;
     aiotask := b; slot_id_local := slot_id_local w |}.

Definition set_slot_id_local (s : option Z) (w : world) :=
  {| subtask_info := subtask_info w; calls := calls w; attempts := attempts w;
     aiotask := aiotask w; slot_id_local := s |}.

Definition new_world (info : SubtaskExecutionInfo) : world :=
  {| subtask_info := info; calls := []; attempts := 0%nat; aiotask := false;
     slot_id_local := None |}.

(** [await c], answered by [r]. *)
Definition await {A} (c : call) (r : reply A) : M world A :=
  fun w =>
    (answer r,
     log_call c (is_ok (answer r))
       (set_info (fun i => set_cancelling (cancelling i || cancelled_meanwhile r) i) w)).

(** [try: body finally: raise ex]: whatever the outcome of [body], the
    statement is left by raising [ex]. *)
Definition finally_raise {A B} (body : M world B) (ex : exn) : M world A :=
  fun w => (Raise ex, (body w).2).

(** [_check_cancelling] *)
Definition _check_cancelling : M world unit :=
  do c <- gets (fun w => cancelling (subtask_info w));
  if c then raise (Exc CancelledError "" []) else ret tt.

(** *** [_retry_run] *)

Definition exceed_max_rerun_message
    (info : SubtaskExecutionInfo) (target_repr : string) (subtask : Subtask)
    (ex : exn) : string :=
  "Exceed max rerun[" +:+ pretty (num_retries info) +:+ "/"
    +:+ pretty (max_retries info) +:+ "]: " +:+ target_repr
    +:+ " of subtask " +:+ subtask_id subtask +:+ " due to " +:+ str ex +:+ ".".

Definition unhandled_message
    (info : SubtaskExecutionInfo) (target_repr : string) (subtask : Subtask)
    (ex : exn) : string :=
  "Failed to rerun the " +:+ target_repr +:+ " of subtask "
    +:+ subtask_id subtask +:+ ", num_retries: " +:+ pretty (num_retries info)
    +:+ ", max_retries: " +:+ pretty (max_retries info)
    +:+ " due to unhandled exception: " +:+ str ex +:+ ".".

Definition incr_num_retries (i : SubtaskExecutionInfo) :=
  set_num_retries (num_retries i + 1) i.

(** What one iteration of the [while True] loop does with the exception
    [ex] that the target raised, in the state [w1] the target left: [inl] is
    the exit of [_retry_run], [inr] stands for [continue], after the retry
    counter went up. *)
Definition on_target_error {A}
    (subtask : Subtask) (target_repr : string) (ex : exn) (w1 : world)
    : (res A * world) + world :=
  let info := subtask_info w1 in
  if isinstance ex OSError || isinstance ex MarsError then
    if num_retries info <? max_retries info then
      inr (set_info incr_num_retries w1)
    else if 0 <? max_retries info then
      inl (Raise (wrap_exception ex "_ExceedMaxRerun"
                    (exceed_max_rerun_message info target_repr subtask ex)), w1)
    else inl (Raise ex, w1)
  else if isinstance ex CancelledError then
    inl (Raise ex, w1)
  else if isinstance ex Exception then
    if 0 <? max_retries info then
      inl (Raise (wrap_exception ex "_UnhandledException"
                    (unhandled_message info target_repr subtask ex)), w1)
    else inl (Raise ex, w1)
  else inl (Raise ex, w1).

(** The loop, unrolled at most [fuel] times; [None] when [fuel] iterations
    do not finish it. *)
Fixpoint retry_loop {A} (fuel : nat) (subtask : Subtask) (target_repr : string)
    (target : M world A) (w : world) : option (res A * world) :=
  match fuel with
  | O => None
  | S fuel' =>
      match target w with
      | (Ok v, w1) => Some (Ok v, w1)
      | (Raise ex, w1) =>
          match on_target_error subtask target_repr ex w1 with
          | inl r => Some r
          | inr w2 => retry_loop fuel' subtask target_repr target w2
          end
      end
  end.

Definition assertion_error : exn := Exc AssertionError "" [].

(** [_retry_run(subtask, subtask_info, target_async_func)].  The loop makes
    at most [max_retries - num_retries + 1] calls of a target that leaves the
    two counters alone, which is the fuel given to it. *)
Definition _retry_run {A} (subtask : Subtask) (target_repr : string)
    (target : M world A) (w : world) : option (res A * world) :=
  let info := subtask_info w in
  if negb (0 <=? num_retries info) then Some (Raise assertion_error, w)
  else if negb (0 <=? max_retries info) then Some (Raise assertion_error, w)
  else retry_loop (S (Z.to_nat (max_retries info - num_retries info)))
         subtask target_repr target w.

(** The states the loop goes through, in order: after each call of the
    target and after each increment of the counter. *)
Fixpoint retry_states {A} (fuel : nat) (subtask : Subtask) (target_repr : string)
    (target : M world A) (w : world) : list world :=
  match fuel with
  | O => []
  | S fuel' =>
      match target w with
      | (Ok v, w1) => [w1]
      | (Raise ex, w1) =>
          match on_target_error (A := A) subtask target_repr ex w1 with
          | inl _ => [w1]
          | inr w2 => w1 :: w2 :: retry_states fuel' subtask target_repr target w2
          end
      end
  end.

(** All states of the info that a call of [_retry_run] started in [w] can
    show, the initial one included. *)
Definition _retry_run_states {A} (subtask : Subtask) (target_repr : string)
    (target : M world A) (w : world) : list world :=
  let info := subtask_info w in
  if negb (0 <=? num_retries info) then [w]
  else if negb (0 <=? max_retries info) then [w]
  else w :: retry_states (S (Z.to_nat (max_retries info - num_retries info)))
              subtask target_repr target w.

(** A target that leaves [num_retries] and [max_retries] as they are. *)
Definition keeps_counters {A} (target : M world A) : Prop :=
  forall w,
    num_retries (subtask_info (target w).2) = num_retries (subtask_info w) /\
    max_retries (subtask_info (target w).2) = max_retries (subtask_info w).

Section RunSubtask.
(** The arguments of [_retry_run_subtask] and what its closure
    [_run_subtask_once] captures.  [env n] answers the calls of the run
    entered when [n] runs were entered before. *)
Variable subtask : Subtask.
Variable band : string.
Variable address : string.
Variable batch_quota_req : list (quota_key * Z).
Variable env : nat -> run_env.

Definition subtask_key : quota_key := (session_id subtask, subtask_id subtask).

(** The handler of [except asyncio.CancelledError as ex]. *)
Definition on_cancelled {A} (e : run_env) (ex : exn) : M world A :=
  finally_raise
    (try_except
       (do a <- gets aiotask;
        if a then
          do s <- gets slot_id_local;
          do timeout <- gets (fun w => kill_timeout (subtask_info w));
          await (cancel_subtask_in_slot band s timeout) (on_cancel_subtask_in_slot e)
        else ret tt)
       (fun e1 =>
          if isinstance e1 TimeoutError then
            do s <- gets slot_id_local;
            await (kill_slot s) (on_kill_slot e) ;;
            do sub_pool_address <- await (get_slot_address s) (on_get_slot_address e);
            await (wait_actor_pool_recovered sub_pool_address address)
                  (on_wait_actor_pool_recovered e)
          else raise e1))
    ex.

(** The handler of [except (OSError, MarsError) as ex]. *)
Definition on_os_or_mars_error {A} (e : run_env) (ex : exn) : M world A :=
  do s <- gets slot_id_local;
  match s with
  | Some _ =>
      do sub_pool_address <- await (get_slot_address s) (on_get_slot_address e);
      await (wait_actor_pool_recovered sub_pool_address address)
            (on_wait_actor_pool_recovered e)
  | None => ret tt
  end ;;
  raise ex.

(** The [finally] block. *)
Definition release_slot_and_quota (e : run_env) : M world unit :=
  do s0 <- gets slot_id_local;
  match s0 with
  | None =>
      do s <- await (get_subtask_slot subtask_key) (on_get_subtask_slot e);
      modify (set_slot_id_local s)
  | Some _ => ret tt
  end ;;
  do s1 <- gets slot_id_local;
  match s1 with
  | Some s => await (release_free_slot s subtask_key) (on_release_free_slot e)
  | None => ret tt
  end ;;
  await (release_quotas (map fst batch_quota_req)) (on_release_quotas e).

(** The [try] block, from the assignment of [slot_id] on. *)
Definition run_in_slot (e : run_env) (s : Z) : M world SubtaskResult :=
  modify (set_slot_id_local (Some s)) ;;
  modify (set_info (set_slot_id (Some s))) ;;
  _check_cancelling ;;
  modify (set_info (fun i => set_result (set_status running (result i)) i)) ;;
  modify (set_aiotask true) ;;
  await (run_subtask_in_slot band s (subtask_id subtask)) (on_run_subtask_in_slot e).

(** The [try] block. *)
Definition try_block (e : run_env) : M world SubtaskResult :=
  await (request_batch_quota batch_quota_req) (on_request_batch_quota e) ;;
  _check_cancelling ;;
  do s <- await (acquire_free_slot subtask_key) (on_acquire_free_slot e);
  run_in_slot e s.

(** The [except] clauses, in their order. *)
Definition except_clauses (e : run_env) (ex : exn) : M world SubtaskResult :=
  if isinstance ex CancelledError then on_cancelled e ex
  else if isinstance ex OSError || isinstance ex MarsError
       then on_os_or_mars_error e ex
  else raise ex.

Definition _run_subtask_once : M world SubtaskResult :=
  fun w0 =>
    let e := env (attempts w0) in
    (modify enter_run_subtask_once ;;
     try_finally
       (try_except (try_block e) (except_clauses e))
       (release_slot_and_quota e)) w0.

(** [getattr(chunk.op, "retryable", True)] *)
Definition getattr_retryable (o : Operand) : bool :=
  default true (retryable_attr o).

Definition unretryable_op : list Operand :=
  map op (filter (fun c => negb (getattr_retryable (op c)))
                 (chunks (chunk_graph subtask))).

(** [pprint.pformat] of a list of operands, each shown by its key. *)
Definition pformat (ops : list Operand) : string :=
  "[" +:+ String.concat ", " (map op_key ops) +:+ "]".

Definition unretryable_message (e : exn) : string :=
  "Run subtask failed due to " +:+ str e +:+ ", the subtask "
    +:+ subtask_id subtask +:+ " is not retryable, it contains unretryable op: "
    +:+ String (Ascii.ascii_of_nat 10) "" +:+ pformat unretryable_op.

(** The statements of [_retry_run_subtask] before the definition of
    [_run_subtask_once]: the two look-ups, the reading of the info from the
    table and the two assertions.  They stand outside every [try]. *)
Definition get_refs_and_info (refs : refs_env) : M world unit :=
  await (_get_band_quota_ref band) (on_quota_ref refs) ;;
  await (_get_slot_manager_ref band) (on_slot_manager_ref refs) ;;
  (if table_holds_subtask refs then ret tt
   else raise (Exc KeyError (subtask_id subtask) [])) ;;
  do info <- gets subtask_info;
  (if negb (0 <=? num_retries info) then raise assertion_error else ret tt) ;;
  (if negb (0 <=? max_retries info) then raise assertion_error else ret tt).

(** The statements of [_retry_run_subtask] after the definition of
    [_run_subtask_once]. *)
Definition retry_or_run_once (w : world) : option (res SubtaskResult * world) :=
  if retryable subtask then
    _retry_run subtask "_run_subtask_once" _run_subtask_once w
  else
    match _run_subtask_once w with
    | (Ok r, w1) => Some (Ok r, w1)
    | (Raise e, w1) =>
        if isinstance e Exception then
          Some (Raise (wrap_exception e "_UnretryableException"
                         (unretryable_message e)), w1)
        else Some (Raise e, w1)
    end.

(** [_retry_run_subtask] *)
Definition _retry_run_subtask (refs : refs_env) (w : world)
    : option (res SubtaskResult * world) :=
  match get_refs_and_info refs w with
  | (Raise e, w0) => Some (Raise e, w0)
  | (Ok _, w0) => retry_or_run_once w0
  end.
End RunSubtask.

End Execution.

(** ** execution.py: the memory estimator [_estimate_sizes] *)

Module Estimator.

(** Straight-line code that can raise but has no state of its own. *)
Definition rbind {A B} (r : res A) (k : A -> res B) : res B :=
  match r with
  | Ok a => k a
  | Raise e => Raise e
  end.

Notation "'let*' x := r 'in' k" := (rbind r (fun x => k))
  (at level 10, x name, r at level 100, k at level 200).
Notation "'let*' ' p := r 'in' k" := (rbind r (fun x => match x with p => k end))
  (at level 10, p pattern, r at level 100, k at level 200).

(** [d[k]] on a plain [dict]: [KeyError] when the key is missing. *)
Definition getitem {V} (d : gmap string V) (k : string) : res V :=
  match d !! k with
  | Some v => Ok v
  | None => Raise (Exc KeyError k [])
  end.

(** Modelled from the spec: the class [DAG] of [mars.core.graph], of which
    [_estimate_sizes] builds the op-key graph, is not part of the sources at
    hand.  Nodes are kept in the order they were added; the successors and
    the predecessors of a node are kept without repetition, in the order the
    edges were added. *)
Record DAG := {
  dag_nodes : list string;
  dag_succ : gmap string (list string);
  dag_pred : gmap string (list string)
}.

Definition dag_empty : DAG :=
  {| dag_nodes := []; dag_succ := ∅; dag_pred := ∅ |}.

Definition add_node (k : string) (g : DAG) : DAG :=
  {| dag_nodes := dag_nodes g ++ [k];
     dag_succ := <[k := []]> (dag_succ g);
     dag_pred := <[k := []]> (dag_pred g) |}.

Definition add_once (x : string) (l : list string) : list string :=
  if bool_decide (x ∈ l) then l else l ++ [x].

Definition add_edge (u v : string) (g : DAG) : DAG :=
  {| dag_nodes := dag_nodes g;
     dag_succ := alter (add_once v) u (dag_succ g);
     dag_pred := alter (add_once u) v (dag_pred g) |}.

(** [k in op_key_graph] *)
Definition dag_contains (k : string) (g : DAG) : bool := bool_decide (k ∈ dag_nodes g).

Definition iter_successors (g : DAG) (k : string) : list string :=
  default [] (dag_succ g !! k).

Definition iter_predecessors (g : DAG) (k : string) : list string :=
  default [] (dag_pred g !! k).

Definition count_successors (g : DAG) (k : string) : Z :=
  Z.of_nat (length (iter_successors g k)).

Definition count_predecessors (g : DAG) (k : string) : Z :=
  Z.of_nat (length (iter_predecessors g k)).

Definition iter_indep (g : DAG) : list string :=
  filter (fun k => count_predecessors g k = 0) (dag_nodes g).

(** [graph.iter_successors(n)] for the chunk at position [i] of the chunk
    graph. *)
Definition chunk_successors (g : ChunkGraph) (i : nat) : list Chunk :=
  omap (fun e : nat * nat =>
          if bool_decide (e.1 = i) then chunks g !! e.2 else None) (edges g).

(** [if k not in op_key_graph: op_key_graph.add_node(k)] *)
Definition ensure_node (k : string) (g : DAG) : DAG :=
  if dag_contains k g then g else add_node k g.

(** The loop that condenses the chunk graph into the op-key graph. *)
Definition condense_step (subtask : Subtask) (g : DAG) (i : nat) : DAG :=
  match chunks (chunk_graph subtask) !! i with
  | None => g
  | Some n =>
      if bool_decide (key n ∈ pure_depend_keys subtask) then g
      else
        foldl (fun g' succ =>
                 add_edge (op_key (op n)) (op_key (op succ))
                          (ensure_node (op_key (op succ)) g'))
              (ensure_node (op_key (op n)) g)
              (chunk_successors (chunk_graph subtask) i)
  end.

Definition op_key_graph (subtask : Subtask) : DAG :=
  foldl (condense_step subtask) dag_empty (topo (chunk_graph subtask)).

(** [key_to_ops[k][0]].  The code collects the operands of one key in a
    [set] and takes the first of its listing; the operands of the chunks
    that share an op key are one operand, and the embedding takes the one of
    the first such chunk. *)
Definition key_to_op (subtask : Subtask) (k : string) : res Operand :=
  match List.find (fun n => bool_decide (op_key (op n) = k))
                  (chunks (chunk_graph subtask)) with
  | Some n => Ok (op n)
  | None => Raise (Exc KeyError k [])
  end.

(** [chunk_key_to_sizes]: how many chunks of the graph carry each chunk
    key; a [defaultdict] with default [0]. *)
Definition count_chunk_keys (g : ChunkGraph) : gmap string Z :=
  foldl (fun m n => <[key n := default 0 (m !! key n) + 1]> m) ∅ (chunks g).

Definition ref_counts (g : DAG) (count : DAG -> string -> Z) : gmap string Z :=
  list_to_map (map (fun k => (k, count g k)) (dag_nodes g)).

(** The variables of the [while key_stack] loop.  [key_stack] is kept with
    its top first: the end of the Python list is the head here. *)
Record vars := {
  key_stack : list string;
  pred_ref_count : gmap string Z;
  succ_ref_count : gmap string Z;
  chunk_key_to_sizes : gmap string Z;
  size_context : size_ctx;
  total_memory_cost : Z;
  max_memory_cost : Z
}.

(** [sum(size_context[out.key][idx] for out in op.outputs)], where [proj]
    is the indexing by [idx]. *)
Fixpoint sum_output_sizes (proj : Z * Z -> Z) (ctx : size_ctx) (outs : list string)
    : res Z :=
  match outs with
  | [] => Ok 0
  | out :: outs' =>
      let* v := getitem ctx out in
      let* rest := sum_output_sizes proj ctx outs' in
      Ok (proj v + rest)
  end.

(** [for succ_op_key in op_key_graph.iter_successors(key)] *)
Fixpoint walk_successors (succs : list string) (stack : list string)
    (prc : gmap string Z) : res (list string * gmap string Z) :=
  match succs with
  | [] => Ok (stack, prc)
  | succ_op_key :: rest =>
      let* c := getitem prc succ_op_key in
      let prc' := <[succ_op_key := c - 1]> prc in
      if bool_decide (c - 1 = 0) then walk_successors rest (succ_op_key :: stack) prc'
      else walk_successors rest stack prc'
  end.

(** [for out in outs: chunk_key_to_sizes[out.key] -= 1] *)
Definition drop_chunk_refs (outs : list string) (cks : gmap string Z) : gmap string Z :=
  foldl (fun m out => <[out := default 0 (m !! out) - 1]> m) cks outs.

(** The second loop over [outs]: the sizes that leave the accounting, and
    the size context after the [pop]s. *)
Fixpoint pop_results (account_idx : Z * Z -> Z) (cks : gmap string Z)
    (outs : list string) (ctx : size_ctx) (pop_result_cost : Z) : Z * size_ctx :=
  match outs with
  | [] => (pop_result_cost, ctx)
  | out :: rest =>
      let size := account_idx (default (0, 0) (ctx !! out)) in
      if bool_decide (default 0 (cks !! out) = 0)
      then pop_results account_idx cks rest (delete out ctx) (pop_result_cost + size)
      else pop_results account_idx cks rest ctx (pop_result_cost + size)
  end.

(** [for pred_op_key in op_key_graph.iter_predecessors(key)] *)
Fixpoint walk_predecessors (subtask : Subtask) (preds : list string)
    (src : gmap string Z) (cks : gmap string Z) (ctx : size_ctx) (total : Z)
    : res (gmap string Z * gmap string Z * size_ctx * Z) :=
  match preds with
  | [] => Ok (src, cks, ctx, total)
  | pred_op_key :: rest =>
      let* c := getitem src pred_op_key in
      let src' := <[pred_op_key := c - 1]> src in
      if bool_decide (c - 1 = 0) then
        let* pred_op := key_to_op subtask pred_op_key in
        let outs := outputs pred_op in
        let cks' := drop_chunk_refs outs cks in
        let account_idx : Z * Z -> Z := if is_Fetch pred_op then snd else fst in
        let '(pop_result_cost, ctx') := pop_results account_idx cks' outs ctx 0 in
        walk_predecessors subtask rest src' cks' ctx' (total - pop_result_cost)
      else walk_predecessors subtask rest src' cks ctx total
  end.

(** One turn of the loop, for the key on top of the stack. *)
Definition loop_body (subtask : Subtask) (g : DAG) (key : string) (stack : list string)
    (s : vars) : res vars :=
  let* op := key_to_op subtask key in
  let* ctx := (if is_Fetch op then Ok (size_context s)
               else estimate_size op (size_context s)) in
  let* calc_cost := sum_output_sizes snd ctx (outputs op) in
  let total := total_memory_cost s + calc_cost in
  let max_cost := Z.max total (max_memory_cost s) in
  let* total := (if is_Fetch op then Ok total
                 else let* result_cost := sum_output_sizes fst ctx (outputs op) in
                      Ok (total + (result_cost - calc_cost))) in
  let* '(stack', prc) :=
    walk_successors (iter_successors g key) stack (pred_ref_count s) in
  let* '(src, cks, ctx', total') :=
    walk_predecessors subtask (iter_predecessors g key) (succ_ref_count s)
      (chunk_key_to_sizes s) ctx total in
  Ok {| key_stack := stack'; pred_ref_count := prc; succ_ref_count := src;
        chunk_key_to_sizes := cks; size_context := ctx';
        total_memory_cost := total'; max_memory_cost := max_cost |}.

(** The loop, unrolled at most [fuel] times; [None] when the stack is not
    empty after [fuel] turns. *)
Fixpoint while_key_stack (fuel : nat) (subtask : Subtask) (g : DAG) (s : vars)
    : option (res vars) :=
  match key_stack s with
  | [] => Some (Ok s)
  | key :: stack =>
      match fuel with
      | O => None
      | S fuel' =>
          match loop_body subtask g key stack s with
          | Ok s' => while_key_stack fuel' subtask g s'
          | Raise e => Some (Raise e)
          end
      end
  end.

(** [sum(proj(t) for t in size_context.values())] *)
Definition sum_values (proj : Z * Z -> Z) (ctx : size_ctx) : Z :=
  map_fold (fun _ v acc => proj v + acc) 0 ctx.

(** The number of turns the loop can still take: a turn pops one key, and
    a key is pushed only when its positive counter of predecessors reaches
    zero. *)
Definition pending_refs (prc : gmap string Z) : nat :=
  map_fold (fun _ v acc => (Z.to_nat v + acc)%nat) 0%nat prc.

Definition turns_left (s : vars) : nat :=
  (length (key_stack s) + pending_refs (pred_ref_count s))%nat.

Definition initial_vars (subtask : Subtask) (input_sizes : size_ctx) : vars :=
  let g := op_key_graph subtask in
  {| key_stack := rev (iter_indep g);
     pred_ref_count := ref_counts g count_predecessors;
     succ_ref_count := ref_counts g count_successors;
     chunk_key_to_sizes := count_chunk_keys (chunk_graph subtask);
     size_context := input_sizes;
     total_memory_cost := 0;
     max_memory_cost := sum_values snd input_sizes |}.

(** [_estimate_sizes(subtask, input_sizes)] *)
Definition _estimate_sizes (subtask : Subtask) (input_sizes : size_ctx)
    : option (res (Z * Z)) :=
  let s0 := initial_vars subtask input_sizes in
  match while_key_stack (turns_left s0) subtask (op_key_graph subtask) s0 with
  | Some (Ok s) => Some (Ok (sum_values fst (size_context s), max_memory_cost s))
  | Some (Raise e) => Some (Raise e)
  | None => None
  end.

(** Every input entry's memory cost, the second component, doubled. *)
Definition double_memory_cost (input_sizes : size_ctx) : size_ctx :=
  (fun v : Z * Z => (v.1, 2 * v.2)) <$> input_sizes.

End Estimator.

(** ** processor.py: the subtask processor *)

Module Processor.

(** A data key of the storage: a chunk key, or the tuple that names one
    piece of the output of a shuffle mapper (the mapper chunk's key first). *)
Inductive data_key :=
  | StrKey (k : string)
  | TupleKey (k : string) (index : Z).

Global Instance data_key_eq_dec : EqDecision data_key.
Proof. solve_decision. Defined.

(** [isinstance(key, tuple)] *)
Definition is_tuple (k : data_key) : bool :=
  match k with TupleKey _ _ => true | StrKey _ => false end.

(** A Python [dict] keyed by data keys, in insertion order. *)
Definition dict (V : Type) : Type := list (data_key * V).

Definition dict_get {V} (d : dict V) (k : data_key) : option V :=
  snd <$> List.find (fun kv => bool_decide (kv.1 = k)) d.

(** [k in d] *)
Definition dict_has {V} (d : dict V) (k : data_key) : bool :=
  bool_decide (is_Some (dict_get d k)).

(** [d[k]] *)
Definition dict_getitem {V} (d : dict V) (k : data_key) : res V :=
  match dict_get d k with
  | Some v => Ok v
  | None => Raise (Exc KeyError "" [])
  end.

(** Modelled from the spec: [get_mapper_data_keys] of
    [mars.services.subtask.utils] is not part of the sources at hand.  The
    mapper keys of a chunk are the tuple keys of the given dict that start
    with the chunk's key. *)
Definition is_mapper_key_of (k : string) (store_key : data_key) : bool :=
  match store_key with
  | TupleKey k' _ => bool_decide (k' = k)
  | StrKey _ => false
  end.

Definition get_mapper_data_keys {V} (k : string) (context : dict V) : list data_key :=
  filter (fun store_key => is_mapper_key_of k store_key) (map fst context).

(** [object_ref]: one object id, or the list of the ids of the mapper keys. *)
Inductive object_ref :=
  | Ref (id : string)
  | Refs (ids : list string).

(** The arguments of one [set_chunk_meta.delay(...)]; [mc_object_ref] is
    [None] for the worker's meta, which excludes the field. *)
Record meta_call := {
  mc_chunk_key : string;
  mc_memory_size : Z;
  mc_store_size : Z;
  mc_object_ref : option object_ref
}.

(** Calls of the processor to its collaborators.  [unpin_data_entered] is
    not a call: it marks in the log that [_unpin_data] was entered, with the
    keys it was given. *)
Inductive pcall :=
  | optimize
  | storage_get_batch (keys : list data_key)
  | execute_graph
  | unpin_data_entered (data_keys : list data_key)
  | storage_unpin_batch (keys : list data_key) (error_ignore : bool)
  | storage_put_batch
  | set_chunk_meta_batches (worker_metas metas : list meta_call)
  | notify_task_manager_result (r : SubtaskResult)
  | await_report_progress.

(** What the collaborators and the parts of the pipeline whose bodies are
    not followed here answer in one run: [on_optimize] is the optimized
    chunk graph; [input_data_keys] is what [iter_input_data_keys] yields;
    [on_execute_graph] is how [_execute_graph] ends; [on_store_data] is what
    [_store_data] returns (the three dicts) or raises; [on_report_progress]
    is how the reporter task ended when [run] awaits it. *)
Record proc_env := {
  on_optimize : res ChunkGraph;
  input_data_keys : list (data_key * bool);
  on_storage_get_batch : res unit;
  on_execute_graph : res unit;
  on_unpin_batch : res unit;
  on_shuffle_unpin_batch : res unit;
  on_store_data : res (dict Z * dict Z * dict string);
  on_set_chunk_meta : res unit;
  on_notify : res unit;
  on_report_progress : res unit
}.

(** The processor object, the log of its calls, and the two locals of
    [run] that its [finally] reads. *)
Record processor := {
  subtask : Subtask;
  _actual_chunk_count : Z;
  _op_progress : gmap string Qc;
  result : SubtaskResult;
  pcalls : list (pcall * bool);
  input_keys : option (list data_key);
  unpinned : bool
}.

Definition set_result (f : SubtaskResult -> SubtaskResult) (p : processor) :=
  {| subtask := subtask p; _actual_chunk_count := _actual_chunk_count p;
     _op_progress := _op_progress p; result := f (result p); pcalls := pcalls p;
     input_keys := input_keys p; unpinned := unpinned p |}.

Definition log_pcall (c : pcall) (ok : bool) (p : processor) :=
  {| subtask := subtask p; _actual_chunk_count := _actual_chunk_count p;
     _op_progress := _op_progress p; result := result p;
     pcalls := pcalls p ++ [(c, ok)];
     input_keys := input_keys p; unpinned := unpinned p |}.

Definition set_input_keys (k : option (list data_key)) (p : processor) :=
  {| subtask := subtask p; _actual_chunk_count := _actual_chunk_count p;
     _op_progress := _op_progress p; result := result p; pcalls := pcalls p;
     input_keys := k; unpinned := unpinned p |}.

Definition set_unpinned (b : bool) (p : processor) :=
  {| subtask := subtask p; _actual_chunk_count := _actual_chunk_count p;
     _op_progress := _op_progress p; result := result p; pcalls := pcalls p;
     input_keys := input_keys p; unpinned := b |}.

Definition set_status (s : SubtaskStatus) (r : SubtaskResult) :=
  {| status := s; progress := progress r; error := error r;
     result_traceback := result_traceback r; data_size := data_size r |}.

Definition set_progress (q : Qc) (r : SubtaskResult) :=
  {| status := status r; progress := q; error := error r;
     result_traceback := result_traceback r; data_size := data_size r |}.

Definition set_error (e : option exn) (tb : option traceback) (r : SubtaskResult) :=
  {| status := status r; progress := progress r; error := e;
     result_traceback := tb; data_size := data_size r |}.

Definition set_data_size (n : Z) (r : SubtaskResult) :=
  {| status := status r; progress := progress r; error := error r;
     result_traceback := result_traceback r; data_size := Some n |}.

(** [SubtaskProcessor.__init__] *)
Definition __init__ (subtask : Subtask) : processor :=
  {| subtask := subtask;
     _actual_chunk_count :=
       Z.of_nat (length (filter (fun chunk => negb (is_Fetch_or_FetchShuffle (op chunk)))
                                (chunks (chunk_graph subtask))));
     _op_progress := ∅;
     result := {| status := pending; progress := 0%Qc; error := None;
                  result_traceback := None; data_size := None |};
     pcalls := [];
     input_keys := None;
     unpinned := false |}.

Definition pawait {A} (c : pcall) (r : res A) : M processor A :=
  fun p => (r, log_pcall c (is_ok r) p).

(** Lift code without state of its own. *)
Definition lift {A} (r : res A) : M processor A := fun p => (r, p).

(** *** [_load_input_data] (the data store apart) *)
Definition _load_input_data (e : proc_env) : M processor (list data_key) :=
  let keys := map fst (input_data_keys e) in
  match keys with
  | [] => ret tt
  | _ => pawait (storage_get_batch keys) (on_storage_get_batch e)
  end ;;
  ret keys.

(** *** [_unpin_data] *)

(** The two lists of delayed calls that the loop builds. *)
Definition unpins (data_keys : list data_key) : list data_key :=
  filter (fun k => negb (is_tuple k)) data_keys.

Definition shuffle_unpins (data_keys : list data_key) : list data_key :=
  filter is_tuple data_keys.

Definition _unpin_data (e : proc_env) (data_keys : list data_key) : M processor unit :=
  modify (log_pcall (unpin_data_entered data_keys) true) ;;
  match unpins data_keys with
  | [] => ret tt
  | l => pawait (storage_unpin_batch l false) (on_unpin_batch e)
  end ;;
  match shuffle_unpins data_keys with
  | [] => ret tt
  | l => pawait (storage_unpin_batch l true) (on_shuffle_unpin_batch e)
  end.

(** *** [_store_meta] *)

(** What the loop over the result chunks has built so far. *)
Record meta_acc := {
  set_chunk_metas : list meta_call;
  set_worker_chunk_metas : list meta_call;
  result_data_size : Z;
  set_meta_keys : list string
}.

Definition sum_list (l : list Z) : Z := foldr Z.add 0 l.

(** [sum(d[k] for k in keys)] and [[d[k] for k in keys]] *)
Fixpoint getitems {V} (d : dict V) (keys : list data_key) : res (list V) :=
  match keys with
  | [] => Ok []
  | k :: rest =>
      match dict_getitem d k with
      | Ok v =>
          match getitems d rest with
          | Ok vs => Ok (v :: vs)
          | Raise e => Raise e
          end
      | Raise e => Raise e
      end
  end.

Import Estimator.

(** The body of [for result_chunk in chunk_graph.result_chunks]. *)
Definition store_meta_step
    (data_key_to_store_size data_key_to_memory_size : dict Z)
    (data_key_to_object_id : dict string) (update_meta_chunks : list string)
    (acc : meta_acc) (result_chunk : Chunk) : res meta_acc :=
  let chunk_key := key result_chunk in
  let* '(store_size, memory_size, result_data_size, object_ref) :=
    (if dict_has data_key_to_store_size (StrKey chunk_key) then
       let* store_size := dict_getitem data_key_to_store_size (StrKey chunk_key) in
       let* memory_size := dict_getitem data_key_to_memory_size (StrKey chunk_key) in
       let* object_id := dict_getitem data_key_to_object_id (StrKey chunk_key) in
       Ok (store_size, memory_size, result_data_size acc + memory_size, Ref object_id)
     else
       let mapper_keys := get_mapper_data_keys chunk_key data_key_to_store_size in
       let* store_sizes := getitems data_key_to_store_size mapper_keys in
       let* memory_sizes := getitems data_key_to_memory_size mapper_keys in
       let* object_ids := getitems data_key_to_object_id mapper_keys in
       Ok (sum_list store_sizes, sum_list memory_sizes, result_data_size acc,
           Refs object_ids)) in
  let worker :=
    if bool_decide (chunk_key ∈ update_meta_chunks) then
      set_worker_chunk_metas acc
        ++ [{| mc_chunk_key := chunk_key; mc_memory_size := memory_size;
               mc_store_size := store_size; mc_object_ref := None |}]
    else set_worker_chunk_metas acc in
  Ok {| set_chunk_metas :=
          set_chunk_metas acc
            ++ [{| mc_chunk_key := chunk_key; mc_memory_size := memory_size;
                   mc_store_size := store_size; mc_object_ref := Some object_ref |}];
        set_worker_chunk_metas := worker;
        result_data_size := result_data_size;
        set_meta_keys := set_meta_keys acc ++ [chunk_key] |}.

Fixpoint store_meta_loop
    (data_key_to_store_size data_key_to_memory_size : dict Z)
    (data_key_to_object_id : dict string) (update_meta_chunks : list string)
    (acc : meta_acc) (result_chunks : list Chunk) : res meta_acc :=
  match result_chunks with
  | [] => Ok acc
  | c :: rest =>
      let* acc' := store_meta_step data_key_to_store_size data_key_to_memory_size
                     data_key_to_object_id update_meta_chunks acc c in
      store_meta_loop data_key_to_store_size data_key_to_memory_size
        data_key_to_object_id update_meta_chunks acc' rest
  end.

(** [_store_meta].  The two batches of meta calls are sent together under
    [asyncio.shield]; on cancellation the code waits for them to finish and
    raises the cancellation again, so [on_set_chunk_meta] is the outcome of
    the whole [try]. *)
Definition _store_meta (e : proc_env) (chunk_graph : ChunkGraph)
    (data_key_to_store_size data_key_to_memory_size : dict Z)
    (data_key_to_object_id : dict string) (update_meta_chunks : list string)
    : M processor unit :=
  do acc <- lift (store_meta_loop data_key_to_store_size data_key_to_memory_size
                    data_key_to_object_id update_meta_chunks
                    {| set_chunk_metas := []; set_worker_chunk_metas := [];
                       result_data_size := 0; set_meta_keys := [] |}
                    (result_chunks chunk_graph));
  match set_chunk_metas acc with
  | [] => ret tt
  | metas =>
      pawait (set_chunk_meta_batches (set_worker_chunk_metas acc) metas)
             (on_set_chunk_meta e)
  end ;;
  modify (set_result (set_data_size (result_data_size acc))).



(** *** [done] *)
Definition done : M processor unit :=
  modify (set_result (fun r =>
            set_progress 1%Qc
              (if bool_decide (status r = running) then set_status succeeded r else r))).

(** *** [run] *)

(** [update_meta_chunks]: the chunks of [subtask.update_meta_chunks], or
    all raw result chunks, each looked up in [result_chunk_to_optimized]. *)
Definition optimized_update_meta_chunks (subtask : Subtask) (optimized : ChunkGraph)
    : res (list string) :=
  let raw_result_chunks := result_chunks (chunk_graph subtask) in
  let result_chunk_to_optimized : dict string :=
    zip_with (fun c o => (StrKey (key c), key o))
             raw_result_chunks (result_chunks optimized) in
  let raw_update_meta_chunks :=
    default (map key raw_result_chunks) (update_meta_chunks subtask) in
  getitems result_chunk_to_optimized (map StrKey raw_update_meta_chunks).

(** The [try] block of [run], from the assignment of [input_keys] on. *)
Definition run_loaded (e : proc_env) (chunk_graph : ChunkGraph)
    (update_meta_chunks : list string) (keys : list data_key) : M processor unit :=
  modify (set_input_keys (Some keys)) ;;
  try_finally
    (pawait execute_graph (on_execute_graph e))
    (modify (set_unpinned true) ;;
     _unpin_data e keys) ;;
  do '(store_sizes, memory_sizes, data_key_to_object_id) <-
    pawait storage_put_batch (on_store_data e);
  _store_meta e chunk_graph store_sizes memory_sizes data_key_to_object_id
    update_meta_chunks.

(** The [try] block of [run]. *)
Definition run_try (e : proc_env) : M processor unit :=
  do chunk_graph <- pawait optimize (on_optimize e);
  do sub <- gets subtask;
  do update_meta_chunks <- lift (optimized_update_meta_chunks sub chunk_graph);
  do keys <- _load_input_data e;
  run_loaded e chunk_graph update_meta_chunks keys.

(** The two [except] clauses of [run]. *)
Definition run_except (ex : exn) : M processor unit :=
  if isinstance ex CancelledError then
    modify (set_result (set_status cancelled)) ;;
    modify (set_result (set_progress 1%Qc)) ;;
    raise ex
  else
    modify (set_result (set_status errored)) ;;
    modify (set_result (set_progress 1%Qc)) ;;
    (if isinstance ex ExecutionError then
       modify (set_result (set_error (nested_error ex)
                             (traceback_of <$> nested_error ex)))
     else
       modify (set_result (set_error (Some ex) (Some (traceback_of ex))))) ;;
    done ;;
    raise ex.

(** The [finally] block of [run]. *)
Definition run_finally (e : proc_env) : M processor unit :=
  do input_keys <- gets input_keys;
  do unpinned <- gets unpinned;
  match input_keys with
  | Some keys => if negb unpinned then _unpin_data e keys else ret tt
  | None => ret tt
  end.

Definition run (e : proc_env) : M processor SubtaskResult :=
  modify (set_result (set_status running)) ;;
  modify (set_input_keys None) ;;
  modify (set_unpinned false) ;;
  try_finally (try_except (run_try e) run_except) (run_finally e) ;;
  done ;;
  try_except
    (pawait await_report_progress (on_report_progress e))
    (fun ex => if isinstance ex CancelledError then ret tt else raise ex) ;;
  gets result.

(** The keys with which [_unpin_data] was entered, in the order of the
    log. *)
Definition unpin_data_invocations (log : list (pcall * bool)) : list (list data_key) :=
  omap (fun ev => match ev.1 with
                  | unpin_data_entered keys => Some keys
                  | _ => None
                  end) log.

(** *** [report_progress_periodically] *)

(** [x / size], a float by an [int]. *)
Definition truediv (x : Qc) (size : Z) : res Qc :=
  if bool_decide (size = 0) then Raise (Exc ZeroDivisionError "division by zero" [])
  else Ok (x / Qc_of_Z size)%Qc.

(** [sum(self._op_progress.values())] *)
Definition sum_progress (m : gmap string Qc) : Qc :=
  map_fold (fun _ v acc => (v + acc)%Qc) 0%Qc m.

Definition Qc_abs (x : Qc) : Qc := if decide (0 ≤ x)%Qc then x else (- x)%Qc.

(** One turn of the [while] loop, the test of the loop included:
    [Some progress] is the new [last_progress] when the loop goes on,
    [None] when it ends.  [asyncio.sleep] only passes time. *)
Definition report_progress_turn (e : proc_env) (eps last_progress : Qc)
    : M processor (option Qc) :=
  do st <- gets (fun p => status (result p));
  if is_done st then ret None
  else
    do size <- gets _actual_chunk_count;
    do total <- gets (fun p => sum_progress (_op_progress p));
    do progress <- lift (truediv total size);
    (if decide (progress ≤ 1)%Qc then ret tt else raise (Exc AssertionError "" [])) ;;
    modify (set_result (set_progress progress)) ;;
    (if decide (eps ≤ Qc_abs (last_progress - progress))%Qc then
       do r <- gets result;
       if negb (is_done (status r))
       then pawait (notify_task_manager_result r) (on_notify e)
       else ret tt
     else ret tt) ;;
    ret (Some progress).

End Processor.

(** ** execution.py: the inputs of a subtask and the run of one subtask

    [_prepare_input_data], [_collect_input_sizes], [internal_run_subtask],
    [run_subtask] and the part of [cancel_subtask] that marks the info. *)

Module Coordinator.
Import Execution Estimator.

Abbreviation data_key := Processor.data_key.
Abbreviation StrKey := Processor.StrKey.

(** *** [_prepare_input_data] *)

(** The arguments of one [storage_api.fetch.delay(...)]. *)
Record fetch_delay := {
  fetch_data_key : data_key;
  fetch_band_name : string;
  fetch_error_ignore : bool
}.

(** The calls of [_prepare_input_data] to the storage. *)
Inductive storage_call :=
  | StorageAPI_create (session_id address band_name : string)
  | fetch_batch (queries : list fetch_delay).

(** What the storage answers in one run of [_prepare_input_data]. *)
Record prepare_env := {
  on_create : res unit;
  on_fetch_batch : res unit;
  on_shuffle_fetch_batch : res (list data_key)
}.

Definition sawait {A} (c : storage_call) (r : res A)
    : M (list (storage_call * bool)) A :=
  fun log => (r, log ++ [(c, is_ok r)]).

Section PrepareInputData.
(** [self.address]; the attribute [gpu] of an operand, which the record of
    operands does not carry; and the mapping that
    [get_chunk_key_to_data_keys(subtask.chunk_graph)] returns.

    Modelled from the spec: [get_chunk_key_to_data_keys] of [mars.utils] is
    not part of the sources at hand; the mapping gives, for the key of a
    chunk, the keys under which its data is stored. *)
Variable address : string.
Variable gpu : Operand -> bool.
Variable chunk_key_to_data_keys : gmap string (list data_key).
Variable subtask : Subtask.
Variable band_name : string.

(** The body of [for chunk in subtask.chunk_graph], on the two lists
    [queries] and [shuffle_queries]. *)
Definition prepare_step (acc : list fetch_delay * list fetch_delay) (chunk : Chunk)
    : res (list fetch_delay * list fetch_delay) :=
  let '(queries, shuffle_queries) := acc in
  if bool_decide (key chunk ∈ pure_depend_keys subtask) then Ok acc
  else
    let to_fetch_band := if gpu (op chunk) then band_name else "numa-0" in
    if is_Fetch (op chunk) then
      Ok (queries ++ [{| fetch_data_key := StrKey (key chunk);
                         fetch_band_name := to_fetch_band;
                         fetch_error_ignore := false |}],
          shuffle_queries)
    else if bool_decide (kind (op chunk) = FetchShuffle) then
      let* keys := getitem chunk_key_to_data_keys (key chunk) in
      Ok (queries,
          shuffle_queries
            ++ map (fun k => {| fetch_data_key := k;
                                fetch_band_name := to_fetch_band;
                                fetch_error_ignore := true |}) keys)
    else Ok acc.

Fixpoint prepare_loop (cs : list Chunk) (acc : list fetch_delay * list fetch_delay)
    : res (list fetch_delay * list fetch_delay) :=
  match cs with
  | [] => Ok acc
  | chunk :: rest =>
      let* acc' := prepare_step acc chunk in
      prepare_loop rest acc'
  end.

(** [_prepare_input_data(subtask, band_name)]: [None] is the value of a
    call that ends without a [return] statement. *)
Definition _prepare_input_data (e : prepare_env)
    : M (list (storage_call * bool)) (option (list data_key)) :=
  sawait (StorageAPI_create (session_id subtask) address band_name) (on_create e) ;;
  do '(queries, shuffle_queries) <-
    (fun log => (prepare_loop (chunks (chunk_graph subtask)) ([], []), log));
  match queries with
  | [] => ret tt
  | _ => sawait (fetch_batch queries) (on_fetch_batch e)
  end ;;
  match shuffle_queries with
  | [] => ret None
  | _ =>
      do keys <- sawait (fetch_batch shuffle_queries) (on_shuffle_fetch_batch e);
      ret (Some keys)
  end.
End PrepareInputData.

(** *** The state of the actor while it runs one subtask *)

(** The calls of [_collect_input_sizes] and [internal_run_subtask] besides
    those of [_retry_run_subtask]. *)
Inductive acall :=
  | create_StorageAPI (session_id address band_name : string)
  | create_MetaAPI (session_id address : string)
  | get_chunk_meta_batch (keys : list string)
  | get_infos_batch (keys : list string)
  | to_thread_estimate_sizes
  | remove_mapper_data_tell (session_id band_name : string)
      (remote_mapper_keys : list data_key)
  | get_slot_manager_ref (band : string)
  | upload_slot_usages.

(** A chunk meta with the two fields that are asked for. *)
Record chunk_meta := {
  memory_size : Z;
  store_size : Z
}.

(** What the rest of the system answers during one run of
    [internal_run_subtask].  [on_prepare_input_data n] answers the call of
    [_prepare_input_data] made when [num_retries] is [n];
    [data_prepare_timed_out] tells whether the cancellation that the
    prepare task met, if any, is the one [asyncio.wait_for] sends when
    [data_prepare_timeout] has elapsed; the answer to [get_infos] is, for
    each key, the levels of the infos found for it, the first one apart
    ([functools.reduce] with no initial value raises a [TypeError], a class
    the class tree above does not have, on an empty sequence: the keys asked
    about were fetched before, so each has an info); [on_to_thread] is what
    the wait for the thread of [_estimate_sizes] meets;
    [on_get_band_quota_ref] and [on_run_get_slot_manager_ref] answer the two
    look-ups at the start of [_retry_run_subtask], and
    [on_get_slot_manager_ref] the look-up of the [finally] block; [on_run]
    answers the runs of the subtask. *)
Record actor_env := {
  on_prepare_input_data : Z -> reply (option (list data_key));
  data_prepare_timed_out : bool;
  on_create_StorageAPI : reply unit;
  on_create_MetaAPI : reply unit;
  on_get_chunk_meta : list string -> reply (list chunk_meta);
  on_get_infos : list string -> reply (list (Z * list Z));
  on_to_thread : reply unit;
  on_get_band_quota_ref : reply unit;
  on_run_get_slot_manager_ref : reply unit;
  on_run : nat -> run_env;
  on_remove_mapper_data : reply unit;
  on_get_slot_manager_ref : reply unit;
  on_upload_slot_usages : reply unit
}.

(** The actor: the table [_subtask_info], the state of the run at hand
    (its info is the object that the table holds for the subtask: the code
    reads the table once, at the start, and works on that object), and the
    log of the calls above. *)
Record actor := {
  _subtask_info : gmap string SubtaskExecutionInfo;
  current : world;
  acalls : list (acall * bool)
}.

Definition set_table (t : gmap string SubtaskExecutionInfo) (a : actor) :=
  {| _subtask_info := t; current := current a; acalls := acalls a |}.

Definition set_current (w : world) (a : actor) :=
  {| _subtask_info := _subtask_info a; current := w; acalls := acalls a |}.

Definition log_acall (c : acall) (ok : bool) (a : actor) :=
  {| _subtask_info := _subtask_info a; current := current a;
     acalls := acalls a ++ [(c, ok)] |}.

Definition mark_cancelling (b : bool) (w : world) : world :=
  set_info (fun i => set_cancelling (cancelling i || b) i) w.

(** [await c], answered by [r]. *)
Definition aawait {A} (c : acall) (r : reply A) : M actor A :=
  fun a =>
    (answer r,
     log_acall c (is_ok (answer r))
       (set_current (mark_cancelling (cancelled_meanwhile r) (current a)) a)).

(** Statements that hold a loop: [None] when the fuel of the loop is used
    up before it ends. *)
Definition MO (W A : Type) : Type := W -> option (res A * W).

Definition obind {W A B} (m : MO W A) (k : A -> MO W B) : MO W B :=
  fun w =>
    match m w with
    | Some (Ok a, w') => k a w'
    | Some (Raise e, w') => Some (Raise e, w')
    | None => None
    end.

Definition total {W A} (m : M W A) : MO W A := fun w => Some (m w).

Definition otry_except {W A} (body : MO W A) (handler : exn -> MO W A) : MO W A :=
  fun w =>
    match body w with
    | Some (Ok a, w') => Some (Ok a, w')
    | Some (Raise e, w') => handler e w'
    | None => None
    end.

Definition otry_finally {W A} (body : MO W A) (fin : MO W unit) : MO W A :=
  fun w =>
    match body w with
    | Some (r, w') =>
        match fin w' with
        | Some (Ok _, w'') => Some (r, w'')
        | Some (Raise e, w'') => Some (Raise e, w'')
        | None => None
        end
    | None => None
    end.

(** A statement on the state of the run, made in the actor. *)
Definition zoom {A} (m : MO world A) : MO actor A :=
  fun a =>
    match m (current a) with
    | Some (r, w') => Some (r, set_current w' a)
    | None => None
    end.

(** *** [_collect_input_sizes] *)

(** Modelled from the spec: the graph classes of [mars.core.graph] are not
    part of the sources at hand.  [graph.iter_indep()] yields the chunks
    without predecessors, in the order of the graph. *)
Definition iter_indep (g : ChunkGraph) : list Chunk :=
  omap (fun i => if bool_decide (i ∈ map snd (edges g)) then None else chunks g !! i)
       (seq 0 (length (chunks g))).

(** The listing of the set of the keys to fetch.  The order in which a
    [set] is listed is not fixed by the language; the keys are listed here
    in the order in which they are met first. *)
Definition fetch_keys (subtask : Subtask) : list string :=
  remove_dups
    (map key
       (filter (fun n => is_Fetch (op n)
                         && negb (bool_decide (key n ∈ pure_depend_keys subtask)))
               (iter_indep (chunk_graph subtask)))).

Section CollectInputSizes.
(** [self.address] and [StorageLevel.MEMORY].

    Modelled from the spec: [StorageLevel] of [mars.storage] is not part of
    the sources at hand; a level is a field of bits, of which [MEMORY] is
    the one of shared memory, [|] joins two levels and [level & MEMORY] is
    true when the bit is in the level. *)
Variable address : string.
Variable MEMORY : Z.

(** [functools.reduce(operator.or_, (info.level for info in infos))] *)
Definition reduce_or (levels : Z * list Z) : Z :=
  foldl Z.lor levels.1 levels.2.

(** The body of the loop over [zip(fetch_keys, fetch_metas, data_infos)]. *)
Definition size_entry (meta : chunk_meta) (infos : Z * list Z) : Z * Z :=
  let level := reduce_or infos in
  let mem_cost :=
    if bool_decide (Z.land level MEMORY <> 0)
    then Z.max 0 (memory_size meta - store_size meta)
    else memory_size meta in
  (store_size meta, mem_cost).

Definition collect_sizes (keys : list string) (fetch_metas : list chunk_meta)
    (data_infos : list (Z * list Z)) : size_ctx :=
  foldl (fun (sizes : size_ctx) '(key, meta, infos) =>
           <[key := size_entry meta infos]> sizes)
        ∅ (zip (zip keys fetch_metas) data_infos).

Definition _collect_input_sizes (e : actor_env) (subtask : Subtask)
    (supervisor_address band_name : string) : M actor size_ctx :=
  let keys := fetch_keys subtask in
  match keys with
  | [] => ret ∅
  | _ =>
      aawait (create_StorageAPI (session_id subtask) address band_name)
             (on_create_StorageAPI e) ;;
      aawait (create_MetaAPI (session_id subtask) supervisor_address)
             (on_create_MetaAPI e) ;;
      do fetch_metas <- aawait (get_chunk_meta_batch keys) (on_get_chunk_meta e keys);
      do data_infos <- aawait (get_infos_batch keys) (on_get_infos e keys);
      ret (collect_sizes keys fetch_metas data_infos)
  end.

(** *** [internal_run_subtask] *)

Variable subtask : Subtask.
Variable band_name : string.

(** [SubtaskResult(..., status=SubtaskStatus.pending)] *)
Definition pending_result : SubtaskResult :=
  {| status := pending; progress := 0%Qc; error := None;
     result_traceback := None; data_size := None |}.

(** One call of [self._prepare_input_data(subtask, band_name)] as
    [_retry_run] makes it, answered by the environment. *)
Definition prepare_input_data_task (e : actor_env)
    : M world (option (list data_key)) :=
  fun w =>
    let r := on_prepare_input_data e (num_retries (subtask_info w)) in
    (answer r, mark_cancelling (cancelled_meanwhile r) w).

(** [asyncio.wait_for(task, timeout)]: the outcome of the task, but
    [asyncio.TimeoutError] when the task ended by the cancellation that the
    elapsed timeout sent to it. *)
Definition wait_for {A} (timed_out : bool) (task : MO world A) : MO world A :=
  fun w =>
    match task w with
    | Some (Raise ex, w') =>
        if timed_out && isinstance ex CancelledError
        then Some (Raise (Exc TimeoutError "" []), w')
        else Some (Raise ex, w')
    | out => out
    end.

(** [await asyncio.to_thread(f, ...)]: the outcome of [f], unless the wait
    for the thread is left by an exception. *)
Definition to_thread {A} (f : option (res A)) (r : reply unit) : MO actor A :=
  fun a =>
    let a' := (aawait to_thread_estimate_sizes r a).2 in
    match answer r with
    | Raise ex => Some (Raise ex, a')
    | Ok _ =>
        match f with
        | Some out => Some (out, a')
        | None => None
        end
    end.

Definition on_current (f : world -> world) (a : actor) : actor :=
  set_current (f (current a)) a.

(** [_fill_subtask_result_with_exception(subtask, subtask_info)] in a
    handler of [ex]. *)
Definition fill (ex : exn) : M actor unit :=
  modify (on_current (set_info (_fill_subtask_result_with_exception (Some ex)))).

Notation "'do?' x <- m ; k" := (obind m (fun x => k))
  (at level 10, x name, m at level 100, k at level 200).
Notation "'do?' ' p <- m ; k" := (obind m (fun x => match x with p => k end))
  (at level 10, p pattern, m at level 100, k at level 200).
Notation "m ;;; k" := (obind m (fun _ => k))
  (at level 100, k at level 200, right associativity, only parsing).

(** What [_retry_run_subtask] meets at its start in the actor [a]. *)
Definition run_refs (e : actor_env) (a : actor) : refs_env :=
  {| on_quota_ref := on_get_band_quota_ref e;
     on_slot_manager_ref := on_run_get_slot_manager_ref e;
     table_holds_subtask :=
       bool_decide (is_Some (_subtask_info a !! subtask_id subtask)) |}.

(** The [try] block. *)
Definition run_stages (e : actor_env) : MO actor unit :=
  do? remote_mapper_keys <-
    zoom (wait_for (data_prepare_timed_out e)
            (_retry_run subtask "_prepare_input_data" (prepare_input_data_task e)));
  do? supervisor <-
    total (gets (fun a => supervisor_address (subtask_info (current a))));
  do? input_sizes <- total (_collect_input_sizes e subtask supervisor band_name);
  do? '(_store_size, calc_size) <-
    to_thread (_estimate_sizes subtask input_sizes) (on_to_thread e);
  zoom (total _check_cancelling) ;;;
  let batch_quota_req := [((session_id subtask, subtask_id subtask), calc_size)] in
  do? r <- (fun a => zoom (_retry_run_subtask subtask band_name address
                             batch_quota_req (on_run e) (run_refs e a)) a);
  zoom (total (modify (set_info (Execution.set_result r)))) ;;;
  match remote_mapper_keys with
  | Some (k :: keys) =>
      total (aawait (remove_mapper_data_tell (session_id subtask) band_name
                       (k :: keys))
                    (on_remove_mapper_data e))
  | _ => total (ret tt)
  end.

(** The [try] statement inside the [finally] block. *)
Definition upload_slot_usages_block (e : actor_env) : M actor unit :=
  try_finally
    (try_except
       (aawait (get_slot_manager_ref band_name) (on_get_slot_manager_ref e) ;;
        aawait upload_slot_usages (on_upload_slot_usages e))
       fill)
    (modify (fun a => set_table (delete (subtask_id subtask) (_subtask_info a)) a)).

(** [internal_run_subtask(subtask, band_name)].  The run starts on the info
    that the table holds, with the log of the calls of the run empty. *)
Definition internal_run_subtask (e : actor_env) : MO actor SubtaskResult :=
  fun a =>
    match _subtask_info a !! subtask_id subtask with
    | None => Some (Raise (Exc KeyError (subtask_id subtask) []), a)
    | Some info =>
        (total (modify (set_current
                          (new_world (Execution.set_result pending_result info)))) ;;;
         otry_finally
           (otry_except (run_stages e) (fun ex => total (fill ex)))
           (total (upload_slot_usages_block e)) ;;;
         total (gets (fun a => result (subtask_info (current a))))) a
    end.

(** *** [run_subtask] *)

(** [self._subtask_max_retries] and [subtask.extra_config], which the
    record of subtasks does not carry: [None], or a dict that may hold an
    integer or [None] under ["subtask_max_retries"]. *)
Variable _subtask_max_retries : Z.
Variable extra_config : option (gmap string (option Z)).

Definition subtask_max_retries : Z :=
  let from_config :=
    match extra_config with
    | Some d => if bool_decide (d = ∅) then None else mjoin (d !! "subtask_max_retries")
    | None => None
    end in
  match from_config with
  | Some n => n
  | None => _subtask_max_retries
  end.

Definition already_running_message : string :=
  "Subtask " +:+ subtask_id subtask +:+ " is already running on this band["
    +:+ address +:+ "].".

(** [run_subtask(subtask, band_name, supervisor_address)].  The plain
    [Exception] raised for a subtask that is in the table already, a class
    of which the exceptions above have no instance, is the left summand,
    with its message.  [await task] gives what [internal_run_subtask]
    returns or raises. *)
Definition run_subtask (e : actor_env) (supervisor_address : string) (a : actor)
    : string + option (res SubtaskResult * actor) :=
  if bool_decide (is_Some (_subtask_info a !! subtask_id subtask)) then
    inl already_running_message
  else
    inr ((total (modify (fun a =>
                   set_table (<[subtask_id subtask :=
                                  new_SubtaskExecutionInfo band_name supervisor_address
                                    subtask_max_retries]> (_subtask_info a)) a)) ;;;
          do? result <- internal_run_subtask e;
          total (modify (fun a =>
                   set_table (delete (subtask_id subtask) (_subtask_info a)) a)) ;;;
          total (ret result)) a).
End CollectInputSizes.

(** *** [cancel_subtask], up to its wait for the task *)

Definition set_kill_timeout (t : option Z) (i : SubtaskExecutionInfo) :=
  {| band_name := band_name i; supervisor_address := supervisor_address i;
     result := result i; cancelling := cancelling i; max_retries := max_retries i;
     num_retries := num_retries i; slot_id := slot_id i;
     kill_timeout := t |}.

(** The statements of [cancel_subtask] before [await subtask_info.aio_task],
    on the table: [_enable_kill_slot] is the attribute of the actor; the
    second component tells whether [aio_task.cancel()] was called. *)
Definition cancel_subtask_mark (_enable_kill_slot : bool) (subtask_id : string)
    (kill_timeout : option Z) (table : gmap string SubtaskExecutionInfo)
    : gmap string SubtaskExecutionInfo * bool :=
  match table !! subtask_id with
  | None => (table, false)
  | Some subtask_info =>
      let kill_timeout := if _enable_kill_slot then kill_timeout else None in
      if negb (cancelling subtask_info) then
        (<[subtask_id := set_cancelling true (set_kill_timeout kill_timeout subtask_info)]>
           table, true)
      else (table, false)
  end.

End Coordinator.

(** ** dataframe/sort/core.py: the tiling of a sort that keeps the first rows *)

Module Sort.

Module OperandStage.
Inductive t := map | combine | agg.
End OperandStage.

(** A chunk that [_tile_head] makes: the stage of its operand, the first
    coordinate of its index, and the first component of its shape, the
    number of its rows, which is taken to be known. *)
Record chunk := {
  stage : OperandStage.t;
  index : Z;
  rows : Z
}.

(** The outcome of statements that index a list: [to_combine_chunks[0]]
    raises [IndexError] on an empty list. *)
Inductive outcome (A : Type) :=
  | Returns (a : A)
  | IndexError.
Global Arguments Returns {A} a.
Global Arguments IndexError {A}.

(** [l[a:b]], with the bounds of the language: a negative bound counts from
    the end, and both are brought into the list. *)
Definition slice_bound (len i : Z) : Z :=
  if i <? 0 then Z.max (len + i) 0 else Z.min i len.

Definition slice {A} (l : list A) (a b : Z) : list A :=
  let len := Z.of_nat (length l) in
  take (Z.to_nat (slice_bound len b - slice_bound len a))
       (drop (Z.to_nat (slice_bound len a)) l).

(** [range(n)] *)
Definition range (n : Z) : list Z := List.map Z.of_nat (seq 0 (Z.to_nat n)).

(** [sum(c.shape[0] for c in chunks)] *)
Definition sum_rows (chunks : list chunk) : Z :=
  foldr Z.add 0 (List.map rows chunks).

Section TileHead.
(** [ceildiv] of [mars.utils], which is not part of the sources at hand and
    is left open here; [options.combine_size]; and [op.nrows]. *)
Variable ceildiv : Z -> Z -> Z.
Variable combine_size : Z.
Variable nrows : Z.

(** The chunks of the map stage, one for each chunk of the input, with its
    index and its shape. *)
Definition map_chunks (inp_chunks : list chunk) : list chunk :=
  List.map (fun c => {| stage := OperandStage.map; index := index c; rows := rows c |})
           inp_chunks.

(** The body of [for i in range(chunk_size)]: the chunk appended to
    [combine_chunks]. *)
Definition combine_chunk (out_chunks : list chunk) (chunk_size i : Z)
    : outcome chunk :=
  let to_combine_chunks := slice out_chunks (i * combine_size) ((i + 1) * combine_size) in
  match to_combine_chunks with
  | [] => IndexError
  | _ =>
      let shape0 := sum_rows to_combine_chunks in
      Returns {| stage := if 1 <? chunk_size then OperandStage.combine
                          else OperandStage.agg;
                 index := i;
                 rows := Z.min shape0 nrows |}
  end.

Fixpoint for_range (out_chunks : list chunk) (chunk_size : Z) (indices : list Z)
    (combine_chunks : list chunk) : outcome (list chunk) :=
  match indices with
  | [] => Returns combine_chunks
  | i :: rest =>
      match combine_chunk out_chunks chunk_size i with
      | Returns c => for_range out_chunks chunk_size rest (combine_chunks ++ [c])
      | IndexError => IndexError
      end
  end.

(** The loop [while True], unrolled at most [fuel] times: [None] when it
    has not reached its [break] after [fuel] turns. *)
Fixpoint combine_loop (fuel : nat) (out_chunks : list chunk)
    : option (outcome (list chunk)) :=
  match fuel with
  | O => None
  | S fuel' =>
      let chunk_size := ceildiv (Z.of_nat (length out_chunks)) combine_size in
      match for_range out_chunks chunk_size (range chunk_size) [] with
      | Returns combine_chunks =>
          if chunk_size =? 1 then Some (Returns combine_chunks)
          else combine_loop fuel' combine_chunks
      | IndexError => Some IndexError
      end
  end.

(** The chunks of the tileable that [_tile_head] returns, for an input
    with the chunks [inp_chunks]. *)
Definition _tile_head (fuel : nat) (inp_chunks : list chunk)
    : option (outcome (list chunk)) :=
  combine_loop fuel (map_chunks inp_chunks).
End TileHead.

End Sort.

(** ** Concrete subtasks and environments *)

Module Scenarios.
Import Execution.

(** The two-chunk graph A -> B of the spec's scenarios: A is fetched, B is
    computed from A.  The compute operand sizes its output from the store
    size of its input. *)
Definition fetch_A : Operand :=
  {| op_key := "fetch-A"; kind := Fetch; outputs := ["A"];
     retryable_attr := Some true; estimate_size := fun ctx => Ok ctx |}.

Definition compute_B (retryable : bool) : Operand :=
  {| op_key := "op-B"; kind := Compute; outputs := ["B"];
     retryable_attr := Some retryable;
     estimate_size := fun ctx =>
       match ctx !! "A" with
       | Some (store_size, _) => Ok (<["B" := (store_size, store_size)]> ctx)
       | None => Raise (Exc KeyError "A" [])
       end |}.

Definition chunk_A : Chunk := {| key := "A"; op := fetch_A |}.
Definition chunk_B (retryable : bool) : Chunk :=
  {| key := "B"; op := compute_B retryable |}.

Definition graph_A_B (retryable : bool) : ChunkGraph :=
  {| chunks := [chunk_A; chunk_B retryable];
     edges := [(0%nat, 1%nat)];
     topo := [0%nat; 1%nat];
     result_chunks := [chunk_B retryable] |}.

Definition subtask_S (retryable : bool) : Subtask :=
  {| subtask_id := "S"; session_id := "sess";
     chunk_graph := graph_A_B retryable;
     pure_depend_keys := []; update_meta_chunks := None;
     retryable := retryable |}.

Definition quota_req : list (quota_key * Z) := [(("sess", "S"), 300)].

Definition replies {A} (r : res A) : reply A :=
  {| cancelled_meanwhile := false; answer := r |}.

Definition succeeded_result : SubtaskResult :=
  {| status := succeeded; progress := 1%Qc; error := None;
     result_traceback := None; data_size := Some 250 |}.

(** Every call returns; slot 7 is acquired. *)
Definition happy : run_env :=
  {| on_request_batch_quota := replies (Ok tt);
     on_acquire_free_slot := replies (Ok 7);
     on_run_subtask_in_slot := replies (Ok succeeded_result);
     on_cancel_subtask_in_slot := replies (Ok tt);
     on_kill_slot := replies (Ok tt);
     on_get_slot_address := replies (Ok "sub-pool-7");
     on_wait_actor_pool_recovered := replies (Ok tt);
     on_get_subtask_slot := replies (Ok None);
     on_release_free_slot := replies (Ok tt);
     on_release_quotas := replies (Ok tt) |}.

Definition conn_reset : exn := Exc OSError "conn reset" ["run_subtask_in_slot"].

(** The run in the slot fails with an [OSError]. *)
Definition run_fails : run_env :=
  {| on_request_batch_quota := replies (Ok tt);
     on_acquire_free_slot := replies (Ok 7);
     on_run_subtask_in_slot := replies (Raise conn_reset);
     on_cancel_subtask_in_slot := replies (Ok tt);
     on_kill_slot := replies (Ok tt);
     on_get_slot_address := replies (Ok "sub-pool-7");
     on_wait_actor_pool_recovered := replies (Ok tt);
     on_get_subtask_slot := replies (Ok None);
     on_release_free_slot := replies (Ok tt);
     on_release_quotas := replies (Ok tt) |}.

Definition task_cancelled : exn := Exc CancelledError "" [].

(** The subtask ran; the task is cancelled while the [finally] block waits
    for [release_free_slot]. *)
Definition cancelled_in_release : run_env :=
  {| on_request_batch_quota := replies (Ok tt);
     on_acquire_free_slot := replies (Ok 7);
     on_run_subtask_in_slot := replies (Ok succeeded_result);
     on_cancel_subtask_in_slot := replies (Ok tt);
     on_kill_slot := replies (Ok tt);
     on_get_slot_address := replies (Ok "sub-pool-7");
     on_wait_actor_pool_recovered := replies (Ok tt);
     on_get_subtask_slot := replies (Ok None);
     on_release_free_slot :=
       {| cancelled_meanwhile := true; answer := Raise task_cancelled |};
     on_release_quotas := replies (Ok tt) |}.

(** The task is cancelled while it waits for its quota. *)
Definition cancelled_in_quota : run_env :=
  {| on_request_batch_quota :=
       {| cancelled_meanwhile := true; answer := Raise task_cancelled |};
     on_acquire_free_slot := replies (Ok 7);
     on_run_subtask_in_slot := replies (Ok succeeded_result);
     on_cancel_subtask_in_slot := replies (Ok tt);
     on_kill_slot := replies (Ok tt);
     on_get_slot_address := replies (Ok "sub-pool-7");
     on_wait_actor_pool_recovered := replies (Ok tt);
     on_get_subtask_slot := replies (Ok None);
     on_release_free_slot := replies (Ok tt);
     on_release_quotas := replies (Ok tt) |}.

(** Both look-ups of [_retry_run_subtask] return and the table holds the
    subtask. *)
Definition refs_found : refs_env :=
  {| on_quota_ref := replies (Ok tt);
     on_slot_manager_ref := replies (Ok tt);
     table_holds_subtask := true |}.

Definition actor_lost : exn := Exc OSError "actor lost" ["_get_slot_manager_ref"].

(** The look-up of the slot manager fails. *)
Definition slot_manager_not_found : refs_env :=
  {| on_quota_ref := replies (Ok tt);
     on_slot_manager_ref := replies (Raise actor_lost);
     table_holds_subtask := true |}.

Definition world_with (max_retries : Z) : world :=
  new_world (new_SubtaskExecutionInfo "numa-0" "supervisor" max_retries).

(** [_run_subtask_once] of the subtask S on band numa-0. *)
Definition run_once (retryable : bool) (env : nat -> run_env) : M world SubtaskResult :=
  _run_subtask_once (subtask_S retryable) "numa-0" "worker" quota_req env.

(** The input sizes of scenario 1, and a subtask that only fetches A. *)
Definition sizes_A : gmap string (Z * Z) := {["A" := (100, 200)]}.

Definition graph_A : ChunkGraph :=
  {| chunks := [chunk_A]; edges := []; topo := [0%nat]; result_chunks := [chunk_A] |}.

Definition subtask_fetch_only : Subtask :=
  {| subtask_id := "F"; session_id := "sess"; chunk_graph := graph_A;
     pure_depend_keys := []; update_meta_chunks := None; retryable := true |}.

(** Scenario 1 in the processor: A is loaded, B is computed and stored, the
    put gives B the sizes (150, 250) and the object id obj-B. *)
Definition stored_B : Processor.dict Z * Processor.dict Z * Processor.dict string :=
  ([(Processor.StrKey "B", 150)], [(Processor.StrKey "B", 250)],
   [(Processor.StrKey "B", "obj-B")]).

Definition proc_happy : Processor.proc_env :=
  {| Processor.on_optimize := Ok (graph_A_B true);
     Processor.input_data_keys := [(Processor.StrKey "A", false)];
     Processor.on_storage_get_batch := Ok tt;
     Processor.on_execute_graph := Ok tt;
     Processor.on_unpin_batch := Ok tt;
     Processor.on_shuffle_unpin_batch := Ok tt;
     Processor.on_store_data := Ok stored_B;
     Processor.on_set_chunk_meta := Ok tt;
     Processor.on_notify := Ok tt;
     Processor.on_report_progress := Raise (Exc CancelledError "" []) |}.

(** The execution of the graph fails. *)
Definition proc_execute_fails : Processor.proc_env :=
  {| Processor.on_optimize := Ok (graph_A_B true);
     Processor.input_data_keys := [(Processor.StrKey "A", false)];
     Processor.on_storage_get_batch := Ok tt;
     Processor.on_execute_graph :=
       Raise (ExecErr (Exc ValueError "bad value" ["execute"]) ["execute"]);
     Processor.on_unpin_batch := Ok tt;
     Processor.on_shuffle_unpin_batch := Ok tt;
     Processor.on_store_data := Ok stored_B;
     Processor.on_set_chunk_meta := Ok tt;
     Processor.on_notify := Ok tt;
     Processor.on_report_progress := Raise (Exc CancelledError "" []) |}.






End Scenarios.

(** ** More concrete subtasks and environments *)

Module Cases.
Import Execution Coordinator.

(** The task is cancelled while the subtask runs in slot 7, and the
    request to cancel the subtask in the slot times out. *)
Definition cancel_times_out : run_env :=
  {| on_request_batch_quota := Scenarios.replies (Ok tt);
     on_acquire_free_slot := Scenarios.replies (Ok 7);
     on_run_subtask_in_slot :=
       {| cancelled_meanwhile := true; answer := Raise Scenarios.task_cancelled |};
     on_cancel_subtask_in_slot :=
       Scenarios.replies (Raise (Exc TimeoutError "" ["wait_for"]));
     on_kill_slot := Scenarios.replies (Ok tt);
     on_get_slot_address := Scenarios.replies (Ok "sub-pool-7");
     on_wait_actor_pool_recovered := Scenarios.replies (Ok tt);
     on_get_subtask_slot := Scenarios.replies (Ok None);
     on_release_free_slot := Scenarios.replies (Ok tt);
     on_release_quotas := Scenarios.replies (Ok tt) |}.

(** A reducer: C is computed from the fetched chunk A and from the pieces
    that two mappers made for it, which the chunk R stands for. *)
Definition fetch_shuffle_R : Operand :=
  {| op_key := "fetch-shuffle-R"; kind := FetchShuffle; outputs := ["R"];
     retryable_attr := None; estimate_size := fun ctx => Ok ctx |}.

Definition reduce_C : Operand :=
  {| op_key := "op-C"; kind := Compute; outputs := ["C"];
     retryable_attr := None;
     estimate_size := fun ctx => Ok (<["C" := (10, 10)]> ctx) |}.

Definition chunk_R : Chunk := {| key := "R"; op := fetch_shuffle_R |}.
Definition chunk_C : Chunk := {| key := "C"; op := reduce_C |}.

Definition graph_reduce : ChunkGraph :=
  {| chunks := [Scenarios.chunk_A; chunk_R; chunk_C];
     edges := [(0%nat, 2%nat); (1%nat, 2%nat)];
     topo := [0%nat; 1%nat; 2%nat];
     result_chunks := [chunk_C] |}.

Definition subtask_reduce : Subtask :=
  {| subtask_id := "T"; session_id := "sess"; chunk_graph := graph_reduce;
     pure_depend_keys := []; update_meta_chunks := None; retryable := true |}.

Definition reduce_data_keys : gmap string (list data_key) :=
  {[ "A" := [StrKey "A"];
     "R" := [Processor.TupleKey "M1" 0; Processor.TupleKey "M2" 0] ]}.

(** The reducer in the processor: it loads A and the two pieces of R and
    executes its graph; the task is cancelled while [_unpin_data] waits for
    the batch that unpins A. *)
Definition reduce_input_keys : list data_key :=
  [StrKey "A"; Processor.TupleKey "M1" 0; Processor.TupleKey "M2" 0].

Definition proc_unpin_cancelled : Processor.proc_env :=
  {| Processor.on_optimize := Ok graph_reduce;
     Processor.input_data_keys :=
       [(StrKey "A", false); (Processor.TupleKey "M1" 0, true);
        (Processor.TupleKey "M2" 0, true)];
     Processor.on_storage_get_batch := Ok tt;
     Processor.on_execute_graph := Ok tt;
     Processor.on_unpin_batch := Raise Scenarios.task_cancelled;
     Processor.on_shuffle_unpin_batch := Ok tt;
     Processor.on_store_data :=
       Ok ([(StrKey "C", 10)], [(StrKey "C", 20)], [(StrKey "C", "obj-C")]);
     Processor.on_set_chunk_meta := Ok tt;
     Processor.on_notify := Ok tt;
     Processor.on_report_progress := Raise (Exc CancelledError "" []) |}.

Definition no_gpu (o : Operand) : bool := false.

(** The storage fetches all; the piece of the mapper M2 came from another
    worker. *)
Definition storage_fetches : prepare_env :=
  {| on_create := Ok tt; on_fetch_batch := Ok tt;
     on_shuffle_fetch_batch := Ok [Processor.TupleKey "M2" 0] |}.

Definition prepare_reduce :=
  _prepare_input_data "worker" no_gpu reduce_data_keys subtask_reduce "numa-0"
    storage_fetches [].

(** The run of the subtask S of scenario 1 by the actor of the worker:
    the meta of A gives it 100 bytes in store and 200 in memory, and A is
    found on disk only. *)
Definition MEMORY : Z := 2.
Definition DISK : Z := 4.

Definition meta_A : chunk_meta := {| memory_size := 200; store_size := 100 |}.

Definition happy_actor (shared : bool) : actor_env :=
  {| on_prepare_input_data := fun _ => Scenarios.replies (Ok None);
     data_prepare_timed_out := false;
     on_create_StorageAPI := Scenarios.replies (Ok tt);
     on_create_MetaAPI := Scenarios.replies (Ok tt);
     on_get_chunk_meta := fun keys => Scenarios.replies (Ok (map (fun _ => meta_A) keys));
     on_get_infos := fun keys =>
       Scenarios.replies
         (Ok (map (fun _ => if shared then (DISK, [MEMORY]) else (DISK, [])) keys));
     on_to_thread := Scenarios.replies (Ok tt);
     on_get_band_quota_ref := Scenarios.replies (Ok tt);
     on_run_get_slot_manager_ref := Scenarios.replies (Ok tt);
     on_run := fun _ => Scenarios.happy;
     on_remove_mapper_data := Scenarios.replies (Ok tt);
     on_get_slot_manager_ref := Scenarios.replies (Ok tt);
     on_upload_slot_usages := Scenarios.replies (Ok tt) |}.

(** The actor after [run_subtask] accepted the subtask S. *)
Definition accepted (max_retries : Z) : actor :=
  {| _subtask_info :=
       {[ "S" := new_SubtaskExecutionInfo "numa-0" "supervisor" max_retries ]};
     current := Scenarios.world_with max_retries;
     acalls := [] |}.

Definition collect_S (shared : bool) :=
  _collect_input_sizes "worker" MEMORY (happy_actor shared) (Scenarios.subtask_S true)
    "supervisor" "numa-0" (accepted 0).

(** The subtask S when its input A is only depended upon, not read. *)
Definition subtask_pure_depend : Subtask :=
  {| subtask_id := "S"; session_id := "sess";
     chunk_graph := Scenarios.graph_A_B true;
     pure_depend_keys := ["A"]; update_meta_chunks := None; retryable := true |}.

(** [internal_run_subtask] of the subtask S on the band numa-0, and the
    result and the state in which it ends. *)
Definition run_S (e : actor_env) (max_retries : Z) :=
  internal_run_subtask "worker" MEMORY (Scenarios.subtask_S true) "numa-0" e
    (accepted max_retries).

Definition ran_S (e : actor_env) (max_retries : Z) : res SubtaskResult * actor :=
  default (Raise assertion_error, accepted max_retries) (run_S e max_retries).

(** All goes well, but the slot manager fails to upload the slot usages. *)
Definition upload_error : exn := Exc OSError "upload failed" ["upload_slot_usages"].

Definition upload_fails : actor_env :=
  {| on_prepare_input_data := fun _ => Scenarios.replies (Ok None);
     data_prepare_timed_out := false;
     on_create_StorageAPI := Scenarios.replies (Ok tt);
     on_create_MetaAPI := Scenarios.replies (Ok tt);
     on_get_chunk_meta := fun keys => Scenarios.replies (Ok (map (fun _ => meta_A) keys));
     on_get_infos := fun keys => Scenarios.replies (Ok (map (fun _ => (DISK, [])) keys));
     on_to_thread := Scenarios.replies (Ok tt);
     on_get_band_quota_ref := Scenarios.replies (Ok tt);
     on_run_get_slot_manager_ref := Scenarios.replies (Ok tt);
     on_run := fun _ => Scenarios.happy;
     on_remove_mapper_data := Scenarios.replies (Ok tt);
     on_get_slot_manager_ref := Scenarios.replies (Ok tt);
     on_upload_slot_usages := Scenarios.replies (Raise upload_error) |}.

(** The environments in which only the prepare stage and the runs differ
    from scenario 1. *)
Definition actor_env_of (prepare : Z -> reply (option (list data_key)))
    (timed_out : bool) (runs : nat -> run_env) : actor_env :=
  {| on_prepare_input_data := prepare;
     data_prepare_timed_out := timed_out;
     on_create_StorageAPI := Scenarios.replies (Ok tt);
     on_create_MetaAPI := Scenarios.replies (Ok tt);
     on_get_chunk_meta := fun keys => Scenarios.replies (Ok (map (fun _ => meta_A) keys));
     on_get_infos := fun keys => Scenarios.replies (Ok (map (fun _ => (DISK, [])) keys));
     on_to_thread := Scenarios.replies (Ok tt);
     on_get_band_quota_ref := Scenarios.replies (Ok tt);
     on_run_get_slot_manager_ref := Scenarios.replies (Ok tt);
     on_run := runs;
     on_remove_mapper_data := Scenarios.replies (Ok tt);
     on_get_slot_manager_ref := Scenarios.replies (Ok tt);
     on_upload_slot_usages := Scenarios.replies (Ok tt) |}.


(** The deadline of the prepare stage passes during the first call. *)
Definition prepare_times_out : actor_env :=
  actor_env_of
    (fun _ => {| cancelled_meanwhile := false;
                 answer := Raise Scenarios.task_cancelled |})
    true (fun _ => Scenarios.happy).

(** The first call of the prepare stage and the first run fail with an
    [OSError]; the second ones go well. *)
Definition fails_twice : actor_env :=
  actor_env_of
    (fun n => Scenarios.replies (if bool_decide (n = 0) then Raise Scenarios.conn_reset
                                 else Ok None))
    false
    (fun n => match n with O => Scenarios.run_fails | _ => Scenarios.happy end).

End Cases.

(** * Theorems *)

(** ** Exceptions *)

Module PyFacts.

Lemma isinstance_ExecutionError_nested (e : exn) :
  isinstance e ExecutionError = true -> exists n, nested_error e = Some n.
Proof.
  unfold isinstance.
  induction e as [c args tb | n _ tb | name msg e IH]; simpl.
  - discriminate.
  - intros _. by exists n.
  - exact IH.
Qed.

Lemma isinstance_wrap_exception (e : exn) (name msg : string) (c : pyclass) :
  isinstance (wrap_exception e name msg) c = isinstance e c.
Proof. reflexivity. Qed.

Lemma string_app_assoc (a b c : string) : (a +:+ b) +:+ c = a +:+ (b +:+ c).
Proof.
  induction a as [| x a IH]; [reflexivity |].
  change ((String x a +:+ b) +:+ c) with (String x ((a +:+ b) +:+ c)).
  change (String x a +:+ (b +:+ c)) with (String x (a +:+ (b +:+ c))).
  by rewrite IH.
Qed.

End PyFacts.

(** ** Relations that every step of a statement keeps

    [steps R m]: running [m] takes a state to one related to it by [R].
    For a preorder [R] this goes through sequencing, handlers and
    [finally] blocks. *)

Module MonadFacts.

Definition steps {W A} (R : relation W) (m : M W A) : Prop :=
  forall w, R w (m w).2.

Section Steps.
Context {W : Type}.
Variable R : relation W.
Context `{!PreOrder R}.

Lemma steps_ret {A} (a : A) : steps R (ret a).
Proof. intros w. reflexivity. Qed.

Lemma steps_raise {A} (e : exn) : steps R (raise (A := A) e).
Proof. intros w. reflexivity. Qed.

Lemma steps_gets {A} (f : W -> A) : steps R (gets f).
Proof. intros w. reflexivity. Qed.

Lemma steps_modify (f : W -> W) :
  (forall w, R w (f w)) -> steps R (modify f).
Proof. intros H w. apply H. Qed.

Lemma steps_bind {A B} (m : M W A) (k : A -> M W B) :
  steps R m -> (forall a, steps R (k a)) -> steps R (bind m k).
Proof.
  intros Hm Hk w. unfold bind. specialize (Hm w).
  destruct (m w) as [[a | e] w']; simpl in *; [| done].
  etransitivity; [exact Hm | apply Hk].
Qed.

Lemma steps_try_except {A} (m : M W A) (h : exn -> M W A) :
  steps R m -> (forall e, steps R (h e)) -> steps R (try_except m h).
Proof.
  intros Hm Hh w. unfold try_except. specialize (Hm w).
  destruct (m w) as [[a | e] w']; simpl in *; [done |].
  etransitivity; [exact Hm | apply Hh].
Qed.

Lemma steps_try_finally {A} (m : M W A) (fin : M W unit) :
  steps R m -> steps R fin -> steps R (try_finally m fin).
Proof.
  intros Hm Hf w. unfold try_finally. specialize (Hm w).
  destruct (m w) as [r w']; simpl in *. specialize (Hf w').
  destruct (fin w') as [[[] | e] w'']; simpl in *; by etransitivity.
Qed.
End Steps.

End MonadFacts.

(** ** The coordinator *)

Module ExecutionFacts.
Import Execution PyFacts MonadFacts.

(** C5. [_fill_subtask_result_with_exception], run while the exception
    [exc] is being handled: an [ExecutionError] is replaced by its
    [nested_error], whose own traceback is used; the status is [cancelled]
    when the exception so obtained is a cancellation and [errored]
    otherwise; status, progress (1.0), error and traceback are all set. *)
Theorem fill_subtask_result_with_exception_spec
    (exc : exn) (subtask_info : SubtaskExecutionInfo) :
  let exc' := if isinstance exc ExecutionError
              then default exc (nested_error exc) else exc in
  let r := result (_fill_subtask_result_with_exception (Some exc) subtask_info) in
  (if isinstance exc ExecutionError then nested_error exc = Some exc'
   else exc' = exc) /\
  status r = (if isinstance exc' CancelledError then cancelled else errored) /\
  progress r = 1%Qc /\
  error r = Some exc' /\
  result_traceback r = Some (traceback_of exc').
Proof.
  unfold _fill_subtask_result_with_exception. cbv zeta.
  destruct (isinstance exc ExecutionError) eqn:Hexec.
  - destruct (isinstance_ExecutionError_nested exc Hexec) as [n Hn].
    rewrite Hn. simpl. auto.
  - simpl. auto.
Qed.

(** *** Steps of the coordinator *)

Section WorldSteps.
Variable R : relation world.
Context `{!PreOrder R}.

Lemma steps_finally_raise {A B} (m : M world B) (ex : exn) :
  steps R m -> steps R (finally_raise (A := A) m ex).
Proof. intros Hm w. apply Hm. Qed.

Lemma steps_await {A} (c : call) (r : reply A) :
  (forall w, R w (await c r w).2) -> steps R (await c r).
Proof. intros H w. apply H. Qed.

Lemma steps_check_cancelling : steps R _check_cancelling.
Proof.
  apply steps_bind; [done | apply steps_gets; done |].
  intros []; [by apply steps_raise | by apply steps_ret].
Qed.
End WorldSteps.

(** Breaks a statement into its [modify] and [await] steps, which are left
    as goals. *)
Ltac steps :=
  repeat lazymatch goal with
    | |- steps ?R (ret _) => apply (steps_ret R)
    | |- steps ?R (raise _) => apply (steps_raise R)
    | |- steps ?R (gets _) => apply (steps_gets R)
    | |- steps ?R _check_cancelling => apply (steps_check_cancelling R)
    | |- steps ?R (bind _ _) => apply (steps_bind R); [| intros ?]
    | |- steps ?R (try_finally _ _) => apply (steps_try_finally R)
    | |- steps ?R (try_except _ _) => apply (steps_try_except R); [| intros ?]
    | |- steps ?R (finally_raise _ _) => apply (steps_finally_raise R)
    | |- steps ?R (modify _) => apply (steps_modify R)
    | |- steps ?R (await _ _) => apply (steps_await R)
    | |- steps _ (if ?b then _ else _) => destruct b
    | |- steps _ (match ?x with _ => _ end) => destruct x
    end.

(** The value of [f] stays what it is. *)
Definition keeps {X} (f : world -> X) : relation world :=
  fun w w' => f w' = f w.

Global Instance keeps_preorder {X} (f : world -> X) : PreOrder (keeps f).
Proof.
  split; [by intros w |].
  intros w1 w2 w3 H1 H2. unfold keeps in *. congruence.
Qed.

(** The log grows by calls that satisfy [Q]. *)
Definition logs (Q : call * bool -> Prop) : relation world :=
  fun w w' => exists evs, calls w' = calls w ++ evs /\ Forall Q evs.

Global Instance logs_preorder (Q : call * bool -> Prop) : PreOrder (logs Q).
Proof.
  split.
  - intros w. exists []. by rewrite app_nil_r.
  - intros w1 w2 w3 (e1 & H1 & Q1) (e2 & H2 & Q2).
    exists (e1 ++ e2). rewrite H2, H1, app_assoc. split; [done |].
    by apply Forall_app.
Qed.

(** *** Statements that leave the retry counters alone *)

Definition counters (w : world) : Z * Z :=
  (num_retries (subtask_info w), max_retries (subtask_info w)).

Lemma keeps_counters_of_steps {A} (m : M world A) :
  steps (keeps counters) m -> keeps_counters m.
Proof.
  intros H w. specialize (H w). unfold keeps, counters in H. by inversion H.
Qed.

Lemma run_subtask_once_keeps_counters subtask band address req env :
  keeps_counters (_run_subtask_once subtask band address req env).
Proof.
  apply keeps_counters_of_steps.
  intros w. unfold _run_subtask_once.
  set (e := env (attempts w)). clearbody e. revert w.
  change (steps (keeps counters)
    (modify enter_run_subtask_once ;;
     try_finally
       (try_except (try_block subtask band req e) (except_clauses band address e))
       (release_slot_and_quota subtask req e))).
  unfold try_block, run_in_slot, except_clauses, on_cancelled,
    on_os_or_mars_error, release_slot_and_quota.
  steps; by intros [].
Qed.

(** *** [_retry_run] *)

Lemma cancelled_not_retried (ex : exn) :
  isinstance ex CancelledError = true ->
  isinstance ex OSError || isinstance ex MarsError = false.
Proof.
  unfold isinstance. destruct (type_of ex) as [[] | | |]; simpl; done.
Qed.

Section RetryRun.
Context {A : Type}.
Variable subtask : Subtask.
Variable target_repr : string.
Variable target : M world A.
Hypothesis Hkeeps : keeps_counters target.

Let num (w : world) := num_retries (subtask_info w).
Let max (w : world) := max_retries (subtask_info w).

Lemma target_num w : num (target w).2 = num w.
Proof. apply Hkeeps. Qed.

Lemma target_max w : max (target w).2 = max w.
Proof. apply Hkeeps. Qed.

(** With the fuel that [_retry_run] gives it, the loop always ends. *)
Lemma retry_loop_returns (fuel : nat) (w : world) :
  (Z.to_nat (max w - num w) < fuel)%nat ->
  exists r, retry_loop fuel subtask target_repr target w = Some r.
Proof.
  revert w. induction fuel as [| fuel IH]; intros w Hfuel; [lia |].
  simpl. pose proof (target_num w) as Hn. pose proof (target_max w) as Hm.
  destruct (target w) as [[v | ex] w1]; simpl in *; [eauto |].
  unfold on_target_error.
  destruct (isinstance ex OSError || isinstance ex MarsError).
  - destruct (Z.ltb_spec (num_retries (subtask_info w1)) (max_retries (subtask_info w1))).
    + apply IH. unfold num, max in *. simpl. lia.
    + destruct (0 <? _); eauto.
  - destruct (isinstance ex CancelledError); [eauto |].
    destruct (isinstance ex Exception); [| eauto].
    destruct (0 <? _); eauto.
Qed.

Lemma retry_run_returns (w : world) :
  exists r, _retry_run subtask target_repr target w = Some r.
Proof.
  unfold _retry_run.
  destruct (negb _); [eauto |]. destruct (negb _); [eauto |].
  apply retry_loop_returns. fold (num w) (max w). lia.
Qed.

(** More fuel than needed changes nothing. *)
Lemma retry_loop_fuel (fuel fuel' : nat) (w : world) r :
  retry_loop fuel subtask target_repr target w = Some r ->
  (fuel <= fuel')%nat ->
  retry_loop fuel' subtask target_repr target w = Some r.
Proof.
  revert fuel' w. induction fuel as [| fuel IH]; intros fuel' w H Hle; [done |].
  destruct fuel' as [| fuel']; [lia |].
  simpl in *. destruct (target w) as [[v | ex] w1]; [done |].
  destruct (on_target_error subtask target_repr ex w1); [done |].
  apply IH; [done | lia].
Qed.

Lemma retry_run_unfold (w : world) :
  0 <= num w -> 0 <= max w ->
  _retry_run subtask target_repr target w =
  match target w with
  | (Ok v, w1) => Some (Ok v, w1)
  | (Raise ex, w1) =>
      match on_target_error subtask target_repr ex w1 with
      | inl r => Some r
      | inr w2 => _retry_run subtask target_repr target w2
      end
  end.
Proof.
  intros Hn Hm. unfold _retry_run at 1. fold (num w) (max w).
  destruct (Z.leb_spec 0 (num w)); [| lia].
  destruct (Z.leb_spec 0 (max w)); [| lia]. simpl.
  pose proof (target_num w) as Hn1. pose proof (target_max w) as Hm1.
  destruct (target w) as [[v | ex] w1]; [done |]. simpl in Hn1, Hm1.
  destruct (on_target_error subtask target_repr ex w1) as [r | w2] eqn:Herr; [done |].
  assert (num w2 = num w + 1 /\ max w2 = max w /\ num w < max w) as (Hn2 & Hm2 & Hlt).
  { unfold on_target_error in Herr. fold (num w1) (max w1) in Herr.
    destruct (isinstance ex OSError || isinstance ex MarsError).
    - destruct (Z.ltb_spec (num w1) (max w1)).
      + inversion Herr. unfold num, max in *. simpl. lia.
      + destruct (0 <? _); discriminate.
    - destruct (isinstance ex CancelledError); [discriminate |].
      destruct (isinstance ex Exception); [| discriminate].
      destruct (0 <? _); discriminate. }
  unfold _retry_run. fold (num w2) (max w2).
  destruct (Z.leb_spec 0 (num w2)); [| lia].
  destruct (Z.leb_spec 0 (max w2)); [| lia]. simpl.
  replace (Z.to_nat (max w - num w)) with (S (Z.to_nat (max w2 - num w2))) by lia.
  reflexivity.
Qed.

(** The invariant, on every state the loop goes through. *)
Lemma retry_states_invariant (fuel : nat) (w : world) :
  num w <= max w ->
  Forall (fun w' => num w' <= max w' /\ max w' = max w)
         (retry_states fuel subtask target_repr target w).
Proof.
  revert w. induction fuel as [| fuel IH]; intros w Hle; simpl; [constructor |].
  pose proof (target_num w) as Hn1. pose proof (target_max w) as Hm1.
  destruct (target w) as [[v | ex] w1]; simpl in Hn1, Hm1.
  { repeat constructor; lia. }
  destruct (on_target_error subtask target_repr ex w1) as [r | w2] eqn:Herr.
  { repeat constructor; lia. }
  assert (num w2 = num w + 1 /\ max w2 = max w /\ num w < max w) as (Hn2 & Hm2 & Hlt).
  { unfold on_target_error in Herr. fold (num w1) (max w1) in Herr.
    destruct (isinstance ex OSError || isinstance ex MarsError).
    - destruct (Z.ltb_spec (num w1) (max w1)).
      + inversion Herr. unfold num, max in *. simpl. lia.
      + destruct (0 <? _); discriminate.
    - destruct (isinstance ex CancelledError); [discriminate |].
      destruct (isinstance ex Exception); [| discriminate].
      destruct (0 <? _); discriminate. }
  constructor; [lia |]. constructor; [lia |].
  eapply Forall_impl; [apply IH; lia |].
  simpl. intros w' [? ?]. lia.
Qed.

(** The state in which the loop ends is the last it went through. *)
Lemma retry_loop_final_state (fuel : nat) (w : world) r w' :
  retry_loop fuel subtask target_repr target w = Some (r, w') ->
  w' ∈ retry_states fuel subtask target_repr target w.
Proof.
  revert w. induction fuel as [| fuel IH]; intros w H; simpl in *; [done |].
  destruct (target w) as [[v | ex] w1].
  { inversion H. set_solver. }
  destruct (on_target_error subtask target_repr ex w1) as [r1 | w2] eqn:Herr.
  - assert (r1.2 = w1) as Hw1.
    { unfold on_target_error in Herr.
      repeat match type of Herr with
             | context [if ?b then _ else _] => destruct b
             end; by inversion Herr. }
    inversion H; subst. simpl. set_solver.
  - apply IH in H. set_solver.
Qed.
End RetryRun.

(** C2. The retry policy of [_retry_run], for a target that raised [ex]
    and left the state [w1]: an [OSError] or [MarsError] is retried while
    [num_retries < max_retries], the counter going up by one before the next
    attempt; once retries are exhausted and [max_retries > 0] the error is
    raised wrapped as [_ExceedMaxRerun]; with [max_retries = 0] every error
    is raised as it is; another exception that is not a cancellation is
    wrapped as [_UnhandledException] when [max_retries > 0] and only then; a
    cancellation is raised as it is, whatever [max_retries]. *)
Theorem retry_run_policy {A} (subtask : Subtask) (target_repr : string)
    (target : M world A) (w w1 : world) (ex : exn) :
  keeps_counters target ->
  0 <= num_retries (subtask_info w) ->
  0 <= max_retries (subtask_info w) ->
  target w = (Raise ex, w1) ->
  let info := subtask_info w1 in
  let retried := isinstance ex OSError || isinstance ex MarsError in
  let run := _retry_run subtask target_repr target in
  (retried = true -> num_retries info < max_retries info ->
     run w = run (set_info incr_num_retries w1) /\
     num_retries (subtask_info (set_info incr_num_retries w1))
       = num_retries (subtask_info w) + 1) /\
  (retried = true -> ~ num_retries info < max_retries info ->
     0 < max_retries info ->
     run w = Some (Raise (wrap_exception ex "_ExceedMaxRerun"
                            (exceed_max_rerun_message info target_repr subtask ex)),
                   w1)) /\
  (max_retries info = 0 -> run w = Some (Raise ex, w1)) /\
  (retried = false -> isinstance ex CancelledError = false ->
     isinstance ex Exception = true ->
     run w = Some (if 0 <? max_retries info
                   then Raise (wrap_exception ex "_UnhandledException"
                                 (unhandled_message info target_repr subtask ex))
                   else Raise ex, w1)) /\
  (retried = false -> isinstance ex Exception = false ->
     run w = Some (Raise ex, w1)) /\
  (isinstance ex CancelledError = true -> run w = Some (Raise ex, w1)).
Proof.
  intros Hkeeps Hn Hm Htarget info retried run.
  assert (Hrun : run w =
            match on_target_error subtask target_repr ex w1 with
            | inl r => Some r
            | inr w2 => run w2
            end).
  { unfold run. rewrite retry_run_unfold by done. by rewrite Htarget. }
  destruct (Hkeeps w) as [Hn1 Hm1]. rewrite Htarget in Hn1, Hm1. simpl in Hn1, Hm1.
  fold info in Hn1, Hm1.
  rewrite Hrun. unfold on_target_error. fold info retried.
  repeat split.
  - rewrite H. by destruct (Z.ltb_spec (num_retries info) (max_retries info)); [| lia].
  - simpl. fold info. lia.
  - intros Hr Hlt Hpos. rewrite Hr.
    destruct (Z.ltb_spec (num_retries info) (max_retries info)); [lia |].
    by destruct (Z.ltb_spec 0 (max_retries info)); [| lia].
  - intros Hzero. rewrite Hzero.
    destruct (Z.ltb_spec (num_retries info) 0); [lia |]. simpl.
    by repeat match goal with |- context [if ?b then _ else _] => destruct b end.
  - intros Hr Hc He. rewrite Hr, Hc, He.
    by destruct (0 <? max_retries info).
  - intros Hr He. rewrite Hr, He.
    by destruct (isinstance ex CancelledError).
  - intros Hc. unfold retried. by rewrite (cancelled_not_retried ex Hc), Hc.
Qed.

(** The first attempt of scenario 3 (both attempts raise [OSError],
    [max_retries = 1]) is retried with the counter at 1; the second one
    exhausts the retries. *)
Lemma retry_run_policy_witness :
  let target := Scenarios.run_once true (fun _ => Scenarios.run_fails) in
  let run := _retry_run (Scenarios.subtask_S true) "_run_subtask_once" target in
  let w := Scenarios.world_with 1 in
  (0 <= num_retries (subtask_info w) /\ 0 <= max_retries (subtask_info w)) /\
  run w = run (set_info incr_num_retries (target w).2) /\
  exists msg w',
    run w = Some (Raise (wrap_exception Scenarios.conn_reset "_ExceedMaxRerun" msg), w').
Proof.
  intros target run w.
  assert (Hkeeps : keeps_counters target).
  { exact (run_subtask_once_keeps_counters (Scenarios.subtask_S true) "numa-0"
             "worker" Scenarios.quota_req (fun _ => Scenarios.run_fails)). }
  split; [by vm_compute |].
  destruct (retry_run_policy (Scenarios.subtask_S true) "_run_subtask_once"
              target w (target w).2 Scenarios.conn_reset Hkeeps)
    as ((Hretry & _) & _); [by vm_compute | by vm_compute | by vm_compute | by vm_compute | by vm_compute |].
  split; [exact Hretry |].
  fold run in Hretry. rewrite Hretry.
  set (w1 := set_info incr_num_retries (target w).2).
  destruct (retry_run_policy (Scenarios.subtask_S true) "_run_subtask_once"
              target w1 (target w1).2 Scenarios.conn_reset Hkeeps)
    as (_ & Hexhausted & _); [by vm_compute | by vm_compute | by vm_compute |].
  eexists _, _. apply Hexhausted; by vm_compute.
Defined.

(** *** The two counters during the execution of a subtask *)

(** On every state that a call of [_retry_run] goes through, started in a
    state where [num_retries <= max_retries], that holds and [max_retries]
    is the initial one; the state in which the call ends is one of them. *)
Lemma retry_run_states_invariant {A} (subtask : Subtask) (target_repr : string)
    (target : M world A) (w : world) :
  keeps_counters target ->
  num_retries (subtask_info w) <= max_retries (subtask_info w) ->
  Forall (fun w' =>
            num_retries (subtask_info w') <= max_retries (subtask_info w') /\
            max_retries (subtask_info w') = max_retries (subtask_info w))
         (_retry_run_states subtask target_repr target w) /\
  forall r w', _retry_run subtask target_repr target w = Some (r, w') ->
               w' ∈ _retry_run_states subtask target_repr target w.
Proof.
  intros Hkeeps Hle. unfold _retry_run_states, _retry_run.
  destruct (negb _).
  { split; [repeat constructor; lia |]. intros r w' H. inversion H. set_solver. }
  destruct (negb _).
  { split; [repeat constructor; lia |]. intros r w' H. inversion H. set_solver. }
  split.
  - constructor; [lia |]. by apply retry_states_invariant.
  - intros r w' H. apply elem_of_cons. right.
    by eapply retry_loop_final_state.
Qed.

(** The states of the execution of one subtask, as far as the two counters
    go.  [run_subtask] makes the info with [num_retries = 0] and with the
    [max_retries] chosen for the subtask, [k]; [_retry_run], which is called
    on targets that leave the counters alone, is the only code that assigns
    [num_retries], and nothing assigns [max_retries]: every other step
    leaves the two as they are.  A run of [run_subtask] ends in such a
    state ([CounterFacts.run_subtask_execution_state] below). *)
Inductive execution_state (k : Z) : world -> Prop :=
  | state_fresh (band_name supervisor_address : string) :
      execution_state k
        (new_world (new_SubtaskExecutionInfo band_name supervisor_address k))
  | state_kept (w w' : world) :
      execution_state k w -> counters w' = counters w -> execution_state k w'
  | state_retry {A} (subtask : Subtask) (target_repr : string)
      (target : M world A) (w w' : world) :
      execution_state k w -> keeps_counters target ->
      w' ∈ _retry_run_states subtask target_repr target w ->
      execution_state k w'.

(** The invariant of these states, for a [max_retries] that is not
    negative. *)
Lemma execution_state_counters (k : Z) (w : world) :
  0 <= k ->
  execution_state k w ->
  num_retries (subtask_info w) <= max_retries (subtask_info w) /\
  max_retries (subtask_info w) = k.
Proof.
  intros Hk Hstate.
  induction Hstate as [b s | w w' _ IH Hc | A subtask repr target w w' _ IH Hkeeps Hin].
  - simpl. lia.
  - unfold counters in Hc. inversion Hc as [[Hn Hm]]. rewrite Hn, Hm. exact IH.
  - destruct IH as [Hle Hmax].
    destruct (retry_run_states_invariant subtask repr target w Hkeeps Hle)
      as [Hall _].
    rewrite Forall_forall in Hall. destruct (Hall w' Hin) as [Hle' Hmax'].
    split; [exact Hle' | congruence].
Qed.

(** The state in which a call of [_retry_run] ends is again one of them. *)
Lemma execution_state_retry_run (k : Z) {A} (subtask : Subtask)
    (target_repr : string) (target : M world A) (w : world) r w' :
  0 <= k ->
  execution_state k w ->
  keeps_counters target ->
  _retry_run subtask target_repr target w = Some (r, w') ->
  execution_state k w'.
Proof.
  intros Hk Hstate Hkeeps Hrun.
  destruct (execution_state_counters k w Hk Hstate) as [Hle _].
  destruct (retry_run_states_invariant subtask target_repr target w Hkeeps Hle)
    as [_ Hend].
  eapply state_retry; [exact Hstate | exact Hkeeps | by eapply Hend].
Qed.

(** C8, as the code has it.  For a subtask whose info is made with a
    [max_retries] that is not negative, [k], on every state of its
    execution [num_retries <= max_retries] holds and [max_retries] is
    still [k], so that [num_retries] never exceeds [k]; and the state in
    which a call of [_retry_run] ends is again such a state. *)
Theorem num_retries_le_max_retries (k : Z) (w : world) :
  0 <= k ->
  execution_state k w ->
  (num_retries (subtask_info w) <= max_retries (subtask_info w) /\
   max_retries (subtask_info w) = k) /\
  forall A (subtask : Subtask) (target_repr : string) (target : M world A) r w',
    keeps_counters target ->
    _retry_run subtask target_repr target w = Some (r, w') ->
    execution_state k w'.
Proof.
  intros Hk Hstate. split; [by apply execution_state_counters |].
  intros A subtask repr target r w' Hkeeps Hrun.
  by eapply execution_state_retry_run.
Qed.

(** Scenario 2 with both attempts failing, for an info made with
    [max_retries = 2]: in the state in which [_retry_run] ends, after two
    retries, the counter is within 2. *)
Lemma num_retries_le_max_retries_witness :
  let target := Scenarios.run_once true (fun _ => Scenarios.run_fails) in
  let w := Scenarios.world_with 2 in
  exists r w',
    _retry_run (Scenarios.subtask_S true) "_run_subtask_once" target w = Some (r, w') /\
    num_retries (subtask_info w') = 2 /\
    num_retries (subtask_info w') <= max_retries (subtask_info w') /\
    max_retries (subtask_info w') = 2.
Proof.
  intros target w.
  assert (Hkeeps : keeps_counters target).
  { apply (run_subtask_once_keeps_counters (Scenarios.subtask_S true) "numa-0"
             "worker" Scenarios.quota_req (fun _ => Scenarios.run_fails)). }
  assert (Hfresh : execution_state 2 w) by apply state_fresh.
  destruct (_retry_run (Scenarios.subtask_S true) "_run_subtask_once" target w)
    as [[r w'] |] eqn:Hrun; [| by vm_compute in Hrun].
  exists r, w'. split; [reflexivity |].
  split; [vm_compute in Hrun; by inversion Hrun |].
  destruct (num_retries_le_max_retries 2 w ltac:(lia) Hfresh) as [_ Hnext].
  apply (num_retries_le_max_retries 2 w'); [lia |].
  exact (Hnext _ _ _ target r w' Hkeeps Hrun).
Defined.

(** *** [_run_subtask_once]: what is held and what is released *)

Definition is_release (c : call) : bool :=
  match c with
  | release_free_slot _ _ | release_quotas _ => true
  | _ => false
  end.

Definition is_acquire (c : call) : bool :=
  match c with
  | acquire_free_slot _ => true
  | _ => false
  end.

(** A logged call that neither acquires nor releases. *)
Definition quiet (ev : call * bool) : Prop :=
  is_release ev.1 = false /\ is_acquire ev.1 = false.

(** Steps that leave the local [slot_id] and the count of attempts alone
    and log quiet calls only. *)
Definition calm : relation world :=
  fun w w' =>
    slot_id_local w' = slot_id_local w /\ attempts w' = attempts w /\
    logs quiet w w'.

Global Instance calm_preorder : PreOrder calm.
Proof.
  split.
  - intros w. repeat split. reflexivity.
  - intros w1 w2 w3 (S1 & A1 & L1) (S2 & A2 & L2).
    repeat split; [congruence | congruence | by etransitivity].
Qed.

Lemma calm_await {A} (c : call) (r : reply A) (w : world) :
  is_release c = false -> is_acquire c = false -> calm w (await c r w).2.
Proof.
  intros Hr Ha. repeat split. exists [(c, is_ok (answer r))].
  split; [done |]. by repeat constructor.
Qed.

Lemma calm_modify (f : world -> world) (w : world) :
  slot_id_local (f w) = slot_id_local w -> attempts (f w) = attempts w ->
  calls (f w) = calls w -> calm w (f w).
Proof.
  intros Hs Ha Hc. repeat split; [done | done |].
  exists []. by rewrite Hc, app_nil_r.
Qed.

Section RunSubtaskOnce.
Variable subtask : Subtask.
Variable band : string.
Variable address : string.
Variable req : list (quota_key * Z).
Variable e : run_env.

Lemma except_clauses_calm (ex : exn) :
  steps calm (except_clauses band address e ex).
Proof.
  unfold except_clauses, on_cancelled, on_os_or_mars_error.
  steps; intros w; by apply calm_await.
Qed.

(** The part of [run_in_slot] after the assignment of the local. *)
Lemma run_in_slot_calm (s : Z) (w : world) :
  let w' := (run_in_slot subtask band e s w).2 in
  slot_id_local w' = Some s /\ attempts w' = attempts w /\ logs quiet w w'.
Proof.
  unfold run_in_slot.
  change ((modify (set_slot_id_local (Some s)) ;; ?k) w)
    with (k (set_slot_id_local (Some s) w)).
  match goal with
  | |- context [(?k (set_slot_id_local (Some s) w)).2] =>
      assert (Hk : steps calm k)
  end.
  { steps; intros w0; first [by apply calm_modify | by apply calm_await]. }
  destruct (Hk (set_slot_id_local (Some s) w)) as (Hs & Ha & Hl).
  simpl. by rewrite Hs, Ha.
Qed.

Let key := subtask_key subtask.
Let quota_requested : call * bool := (request_batch_quota req, true).
Let slot_acquired : call * bool := (acquire_free_slot key, true).

(** The [try] block with its [except] clauses: it logs no release; when
    the slot was acquired, the log starts with the granted quota request
    and the acquisition, and the local [slot_id] holds the slot. *)
Definition acquired_in (w w1 : world) : Prop :=
  attempts w1 = attempts w /\
  exists evs,
    calls w1 = calls w ++ evs /\
    Forall (fun ev => is_release ev.1 = false) evs /\
    (slot_acquired ∈ evs ->
     exists s mid,
       answer (on_acquire_free_slot e) = Ok s /\
       slot_id_local w1 = Some s /\
       evs = quota_requested :: slot_acquired :: mid).

(** A handler run from a state without acquisition. *)
Lemma except_clauses_not_acquired (w w0 w1 : world) ex r pre :
  calls w0 = calls w ++ pre -> attempts w0 = attempts w ->
  Forall (fun ev => is_release ev.1 = false) pre ->
  slot_acquired ∉ pre ->
  except_clauses band address e ex w0 = (r, w1) ->
  acquired_in w w1.
Proof.
  intros Hpre Hatt Hrel Hnot Hrun.
  destruct (except_clauses_calm ex w0) as (_ & Ha & evs & Hevs & Hq).
  rewrite Hrun in Ha, Hevs. simpl in Ha, Hevs.
  split; [congruence |].
  exists (pre ++ evs). rewrite Hevs, Hpre, app_assoc. split; [done |]. split.
  - apply Forall_app. split; [done |].
    eapply Forall_impl; [exact Hq |]. by intros ev [? ?].
  - intros Hin. apply elem_of_app in Hin as [Hin | Hin]; [done |].
    exfalso. rewrite Forall_forall in Hq. by destruct (Hq _ Hin) as [_ ?].
Qed.

(** The [try] block with its [except] clauses: it logs no release; when
    the slot was acquired, the log starts with the granted quota request
    and the acquisition, and the local [slot_id] holds the slot. *)
Lemma try_block_acquires (w w1 : world) r :
  try_except (try_block subtask band req e) (except_clauses band address e) w
    = (r, w1) ->
  acquired_in w w1.
Proof.
  unfold try_except, try_block, bind. unfold await at 1.
  set (w_q := log_call _ _ _).
  assert (Hwq : calls w_q = calls w ++
                  [(request_batch_quota req, is_ok (answer (on_request_batch_quota e)))]
                /\ attempts w_q = attempts w) by done.
  destruct Hwq as [Hwq Haq]. clearbody w_q.
  destruct (answer (on_request_batch_quota e)) as [[] | exq] eqn:Hq.
  2:{ intros Hrun.
      eapply except_clauses_not_acquired; [exact Hwq | exact Haq | | | exact Hrun].
      - by repeat constructor.
      - intros Hin. apply list_elem_of_singleton in Hin. discriminate. }
  simpl in Hwq.
  unfold _check_cancelling at 1. unfold bind, gets.
  destruct (cancelling (subtask_info w_q)).
  { unfold raise. intros Hrun.
    eapply except_clauses_not_acquired; [exact Hwq | exact Haq | | | exact Hrun].
    - by repeat constructor.
    - intros Hin. apply list_elem_of_singleton in Hin. discriminate. }
  unfold ret. unfold await at 1.
  set (w_a := log_call _ _ _).
  assert (Hwa : calls w_a = calls w ++
                  [quota_requested;
                   (acquire_free_slot key, is_ok (answer (on_acquire_free_slot e)))]
                /\ attempts w_a = attempts w).
  { split; [| done]. subst w_a. simpl. rewrite Hwq. by rewrite <- app_assoc. }
  destruct Hwa as [Hwa Haa]. clearbody w_a.
  destruct (answer (on_acquire_free_slot e)) as [s | exa] eqn:Ha.
  2:{ intros Hrun.
      eapply except_clauses_not_acquired; [exact Hwa | exact Haa | | | exact Hrun].
      - by repeat constructor.
      - intros Hin. apply elem_of_cons in Hin as [Hin | Hin]; [discriminate |].
        apply list_elem_of_singleton in Hin. discriminate. }
  simpl in Hwa.
  destruct (run_in_slot_calm s w_a) as (Hs & Hatt & mid & Hmid & Hqm).
  destruct (run_in_slot subtask band e s w_a) as [[v | ex] w_r]; simpl in *.
  - intros Hrun. inversion Hrun; subst w1. split; [congruence |].
    exists ([quota_requested; slot_acquired] ++ mid).
    rewrite Hmid, Hwa, <- app_assoc. split; [done |]. split.
    + apply Forall_app. split; [by repeat constructor |].
      eapply Forall_impl; [exact Hqm |]. by intros ev [? ?].
    + intros _. by exists s, mid.
  - intros Hrun.
    destruct (except_clauses_calm ex w_r) as (Hs' & Ha' & evs & Hevs & Hq').
    rewrite Hrun in Hs', Ha', Hevs. simpl in Hs', Ha', Hevs.
    split; [congruence |].
    exists ([quota_requested; slot_acquired] ++ mid ++ evs).
    rewrite Hevs, Hmid, Hwa, <- !app_assoc. split; [done |]. split.
    + apply Forall_app. split; [by repeat constructor |].
      apply Forall_app. split.
      * eapply Forall_impl; [exact Hqm |]. by intros ev [? ?].
      * eapply Forall_impl; [exact Hq' |]. by intros ev [? ?].
    + intros _. exists s, (mid ++ evs). by rewrite Hs', Hs.
Qed.

(** The [finally] block, entered with the slot in the local. *)
Lemma release_with_slot (w w2 : world) (s : Z) r :
  slot_id_local w = Some s ->
  release_slot_and_quota subtask req e w = (r, w2) ->
  calls w2 = calls w ++
    (release_free_slot s key, is_ok (answer (on_release_free_slot e)))
    :: (if is_ok (answer (on_release_free_slot e))
        then [(release_quotas (map fst req), is_ok (answer (on_release_quotas e)))]
        else []).
Proof.
  intros Hs. unfold release_slot_and_quota, bind, gets, ret, await.
  simpl. repeat (rewrite Hs; simpl).
  destruct (answer (on_release_free_slot e)) as [[] | ex]; simpl.
  - destruct (answer (on_release_quotas e)); intros H; inversion H; simpl;
      by rewrite <- app_assoc.
  - intros H. by inversion H.
Qed.

(** The [finally] block acquires nothing and enters no run. *)
Lemma release_no_acquire :
  steps (logs (fun ev => is_acquire ev.1 = false))
        (release_slot_and_quota subtask req e).
Proof.
  unfold release_slot_and_quota.
  steps; intros w.
  all: first
    [ exists []; split; [by rewrite app_nil_r | constructor]
    | eexists [_]; split; [reflexivity | by repeat constructor] ].
Qed.

Lemma release_keeps_attempts :
  steps (keeps attempts) (release_slot_and_quota subtask req e).
Proof. unfold release_slot_and_quota. steps; by intros []. Qed.
End RunSubtaskOnce.

(** What [_run_subtask_once] does, in terms of its two parts. *)
Lemma run_subtask_once_unfold subtask band address req env w :
  _run_subtask_once subtask band address req env w =
  try_finally
    (try_except (try_block subtask band req (env (attempts w)))
                (except_clauses band address (env (attempts w))))
    (release_slot_and_quota subtask req (env (attempts w)))
    (enter_run_subtask_once w).
Proof. reflexivity. Qed.

(** Each call of [_run_subtask_once] counts as one attempt. *)
Lemma run_subtask_once_attempts subtask band address req env w :
  attempts (_run_subtask_once subtask band address req env w).2 = S (attempts w).
Proof.
  rewrite run_subtask_once_unfold. unfold try_finally.
  set (e := env (attempts w)).
  destruct (try_except _ _ _) as [r1 w1] eqn:Htry.
  apply try_block_acquires in Htry as [Ha _].
  pose proof (release_keeps_attempts subtask req e w1) as Hk. unfold keeps in Hk.
  destruct (release_slot_and_quota subtask req e w1) as [[[] | ex] w2];
    simpl in *; by rewrite Hk, Ha.
Qed.

(** What the [finally] block releases.  On every exit of
    [_run_subtask_once] (normal return, error or cancellation) on which the
    call of [acquire_free_slot] returned, the calls it made are: the granted
    quota request, the acquisition of the slot, calls that release nothing,
    then [release_free_slot] for that slot and, when that call returned,
    [release_quotas] for the requested keys as the last call: the slot is
    released before the quota, in the reverse of the order of
    acquisition. *)
Lemma run_subtask_once_releases subtask band address req env w r w' evs :
  _run_subtask_once subtask band address req env w = (r, w') ->
  calls w' = calls w ++ evs ->
  (acquire_free_slot (subtask_key subtask), true) ∈ evs ->
  let e := env (attempts w) in
  let slot_released := is_ok (answer (on_release_free_slot e)) in
  exists s mid,
    answer (on_acquire_free_slot e) = Ok s /\
    Forall (fun ev => is_release ev.1 = false) mid /\
    evs = (request_batch_quota req, true)
          :: (acquire_free_slot (subtask_key subtask), true)
          :: mid
          ++ (release_free_slot s (subtask_key subtask), slot_released)
          :: (if slot_released
              then [(release_quotas (map fst req),
                     is_ok (answer (on_release_quotas e)))]
              else []).
Proof.
  rewrite run_subtask_once_unfold. intros Hrun Hevs Hin e slot_released.
  fold e in Hrun. unfold try_finally in Hrun.
  destruct (try_except _ _ _) as [r1 w1] eqn:Htry.
  apply try_block_acquires in Htry as (_ & evs1 & Hevs1 & Hrel & Hacq).
  simpl in Hevs1.
  destruct (release_no_acquire subtask req e w1) as (evs2 & Hevs2 & Hno).
  assert (Hfin : exists r2 w2, release_slot_and_quota subtask req e w1 = (r2, w2)
                               /\ w' = w2).
  { destruct (release_slot_and_quota subtask req e w1) as [[[] | ex] w2];
      inversion Hrun; eauto. }
  destruct Hfin as (r2 & w2 & Hfin & ->). rewrite Hfin in Hevs2. simpl in Hevs2.
  assert (evs = evs1 ++ evs2) as ->.
  { apply (app_inv_head (calls w)). by rewrite <- Hevs, Hevs2, Hevs1, app_assoc. }
  apply elem_of_app in Hin as [Hin | Hin].
  2:{ exfalso. rewrite Forall_forall in Hno. by specialize (Hno _ Hin). }
  destruct (Hacq Hin) as (s & mid & Hs & Hslot & ->).
  exists s, mid. split; [done |]. split.
  { by inversion Hrel as [| ? ? _ Hrel']; inversion Hrel'. }
  pose proof (release_with_slot subtask req e w1 w2 s r2 Hslot Hfin) as Hcalls.
  rewrite Hevs2 in Hcalls. apply app_inv_head in Hcalls. by rewrite Hcalls.
Qed.

(** Scenario 1: quota, slot 7, the run, then slot 7 and the quota
    released. *)
Lemma run_subtask_once_releases_scenario :
  let w := Scenarios.world_with 0 in
  let w' := (Scenarios.run_once false (fun _ => Scenarios.happy) w).2 in
  (acquire_free_slot ("sess", "S"), true) ∈ calls w' /\
  exists mid,
    calls w' = (request_batch_quota Scenarios.quota_req, true)
               :: (acquire_free_slot ("sess", "S"), true)
               :: mid
               ++ [(release_free_slot 7 ("sess", "S"), true);
                   (release_quotas [("sess", "S")], true)].
Proof.
  intros w w'.
  assert (Hin : (acquire_free_slot ("sess", "S"), true) ∈ calls w').
  { vm_compute. apply list_elem_of_further, list_elem_of_here. }
  split; [exact Hin |].
  destruct (run_subtask_once_releases (Scenarios.subtask_S false) "numa-0" "worker"
              Scenarios.quota_req (fun _ => Scenarios.happy) w
              (Scenarios.run_once false (fun _ => Scenarios.happy) w).1 w' (calls w'))
    as (s & mid & Hs & _ & Hevs).
  - by vm_compute.
  - reflexivity.
  - exact Hin.
  - exists mid. simpl in Hs. inversion Hs; subst s. exact Hevs.
Qed.

(** The claim C1 as it is worded: the slot is released, then the quota. *)
Definition releases_slot_then_quota (k : quota_key) (keys : list quota_key)
    (evs : list (call * bool)) : Prop :=
  exists s pre mid post,
    evs = pre ++ (release_free_slot s k, true) :: mid
              ++ (release_quotas keys, true) :: post.

(** C1.  The subtask S with its quota granted, the slot 7 acquired and the
    run returned, when the task is cancelled while the [finally] block
    waits for [release_free_slot]: [_run_subtask_once] exits by the
    cancellation after four calls, of which the last is the release of the
    slot, which did not return; [release_quotas] is never called, so the
    quota that was granted stays held.  The [finally] block awaits its two
    releases one after the other, with nothing that guards the second
    against an exception of the first. *)
Theorem run_subtask_once_quota_not_released :
  let run := Scenarios.run_once false (fun _ => Scenarios.cancelled_in_release)
               (Scenarios.world_with 0) in
  run.1 = Raise Scenarios.task_cancelled /\
  calls run.2 =
    [(request_batch_quota Scenarios.quota_req, true);
     (acquire_free_slot ("sess", "S"), true);
     (run_subtask_in_slot "numa-0" 7 "S", true);
     (release_free_slot 7 ("sess", "S"), false)] /\
  (forall keys ok, (release_quotas keys, ok) ∉ calls run.2) /\
  ~ releases_slot_then_quota ("sess", "S") [("sess", "S")] (calls run.2).
Proof.
  intros run.
  assert (Hcalls : calls run.2 =
    [(request_batch_quota Scenarios.quota_req, true);
     (acquire_free_slot ("sess", "S"), true);
     (run_subtask_in_slot "numa-0" 7 "S", true);
     (release_free_slot 7 ("sess", "S"), false)]) by (by vm_compute).
  assert (Hnone : forall keys ok, (release_quotas keys, ok) ∉ calls run.2).
  { intros keys ok Hin. rewrite Hcalls in Hin.
    repeat (apply elem_of_cons in Hin as [Hin | Hin]; [discriminate |]).
    by apply elem_of_nil in Hin. }
  split; [by vm_compute |]. split; [exact Hcalls |]. split; [exact Hnone |].
  intros (s & pre & mid & post & Hevs).
  apply (Hnone [("sess", "S")] true). rewrite Hevs. set_solver.
Qed.

(** *** [_retry_run_subtask] on a subtask that is not retryable *)

Lemma unretryable_op_spec (subtask : Subtask) (o : Operand) :
  o ∈ unretryable_op subtask <->
  exists c, c ∈ chunks (chunk_graph subtask) /\ op c = o /\
            retryable_attr o = Some false.
Proof.
  unfold unretryable_op. rewrite list_elem_of_fmap. split.
  - intros (c & -> & Hc). apply list_elem_of_filter in Hc as [Hattr Hc].
    exists c. repeat split; [done |].
    unfold getattr_retryable in Hattr.
    by destruct (retryable_attr (op c)) as [[] |].
  - intros (c & Hc & <- & Hattr). exists c. split; [done |].
    apply list_elem_of_filter. split; [| done].
    unfold getattr_retryable. by rewrite Hattr.
Qed.

(** The statements of [_retry_run_subtask] before its first run enter no
    run, leave the counters alone, and return exactly when the two look-ups
    return, the table holds the subtask and the two assertions hold. *)
Lemma get_refs_and_info_keeps_attempts subtask band refs :
  steps (keeps attempts) (get_refs_and_info subtask band refs).
Proof. unfold get_refs_and_info. steps; by intros []. Qed.

Lemma get_refs_and_info_keeps_counters subtask band refs :
  steps (keeps counters) (get_refs_and_info subtask band refs).
Proof. unfold get_refs_and_info. steps; by intros []. Qed.

Definition refs_and_info_found (refs : refs_env) (w : world) : Prop :=
  answer (on_quota_ref refs) = Ok tt /\
  answer (on_slot_manager_ref refs) = Ok tt /\
  table_holds_subtask refs = true /\
  0 <= num_retries (subtask_info w) /\
  0 <= max_retries (subtask_info w).

Lemma get_refs_and_info_returns subtask band refs w :
  is_ok (get_refs_and_info subtask band refs w).1 = true <->
  refs_and_info_found refs w.
Proof.
  unfold get_refs_and_info, refs_and_info_found, bind, await, gets, ret, raise.
  simpl.
  destruct (answer (on_quota_ref refs)) as [[] | e1];
    [| simpl; split; [done | by intros [? _]]].
  destruct (answer (on_slot_manager_ref refs)) as [[] | e2];
    [| simpl; split; [done | by intros (_ & ? & _)]].
  destruct (table_holds_subtask refs);
    [| simpl; split; [done | by intros (_ & _ & ? & _)]].
  simpl.
  destruct (Z.leb_spec 0 (num_retries (subtask_info w))); simpl;
    [| split; [done | intros (_ & _ & _ & ? & _); lia]].
  destruct (Z.leb_spec 0 (max_retries (subtask_info w))); simpl;
    [| split; [done | intros (_ & _ & _ & _ & ?); lia]].
  by split.
Qed.

(** C6, as the code has it.  For a subtask with [retryable = false],
    [_run_subtask_once] is attempted at most once.  When one of the two
    look-ups of actor references raises, the table does not hold the
    subtask or an assertion on the counters fails, it is not attempted, and
    that exception leaves [_retry_run_subtask] as it is.  Otherwise it is
    attempted exactly once; its result is returned; an exception that is an
    instance of [Exception] is raised wrapped as [_UnretryableException],
    with the message built from the list of the operands of the chunk graph
    whose [retryable] attribute is false; an exception that is not an
    instance of [Exception], as a cancellation, is raised as it is. *)
Theorem retry_run_subtask_unretryable subtask band address req env refs w :
  retryable subtask = false ->
  (is_ok (get_refs_and_info subtask band refs w).1 = true <->
   refs_and_info_found refs w) /\
  match get_refs_and_info subtask band refs w with
  | (Raise e, w0) =>
      _retry_run_subtask subtask band address req env refs w = Some (Raise e, w0) /\
      attempts w0 = attempts w
  | (Ok _, w0) =>
      exists r w',
        _run_subtask_once subtask band address req env w0 = (r, w') /\
        attempts w' = S (attempts w) /\
        _retry_run_subtask subtask band address req env refs w =
          Some (match r with
                | Ok v => Ok v
                | Raise e =>
                    if isinstance e Exception
                    then Raise (wrap_exception e "_UnretryableException"
                                  (unretryable_message subtask e))
                    else Raise e
                end, w')
  end /\
  (forall e, exists prefix,
      unretryable_message subtask e = prefix +:+ pformat (unretryable_op subtask)) /\
  (forall o, o ∈ unretryable_op subtask <->
             exists c, c ∈ chunks (chunk_graph subtask) /\ op c = o /\
                       retryable_attr o = Some false).
Proof.
  intros Hretry. split; [apply get_refs_and_info_returns |].
  split; [| split].
  - pose proof (get_refs_and_info_keeps_attempts subtask band refs w) as Hk.
    unfold keeps in Hk. unfold _retry_run_subtask.
    destruct (get_refs_and_info subtask band refs w) as [[[] | e] w0];
      simpl in Hk; [| by split].
    unfold retry_or_run_once. rewrite Hretry.
    pose proof (run_subtask_once_attempts subtask band address req env w0) as Hatt.
    destruct (_run_subtask_once subtask band address req env w0) as [r w'] eqn:Hrun.
    exists r, w'. split; [done |]. split; [simpl in Hatt; congruence |].
    destruct r as [v | e]; [done |]. by destruct (isinstance e Exception).
  - intros e. unfold unretryable_message. eexists.
    rewrite <- !string_app_assoc. reflexivity.
  - apply unretryable_op_spec.
Qed.

(** Scenario 4: the only attempt raises [OSError]; the error comes back
    wrapped as [_UnretryableException], after one attempt. *)
Lemma retry_run_subtask_unretryable_witness :
  let w := Scenarios.world_with 0 in
  let S := Scenarios.subtask_S false in
  retryable S = false /\
  exists w',
    _retry_run_subtask S "numa-0" "worker" Scenarios.quota_req
      (fun _ => Scenarios.run_fails) Scenarios.refs_found w
    = Some (Raise (wrap_exception Scenarios.conn_reset "_UnretryableException"
                     (unretryable_message S Scenarios.conn_reset)), w') /\
    attempts w' = 1%nat.
Proof.
  intros w S.
  assert (Hretry : retryable S = false) by reflexivity.
  split; [exact Hretry |].
  assert (Hrefs : get_refs_and_info S "numa-0" Scenarios.refs_found w
                  = (Ok tt, (get_refs_and_info S "numa-0" Scenarios.refs_found w).2))
    by (by vm_compute).
  destruct (retry_run_subtask_unretryable S "numa-0" "worker" Scenarios.quota_req
              (fun _ => Scenarios.run_fails) Scenarios.refs_found w Hretry)
    as (_ & Hrun & _).
  rewrite Hrefs in Hrun. destruct Hrun as (r & w' & Hrun & Hatt & Hres).
  exists w'. split; [| exact Hatt].
  rewrite Hres. vm_compute in Hrun. inversion Hrun. reflexivity.
Defined.

(** The look-up of the slot manager fails: no attempt is made, and the
    error leaves [_retry_run_subtask] as it is, after the two look-ups. *)
Lemma retry_run_subtask_lookup_fails :
  exists w',
    _retry_run_subtask (Scenarios.subtask_S false) "numa-0" "worker"
      Scenarios.quota_req (fun _ => Scenarios.happy)
      Scenarios.slot_manager_not_found (Scenarios.world_with 0)
    = Some (Raise Scenarios.actor_lost, w') /\
    attempts w' = 0%nat /\
    calls w' = [(_get_band_quota_ref "numa-0", true);
                (_get_slot_manager_ref "numa-0", false)].
Proof. eexists. split; [by vm_compute |]. by split. Qed.

(** The claim C6 as it is worded: whatever exception the single attempt
    raises comes back wrapped as [_UnretryableException]. *)
Definition wraps_every_exception subtask band address req env refs (w : world)
    : Prop :=
  forall w0 e w1,
    get_refs_and_info subtask band refs w = (Ok tt, w0) ->
    _run_subtask_once subtask band address req env w0 = (Raise e, w1) ->
    exists msg,
      _retry_run_subtask subtask band address req env refs w
      = Some (Raise (wrap_exception e "_UnretryableException" msg), w1).

(** A cancellation that reaches the task while it waits for its quota
    leaves [_retry_run_subtask] as it is, not wrapped. *)
Lemma retry_run_subtask_cancellation_not_wrapped :
  ~ wraps_every_exception (Scenarios.subtask_S false) "numa-0" "worker"
      Scenarios.quota_req (fun _ => Scenarios.cancelled_in_quota)
      Scenarios.refs_found (Scenarios.world_with 0).
Proof.
  intros H.
  set (w0 := (get_refs_and_info (Scenarios.subtask_S false) "numa-0"
                Scenarios.refs_found (Scenarios.world_with 0)).2).
  destruct (H w0 Scenarios.task_cancelled
              (Scenarios.run_once false (fun _ => Scenarios.cancelled_in_quota)
                 w0).2) as [msg Hmsg].
  - by vm_compute.
  - by vm_compute.
  - vm_compute in Hmsg. discriminate.
Qed.

End ExecutionFacts.

(** ** The memory estimator *)

Module EstimatorFacts.
Import Estimator.

(** *** Sums over a size context *)

Lemma sum_values_insert (proj : Z * Z -> Z) (ctx : size_ctx) (k : string) (v : Z * Z) :
  ctx !! k = None ->
  sum_values proj (<[k := v]> ctx) = proj v + sum_values proj ctx.
Proof.
  intros Hk. unfold sum_values.
  apply (map_fold_insert_L (fun _ (v : Z * Z) acc => proj v + acc)); [| done].
  intros; lia.
Qed.

Lemma sum_values_empty (proj : Z * Z -> Z) : sum_values proj (∅ : size_ctx) = 0.
Proof. apply map_fold_empty. Qed.

Lemma sum_values_double (input_sizes : size_ctx) :
  sum_values snd (double_memory_cost input_sizes) = 2 * sum_values snd input_sizes.
Proof.
  unfold double_memory_cost.
  induction input_sizes as [| k v m Hk IH] using map_ind.
  - by rewrite fmap_empty, sum_values_empty.
  - rewrite fmap_insert, !sum_values_insert, IH; [simpl; lia | done |].
    by rewrite lookup_fmap, Hk.
Qed.

Lemma sum_values_fst_double (ctx : size_ctx) :
  sum_values fst (double_memory_cost ctx) = sum_values fst ctx.
Proof.
  unfold double_memory_cost.
  induction ctx as [| k v m Hk IH] using map_ind.
  - by rewrite fmap_empty.
  - rewrite fmap_insert, !sum_values_insert, IH; [done | done |].
    by rewrite lookup_fmap, Hk.
Qed.

Lemma sum_values_nonneg (input_sizes : size_ctx) :
  map_Forall (fun _ v => 0 <= v.2) input_sizes ->
  0 <= sum_values snd input_sizes.
Proof.
  induction input_sizes as [| k v m Hk IH] using map_ind; intros Hall.
  - by rewrite sum_values_empty.
  - rewrite sum_values_insert by done.
    apply map_Forall_insert in Hall as [Hv Hm]; [| done].
    specialize (IH Hm). lia.
Qed.

(** *** One turn of the loop *)

(** What a turn that ends normally did to the stack, to the counters of
    predecessors and to the running peak. *)
Lemma loop_body_inv subtask g key stack s s' :
  loop_body subtask g key stack s = Ok s' ->
  walk_successors (iter_successors g key) stack (pred_ref_count s)
    = Ok (key_stack s', pred_ref_count s') /\
  max_memory_cost s <= max_memory_cost s'.
Proof.
  unfold loop_body, rbind. intros H.
  repeat case_match; simplify_eq; simpl; split; try done; lia.
Qed.

(** *** The loop ends within the fuel it is given *)

Lemma pending_refs_insert (prc : gmap string Z) (k : string) (c v : Z) :
  prc !! k = Some c ->
  (pending_refs (<[k := v]> prc) + Z.to_nat c = pending_refs prc + Z.to_nat v)%nat.
Proof.
  intros Hk. unfold pending_refs.
  assert (Hfold : forall (m : gmap string Z) x,
            m !! k = None ->
            map_fold (fun _ v acc => (Z.to_nat v + acc)%nat) 0%nat (<[k := x]> m)
            = (Z.to_nat x + map_fold (fun _ v acc => (Z.to_nat v + acc)%nat) 0%nat m)%nat).
  { intros m x Hm.
    apply (map_fold_insert_L (fun _ (v : Z) acc => (Z.to_nat v + acc)%nat)); [| done].
    intros; lia. }
  rewrite <- (insert_delete_id prc k c Hk) at 2.
  rewrite <- (insert_delete_eq prc k v).
  rewrite !Hfold by apply lookup_delete_eq. lia.
Qed.

Lemma walk_successors_turns succs stack prc stack' prc' :
  walk_successors succs stack prc = Ok (stack', prc') ->
  (length stack' + pending_refs prc' <= length stack + pending_refs prc)%nat.
Proof.
  revert stack prc. induction succs as [| k succs IH]; intros stack prc; simpl.
  - intros H. by inversion H.
  - unfold rbind, getitem. destruct (prc !! k) as [c |] eqn:Hk; [| done].
    pose proof (pending_refs_insert prc k c (c - 1) Hk) as Hp.
    case_bool_decide as Hc; intros H; apply IH in H; simpl in H; lia.
Qed.

Lemma while_key_stack_returns (fuel : nat) subtask g (s : vars) :
  (turns_left s <= fuel)%nat ->
  exists r, while_key_stack fuel subtask g s = Some r.
Proof.
  revert s. induction fuel as [| fuel IH]; intros s Hfuel.
  - unfold turns_left in Hfuel. destruct s as [[| k st] ? ? ? ? ? ?]; simpl in *.
    + eauto.
    + lia.
  - simpl. destruct (key_stack s) as [| key stack] eqn:Hstack; [eauto |].
    destruct (loop_body subtask g key stack s) as [s' | e] eqn:Hbody; [| eauto].
    apply IH. apply loop_body_inv in Hbody as [Hwalk _].
    apply walk_successors_turns in Hwalk.
    unfold turns_left in *. rewrite Hstack in Hfuel. simpl in Hfuel. lia.
Qed.

(** [_estimate_sizes] always ends: it returns its pair or raises. *)
Lemma estimate_sizes_returns subtask input_sizes :
  exists r, _estimate_sizes subtask input_sizes = Some r.
Proof.
  unfold _estimate_sizes.
  destruct (while_key_stack_returns
              (turns_left (initial_vars subtask input_sizes)) subtask
              (op_key_graph subtask) (initial_vars subtask input_sizes))
    as [[s | e] Hr]; [done | |]; rewrite Hr; eauto.
Qed.

(** *** The running peak never goes down *)

Lemma while_key_stack_peak (fuel : nat) subtask g (s s' : vars) :
  while_key_stack fuel subtask g s = Some (Ok s') ->
  max_memory_cost s <= max_memory_cost s'.
Proof.
  revert s. induction fuel as [| fuel IH]; intros s; simpl.
  - destruct (key_stack s); [| done]. intros H. inversion H. lia.
  - destruct (key_stack s) as [| key stack]; [intros H; inversion H; lia |].
    destruct (loop_body subtask g key stack s) as [s1 | e] eqn:Hbody; [| done].
    intros H. apply IH in H. apply loop_body_inv in Hbody as [_ Hmax]. lia.
Qed.

(** The peak that is returned is at least the value it started from. *)
Lemma estimate_sizes_peak_from_start subtask (input_sizes : size_ctx)
    (store_size peak : Z) :
  _estimate_sizes subtask input_sizes = Some (Ok (store_size, peak)) ->
  sum_values snd input_sizes <= peak.
Proof.
  unfold _estimate_sizes. intros H.
  destruct (while_key_stack _ _ _ _) as [[s | e] |] eqn:Hloop; simplify_eq.
  by apply while_key_stack_peak in Hloop.
Qed.



(** *** Doubling the memory cost of the inputs *)

Definition dbl (v : Z * Z) : Z * Z := (v.1, 2 * v.2).

Definition rmap {A B} (f : A -> B) (r : res A) : res B :=
  match r with
  | Ok a => Ok (f a)
  | Raise e => Raise e
  end.

(** The variables of the loop, with every memory cost doubled. *)
Definition dbl_vars (s : vars) : vars :=
  {| key_stack := key_stack s;
     pred_ref_count := pred_ref_count s;
     succ_ref_count := succ_ref_count s;
     chunk_key_to_sizes := chunk_key_to_sizes s;
     size_context := dbl <$> size_context s;
     total_memory_cost := 2 * total_memory_cost s;
     max_memory_cost := 2 * max_memory_cost s |}.

Lemma getitem_double (ctx : size_ctx) (k : string) :
  getitem (dbl <$> ctx) k = rmap dbl (getitem ctx k).
Proof. unfold getitem. rewrite lookup_fmap. by destruct (ctx !! k). Qed.

Lemma sum_output_sizes_double (ctx : size_ctx) (outs : list string) :
  sum_output_sizes snd (dbl <$> ctx) outs
  = rmap (Z.mul 2) (sum_output_sizes snd ctx outs).
Proof.
  induction outs as [| out outs IH]; simpl; [done |].
  rewrite getitem_double, IH.
  destruct (getitem ctx out) as [v |]; simpl; [| done].
  destruct (sum_output_sizes snd ctx outs); simpl; [| done].
  f_equal. lia.
Qed.

Lemma pop_results_double cks (outs : list string) (ctx : size_ctx) (acc : Z) :
  pop_results snd cks outs (dbl <$> ctx) (2 * acc)
  = ((2 * (pop_results snd cks outs ctx acc).1)%Z,
     dbl <$> (pop_results snd cks outs ctx acc).2).
Proof.
  revert ctx acc. induction outs as [| out outs IH]; intros ctx acc; simpl; [done |].
  rewrite lookup_fmap.
  assert (Hsize : (default (0, 0) (dbl <$> ctx !! out)).2
                  = 2 * (default (0, 0) (ctx !! out)).2).
  { by destruct (ctx !! out). }
  rewrite Hsize, <- Z.mul_add_distr_l.
  case_bool_decide.
  - by rewrite <- fmap_delete, IH.
  - by rewrite IH.
Qed.

Section FetchOnly.
Variable subtask : Subtask.
Hypothesis Hfetch :
  forall c, c ∈ chunks (chunk_graph subtask) -> kind (op c) = Fetch.

Lemma key_to_op_fetch (k : string) (o : Operand) :
  key_to_op subtask k = Ok o -> is_Fetch o = true.
Proof.
  unfold key_to_op. destruct (List.find _ _) as [n |] eqn:Hfind; [| done].
  intros H. inversion H; subst o.
  apply List.find_some in Hfind as [Hin _]. apply list_elem_of_In in Hin.
  unfold is_Fetch. apply bool_decide_eq_true. by apply Hfetch.
Qed.

Lemma walk_predecessors_double preds src cks (ctx : size_ctx) (total : Z) :
  walk_predecessors subtask preds src cks (dbl <$> ctx) (2 * total)
  = rmap (fun r : gmap string Z * gmap string Z * size_ctx * Z =>
            (r.1.1.1, r.1.1.2, dbl <$> r.1.2, 2 * r.2))
         (walk_predecessors subtask preds src cks ctx total).
Proof.
  revert src cks ctx total.
  induction preds as [| k preds IH]; intros src cks ctx total; simpl; [done |].
  unfold rbind. destruct (getitem src k) as [c |]; [| done].
  case_bool_decide; [| apply IH].
  destruct (key_to_op subtask k) as [pred_op |] eqn:Hop; [| done].
  rewrite (key_to_op_fetch _ _ Hop).
  pose proof (pop_results_double (drop_chunk_refs (outputs pred_op) cks)
                (outputs pred_op) ctx 0) as Hpop.
  rewrite Z.mul_0_r in Hpop. rewrite Hpop.
  destruct (pop_results snd _ _ ctx 0) as [cost ctx']. simpl.
  rewrite <- Z.mul_sub_distr_l. apply IH.
Qed.

Lemma loop_body_double g key stack (s : vars) :
  loop_body subtask g key stack (dbl_vars s)
  = rmap dbl_vars (loop_body subtask g key stack s).
Proof.
  unfold loop_body, rbind.
  destruct (key_to_op subtask key) as [o |] eqn:Hop; [| done].
  rewrite (key_to_op_fetch _ _ Hop). simpl.
  rewrite sum_output_sizes_double.
  destruct (sum_output_sizes snd (size_context s) (outputs o)) as [calc |];
    simpl; [| done].
  destruct (walk_successors _ _ _) as [[stack' prc] |]; [| done].
  rewrite <- Z.mul_add_distr_l, walk_predecessors_double.
  destruct (walk_predecessors _ _ _ _ _ _) as [[[[src cks] ctx'] total'] |];
    simpl; [| done].
  unfold dbl_vars. simpl. f_equal. f_equal. lia.
Qed.

Lemma while_key_stack_double (fuel : nat) g (s : vars) :
  while_key_stack fuel subtask g (dbl_vars s)
  = rmap dbl_vars <$> while_key_stack fuel subtask g s.
Proof.
  revert s. induction fuel as [| fuel IH]; intros s; simpl.
  - by destruct (key_stack s).
  - destruct (key_stack s) as [| key stack]; [done |].
    rewrite loop_body_double.
    destruct (loop_body subtask g key stack s) as [s' |]; simpl; [apply IH | done].
Qed.

Lemma initial_vars_double (input_sizes : size_ctx) :
  initial_vars subtask (double_memory_cost input_sizes)
  = dbl_vars (initial_vars subtask input_sizes).
Proof.
  unfold initial_vars, dbl_vars. simpl. f_equal. apply sum_values_double.
Qed.

(** On a graph that only fetches, doubling the memory cost of the inputs
    doubles the peak and keeps the store size. *)
Lemma estimate_sizes_double_fetch_only (input_sizes : size_ctx) :
  _estimate_sizes subtask (double_memory_cost input_sizes)
  = rmap (fun r : Z * Z => (r.1, 2 * r.2)) <$> _estimate_sizes subtask input_sizes.
Proof.
  unfold _estimate_sizes. rewrite initial_vars_double.
  change (turns_left (dbl_vars ?s)) with (turns_left s).
  rewrite while_key_stack_double.
  destruct (while_key_stack _ _ _ _) as [[s |] |]; simpl; [| done | done].
  do 3 f_equal. apply (sum_values_fst_double (size_context s)).
Qed.
End FetchOnly.

(** C7, as the code has it.  When all memory costs of [input_sizes] are
    doubled and the graph is unchanged, the peak that [_estimate_sizes]
    returns is at least twice the sum of the original memory costs, the
    value the running peak started from; and on a chunk graph all of whose
    operands are [Fetch] it is exactly twice the original peak.  (The sizes
    that the other operands add come from their [estimate_size], which need
    not follow the memory cost of the inputs.) *)
Theorem estimate_sizes_doubled_inputs subtask (input_sizes : size_ctx)
    (store_size peak store_size' peak' : Z) :
  _estimate_sizes subtask input_sizes = Some (Ok (store_size, peak)) ->
  _estimate_sizes subtask (double_memory_cost input_sizes)
    = Some (Ok (store_size', peak')) ->
  2 * sum_values snd input_sizes <= peak' /\
  ((forall c, c ∈ chunks (chunk_graph subtask) -> kind (op c) = Fetch) ->
   peak' = 2 * peak /\ store_size' = store_size).
Proof.
  intros H H'. split.
  - apply estimate_sizes_peak_from_start in H'.
    by rewrite sum_values_double in H'.
  - intros Hfetch.
    rewrite (estimate_sizes_double_fetch_only subtask Hfetch), H in H'.
    simpl in H'. by inversion H'.
Qed.

(** The subtask that only fetches A: the peak goes from 200 to 400. *)
Lemma estimate_sizes_doubled_inputs_witness :
  _estimate_sizes Scenarios.subtask_fetch_only Scenarios.sizes_A
    = Some (Ok (100, 200)) /\
  _estimate_sizes Scenarios.subtask_fetch_only (double_memory_cost Scenarios.sizes_A)
    = Some (Ok (100, 400)) /\
  2 * sum_values snd Scenarios.sizes_A <= 400 /\ 400 = 2 * 200.
Proof.
  assert (H : _estimate_sizes Scenarios.subtask_fetch_only Scenarios.sizes_A
              = Some (Ok (100, 200))) by (by vm_compute).
  assert (H' : _estimate_sizes Scenarios.subtask_fetch_only
                 (double_memory_cost Scenarios.sizes_A)
               = Some (Ok (100, 400))) by (by vm_compute).
  split; [exact H |]. split; [exact H' |].
  destruct (estimate_sizes_doubled_inputs _ _ _ _ _ _ H H') as [Hsum Hfetch].
  split; [exact Hsum |]. apply Hfetch.
  intros c Hc. apply list_elem_of_singleton in Hc. by subst c.
Defined.

(** The claim C7 as it is worded. *)
Definition doubling_at_least_doubles_peak subtask (input_sizes : size_ctx) : Prop :=
  forall store_size peak store_size' peak',
    _estimate_sizes subtask input_sizes = Some (Ok (store_size, peak)) ->
    _estimate_sizes subtask (double_memory_cost input_sizes)
      = Some (Ok (store_size', peak')) ->
    2 * peak <= peak'.

(** Scenario 1, A -> B with input sizes (100, 200) for A: the peak is 300,
    and 500 once the memory cost of A is doubled, which is less than 600. *)
Lemma doubling_does_not_double_peak :
  ~ doubling_at_least_doubles_peak (Scenarios.subtask_S true) Scenarios.sizes_A.
Proof.
  intros H. specialize (H 100 300 100 500). 
  assert (2 * 300 <= 500); [| lia].
  apply H; by vm_compute.
Qed.

End EstimatorFacts.

(** ** The processor *)

Module ProcessorFacts.
Import Processor MonadFacts.

(** *** [_store_meta] *)

Section StoreMeta.
Variable data_key_to_store_size data_key_to_memory_size : dict Z.
Variable data_key_to_object_id : dict string.
Variable update_meta_chunks : list string.

Abbreviation loop := (store_meta_loop data_key_to_store_size data_key_to_memory_size
                    data_key_to_object_id update_meta_chunks).
Abbreviation step := (store_meta_step data_key_to_store_size data_key_to_memory_size
                    data_key_to_object_id update_meta_chunks).



End StoreMeta.





(** *** [run] and [_unpin_data] *)

Abbreviation invocations p := (unpin_data_invocations (pcalls p)).

(** Steps that leave the two locals of [run] alone and do not enter
    [_unpin_data]. *)
Definition quiet : relation processor :=
  fun p p' =>
    input_keys p' = input_keys p /\ unpinned p' = unpinned p /\
    invocations p' = invocations p.

Global Instance quiet_preorder : PreOrder quiet.
Proof.
  split; [by intros p |].
  intros p1 p2 p3 (I1 & U1 & L1) (I2 & U2 & L2). repeat split; congruence.
Qed.

Definition enters_unpin_data (c : pcall) : bool :=
  match c with unpin_data_entered _ => true | _ => false end.

Lemma invocations_log (c : pcall) (ok : bool) (log : list (pcall * bool)) :
  unpin_data_invocations (log ++ [(c, ok)])
  = unpin_data_invocations log
      ++ match c with unpin_data_entered keys => [keys] | _ => [] end.
Proof.
  unfold unpin_data_invocations. rewrite omap_app. by destruct c.
Qed.

Lemma quiet_pawait {A} (c : pcall) (r : res A) :
  enters_unpin_data c = false -> steps quiet (pawait c r).
Proof.
  intros Hc p. repeat split. simpl. rewrite invocations_log.
  destruct c; try done; by rewrite app_nil_r.
Qed.

Lemma quiet_lift {A} (r : res A) : steps quiet (lift r).
Proof. by intros p. Qed.

Lemma quiet_set_result (f : SubtaskResult -> SubtaskResult) :
  steps quiet (modify (set_result f)).
Proof. by intros p. Qed.

Ltac quiet_steps :=
  repeat lazymatch goal with
    | |- steps ?R (ret _) => apply (steps_ret R)
    | |- steps ?R (raise _) => apply (steps_raise R)
    | |- steps ?R (gets _) => apply (steps_gets R)
    | |- steps ?R (bind _ _) => apply (steps_bind R); [| intros ?]
    | |- steps ?R (try_finally _ _) => apply (steps_try_finally R)
    | |- steps ?R (try_except _ _) => apply (steps_try_except R); [| intros ?]
    | |- steps quiet (modify (set_result _)) => apply quiet_set_result
    | |- steps quiet (lift _) => apply quiet_lift
    | |- steps quiet (pawait _ _) => by apply quiet_pawait
    | |- steps _ (if ?b then _ else _) => destruct b
    | |- steps _ (match ?x with _ => _ end) => destruct x
    end.

Lemma done_quiet : steps quiet done.
Proof. unfold done. quiet_steps. Qed.

Lemma run_except_quiet (ex : exn) : steps quiet (run_except ex).
Proof. unfold run_except, done. quiet_steps. Qed.

Lemma load_input_data_quiet (e : proc_env) : steps quiet (_load_input_data e).
Proof. unfold _load_input_data. quiet_steps. Qed.

Lemma load_input_data_keys (e : proc_env) (p p' : processor) keys :
  _load_input_data e p = (Ok keys, p') -> keys = map fst (input_data_keys e).
Proof.
  unfold _load_input_data, bind, ret, pawait.
  destruct (map fst (input_data_keys e)) as [| k ks].
  - intros H. by inversion H.
  - destruct (on_storage_get_batch e); intros H; by inversion H.
Qed.

Lemma store_meta_quiet (e : proc_env) g store_sizes memory_sizes object_ids upd :
  steps quiet (_store_meta e g store_sizes memory_sizes object_ids upd).
Proof. unfold _store_meta. quiet_steps. Qed.

(** Every call of [_unpin_data] enters it once, whatever its batches do. *)
Lemma unpin_data_marks (e : proc_env) (keys : list data_key) (p : processor) :
  let p' := (_unpin_data e keys p).2 in
  input_keys p' = input_keys p /\ unpinned p' = unpinned p /\
  invocations p' = invocations p ++ [keys].
Proof.
  unfold _unpin_data.
  change ((modify (log_pcall (unpin_data_entered keys) true) ;; ?k) p)
    with (k (log_pcall (unpin_data_entered keys) true p)).
  match goal with
  | |- context [(?k (log_pcall _ _ p)).2] => assert (Hk : steps quiet k)
  end.
  { quiet_steps. }
  destruct (Hk (log_pcall (unpin_data_entered keys) true p)) as (Hi & Hu & Hl).
  cbv zeta. rewrite Hi, Hu, Hl.
  change (pcalls (log_pcall (unpin_data_entered keys) true p))
    with (pcalls p ++ [(unpin_data_entered keys, true)]).
  by rewrite invocations_log.
Qed.

(** A property of the state that quiet steps keep is kept by what follows
    a statement, when that is quiet. *)
Definition quiet_closed (P : processor -> Prop) : Prop :=
  forall p1 p2, P p1 -> quiet p1 p2 -> P p2.

Lemma bind_then_quiet {A B} (P : processor -> Prop) (m : M processor A)
    (k : A -> M processor B) (p : processor) :
  quiet_closed P -> P (m p).2 -> (forall a, steps quiet (k a)) -> P (bind m k p).2.
Proof.
  intros HP H Hk. unfold bind. destruct (m p) as [[a | ex] p1]; simpl in *; [| done].
  eapply HP; [exact H | apply Hk].
Qed.

Lemma try_except_then_quiet {A} (P : processor -> Prop) (m : M processor A)
    (h : exn -> M processor A) (p : processor) :
  quiet_closed P -> P (m p).2 -> (forall ex, steps quiet (h ex)) ->
  P (try_except m h p).2.
Proof.
  intros HP H Hh. unfold try_except.
  destruct (m p) as [[a | ex] p1]; simpl in *; [done |].
  eapply HP; [exact H | apply Hh].
Qed.

(** After a quiet statement: the property holds when it raises, and what
    follows it establishes the property when it returns. *)
Lemma quiet_then_bind {A B} (P : processor -> Prop) (m : M processor A)
    (k : A -> M processor B) (p0 p : processor) :
  steps quiet m -> quiet p0 p ->
  (forall p1, quiet p0 p1 -> P p1) ->
  (forall a p1, quiet p0 p1 -> m p = (Ok a, p1) -> P (k a p1).2) ->
  P (bind m k p).2.
Proof.
  intros Hm Hq Hraise Hk. unfold bind. specialize (Hm p).
  destruct (m p) as [[a | ex] p1] eqn:Hrun; simpl in *.
  - apply Hk; [by etransitivity | done].
  - apply Hraise. by etransitivity.
Qed.

Section Run.
Variable e : proc_env.

Abbreviation KEYS := (map fst (input_data_keys e)).

(** [_unpin_data] was entered once, with the loaded keys. *)
Definition unpinned_with_keys (p0 p1 : processor) : Prop :=
  input_keys p1 = Some KEYS /\ unpinned p1 = true /\
  invocations p1 = invocations p0 ++ [KEYS].

(** Nothing loaded, or the keys loaded and [_unpin_data] entered once with
    them. *)
Definition unpinned_once (p0 p1 : processor) : Prop :=
  (input_keys p1 = None /\ invocations p1 = invocations p0) \/
  unpinned_with_keys p0 p1.

Lemma unpinned_with_keys_closed p0 : quiet_closed (unpinned_with_keys p0).
Proof.
  intros p1 p2 (Hi & Hu & Hl) (Hi2 & Hu2 & Hl2). repeat split; congruence.
Qed.

Lemma unpinned_once_closed p0 : quiet_closed (unpinned_once p0).
Proof.
  intros p1 p2 [(Hi & Hl) | H] Hq.
  - left. destruct Hq as (Hi2 & Hu2 & Hl2). split; congruence.
  - right. by eapply unpinned_with_keys_closed.
Qed.

(** The inner [try ... finally] of [run], entered with the keys loaded. *)
Lemma execute_and_unpin (p0 p : processor) :
  input_keys p = Some KEYS -> invocations p = invocations p0 ->
  unpinned_with_keys p0
    (try_finally (pawait execute_graph (on_execute_graph e))
       (modify (set_unpinned true) ;; _unpin_data e KEYS) p).2.
Proof.
  intros Hi Hl. unfold try_finally.
  pose proof (quiet_pawait execute_graph (on_execute_graph e) eq_refl p)
    as (Hxi & Hxu & Hxl).
  destruct (pawait execute_graph (on_execute_graph e) p) as [rx p_x].
  simpl in Hxi, Hxu, Hxl.
  change ((modify (set_unpinned true) ;; _unpin_data e KEYS) p_x)
    with (_unpin_data e KEYS (set_unpinned true p_x)).
  pose proof (unpin_data_marks e KEYS (set_unpinned true p_x)) as (Hui & Huu & Hul).
  destruct (_unpin_data e KEYS (set_unpinned true p_x)) as [[[] | exu] p_u];
    simpl in *; repeat split; congruence.
Qed.

Lemma run_loaded_unpins g upd (p0 p : processor) :
  invocations p = invocations p0 ->
  unpinned_with_keys p0 (run_loaded e g upd KEYS p).2.
Proof.
  intros Hl. unfold run_loaded.
  change ((modify (set_input_keys (Some KEYS)) ;; ?k) p)
    with (k (set_input_keys (Some KEYS) p)).
  apply bind_then_quiet.
  - apply unpinned_with_keys_closed.
  - by apply execute_and_unpin.
  - intros _. quiet_steps. apply store_meta_quiet.
Qed.

Lemma run_try_unpins (p0 : processor) :
  input_keys p0 = None ->
  unpinned_once p0 (try_except (run_try e) run_except p0).2.
Proof.
  intros Hnone.
  assert (Hquiet : forall p1, quiet p0 p1 -> unpinned_once p0 p1).
  { intros p1 (Hi & _ & Hl). left. split; congruence. }
  apply try_except_then_quiet;
    [apply unpinned_once_closed | | apply run_except_quiet].
  unfold run_try.
  apply (quiet_then_bind _ _ _ p0); [by apply quiet_pawait | done | done |].
  intros g p1 Hq1 _.
  apply (quiet_then_bind _ _ _ p0); [apply steps_gets; apply _ | done | done |].
  intros sub p2 Hq2 _.
  apply (quiet_then_bind _ _ _ p0); [apply quiet_lift | done | done |].
  intros upd p3 Hq3 _.
  apply (quiet_then_bind _ _ _ p0); [apply load_input_data_quiet | done | done |].
  intros keys p4 Hq4 Hload.
  apply load_input_data_keys in Hload as ->.
  right. apply run_loaded_unpins. by destruct Hq4 as (_ & _ & ?).
Qed.

Lemma run_finally_keeps (p0 p1 : processor) :
  unpinned_once p0 p1 -> unpinned_once p0 (run_finally e p1).2.
Proof.
  intros [(Hi & Hl) | (Hi & Hu & Hl)]; unfold run_finally, bind, gets;
    rewrite Hi; [| rewrite Hu]; simpl.
  - by left.
  - right. by repeat split.
Qed.

Lemma run_unpinned_once (p : processor) :
  unpinned_once p (run e p).2.
Proof.
  unfold run.
  change ((modify (set_result (set_status running)) ;;
           modify (set_input_keys None) ;;
           modify (set_unpinned false) ;; ?k) p)
    with (k (set_unpinned false (set_input_keys None
                (set_result (set_status running) p)))).
  set (p0 := set_unpinned false _).
  assert (H0 : input_keys p0 = None /\ invocations p0 = invocations p) by done.
  destruct H0 as [H0i H0l]. clearbody p0.
  assert (Hstart : forall p1, unpinned_once p0 p1 -> unpinned_once p p1).
  { intros p1 [(Hi & Hl) | (Hi & Hu & Hl)]; [left | right];
      repeat split; congruence. }
  apply bind_then_quiet.
  - apply unpinned_once_closed.
  - apply Hstart. pose proof (run_try_unpins p0 H0i) as Htry.
    unfold try_finally.
    destruct (try_except (run_try e) run_except p0) as [r1 p1]. simpl in Htry.
    pose proof (run_finally_keeps p0 p1 Htry) as Hfin.
    by destruct (run_finally e p1) as [[[] | ex] p2].
  - intros _. unfold done. quiet_steps.
Qed.
End Run.

(** In every run of [run], however it ends (success, failure or
    cancellation): when [_load_input_data] returned (the local [input_keys]
    then holds what it returned, the keys of [iter_input_data_keys]),
    [_unpin_data] was entered exactly once, with exactly those keys; when it
    did not return, the local is [None] and [_unpin_data] was not entered. *)
Lemma run_unpins_input_keys_once (e : proc_env) (p p' : processor) r :
  run e p = (r, p') ->
  match input_keys p' with
  | Some keys =>
      keys = map fst (input_data_keys e) /\
      invocations p' = invocations p ++ [keys]
  | None => invocations p' = invocations p
  end.
Proof.
  intros Hrun. pose proof (run_unpinned_once e p) as H.
  rewrite Hrun in H. simpl in H.
  by destruct H as [(Hi & Hl) | (Hi & Hu & Hl)]; rewrite Hi.
Qed.

(** C4.  The reducer T, whose inputs are the chunk A and the two pieces
    (M1, 0) and (M2, 0) of a shuffle, when the task is cancelled while
    [_unpin_data] waits for the batch that unpins A: [run] exits by the
    cancellation; [_unpin_data] was entered once, with the three keys that
    [_load_input_data] returned; it sent the batch for A, which did not
    return, and no batch after it, so that no call unpins (M1, 0) or
    (M2, 0): the two awaits of [_unpin_data] follow one another with
    nothing that guards the second against an exception of the first, and
    [run] has set [unpinned] before, so that its [finally] does not enter
    [_unpin_data] again. *)
Theorem run_skips_shuffle_unpin :
  let p := __init__ Cases.subtask_reduce in
  let out := run Cases.proc_unpin_cancelled p in
  out.1 = Raise Scenarios.task_cancelled /\
  input_keys out.2 = Some Cases.reduce_input_keys /\
  unpinned out.2 = true /\
  pcalls out.2 =
    [(optimize, true);
     (storage_get_batch Cases.reduce_input_keys, true);
     (execute_graph, true);
     (unpin_data_entered Cases.reduce_input_keys, true);
     (storage_unpin_batch [StrKey "A"] false, false)] /\
  forall keys error_ignore ok k,
    (storage_unpin_batch keys error_ignore, ok) ∈ pcalls out.2 ->
    k ∈ keys -> is_tuple k = false.
Proof.
  intros p out.
  assert (Hcalls : pcalls out.2 =
    [(optimize, true);
     (storage_get_batch Cases.reduce_input_keys, true);
     (execute_graph, true);
     (unpin_data_entered Cases.reduce_input_keys, true);
     (storage_unpin_batch [StrKey "A"] false, false)]) by (by vm_compute).
  split; [by vm_compute |]. split; [by vm_compute |]. split; [by vm_compute |].
  split; [exact Hcalls |].
  intros keys error_ignore ok k Hin Hk. rewrite Hcalls in Hin.
  repeat (apply elem_of_cons in Hin as [Hin | Hin]; [try discriminate |]).
  - inversion Hin; subst. apply list_elem_of_singleton in Hk. by subst.
  - by apply elem_of_nil in Hin.
Qed.


(** *** [report_progress_periodically] *)




End ProcessorFacts.

(** * Further properties of the code *)

(** ** [_retry_run] and [_run_subtask_once] together *)

Module RetryFacts.
Import Execution PyFacts MonadFacts ExecutionFacts.

Section Attempts.
Context {A : Type}.
Variable subtask : Subtask.
Variable target_repr : string.
Variable target : M world A.
Hypothesis Hkeeps : keeps_counters target.
Hypothesis Hcounts : forall w, attempts (target w).2 = S (attempts w).

(** Each turn of the loop calls the target once; all turns but the last
    add one to [num_retries]. *)
Lemma retry_loop_attempts (fuel : nat) (w w' : world) r :
  retry_loop fuel subtask target_repr target w = Some (r, w') ->
  Z.of_nat (attempts w') - Z.of_nat (attempts w)
  = num_retries (subtask_info w') - num_retries (subtask_info w) + 1 /\
  num_retries (subtask_info w) <= num_retries (subtask_info w').
Proof.
  revert w. induction fuel as [| fuel IH]; intros w; simpl; [done |].
  pose proof (Hcounts w) as Ha. destruct (Hkeeps w) as [Hn _].
  destruct (target w) as [[v | ex] w1]; simpl in Ha, Hn.
  { intros H. inversion H; subst. lia. }
  unfold on_target_error.
  repeat match goal with
         | |- context [if ?b then _ else _] => destruct b
         end;
    try (intros H; inversion H; subst; lia).
  intros H. apply IH in H. simpl in H. lia.
Qed.
End Attempts.

(** The counts of [_retry_run] on [_run_subtask_once]. *)
Lemma retry_run_counts subtask band address req env (w w' : world) r :
  0 <= num_retries (subtask_info w) ->
  num_retries (subtask_info w) <= max_retries (subtask_info w) ->
  _retry_run subtask "_run_subtask_once"
    (_run_subtask_once subtask band address req env) w = Some (r, w') ->
  Z.of_nat (attempts w') - Z.of_nat (attempts w)
    = num_retries (subtask_info w') - num_retries (subtask_info w) + 1 /\
  num_retries (subtask_info w) <= num_retries (subtask_info w') /\
  num_retries (subtask_info w') <= max_retries (subtask_info w) /\
  max_retries (subtask_info w') = max_retries (subtask_info w).
Proof.
  intros Hn Hle. unfold _retry_run.
  destruct (Z.leb_spec 0 (num_retries (subtask_info w))); [| lia].
  destruct (Z.leb_spec 0 (max_retries (subtask_info w))); [| lia]. cbn [negb].
  intros Hrun.
  pose proof (run_subtask_once_keeps_counters subtask band address req env) as Hk.
  pose proof (retry_loop_attempts subtask "_run_subtask_once" _ Hk
                (run_subtask_once_attempts subtask band address req env)
                _ _ _ _ Hrun) as [Hatt Hmono].
  pose proof Hrun as Hin. apply retry_loop_final_state in Hin; [| exact Hk].
  pose proof (retry_states_invariant subtask "_run_subtask_once" _ Hk
                (S (Z.to_nat (max_retries (subtask_info w)
                              - num_retries (subtask_info w)))) w Hle) as Hinv.
  rewrite Forall_forall in Hinv. destruct (Hinv _ Hin) as [Hle' Hmax].
  repeat split; [done | done | lia | done].
Qed.

(** X1. [_retry_run] on [_run_subtask_once]: the number of times the
    subtask is run is the number of retries made plus one; [num_retries]
    only grows and never passes [max_retries], so a subtask is run at most
    [max_retries - num_retries + 1] times. *)
Theorem retry_run_attempts subtask band address req env (w w' : world) r :
  0 <= num_retries (subtask_info w) ->
  num_retries (subtask_info w) <= max_retries (subtask_info w) ->
  _retry_run subtask "_run_subtask_once"
    (_run_subtask_once subtask band address req env) w = Some (r, w') ->
  Z.of_nat (attempts w') - Z.of_nat (attempts w)
    = num_retries (subtask_info w') - num_retries (subtask_info w) + 1 /\
  num_retries (subtask_info w) <= num_retries (subtask_info w') /\
  num_retries (subtask_info w') <= max_retries (subtask_info w) /\
  Z.of_nat (attempts w') - Z.of_nat (attempts w)
    <= max_retries (subtask_info w) - num_retries (subtask_info w) + 1.
Proof.
  intros Hn Hle Hrun.
  destruct (retry_run_counts subtask band address req env w w' r Hn Hle Hrun)
    as (Hatt & Hmono & Hmax & _).
  repeat split; [done | done | done | lia].
Qed.

(** The run in the slot fails with [OSError] each time, [max_retries = 1]:
    the subtask is run twice. *)
Lemma retry_run_attempts_witness :
  let w := Scenarios.world_with 1 in
  let out := default (Raise assertion_error, w)
               (_retry_run (Scenarios.subtask_S true) "_run_subtask_once"
                  (Scenarios.run_once true (fun _ => Scenarios.run_fails)) w) in
  (0 <= num_retries (subtask_info w)
   /\ num_retries (subtask_info w) <= max_retries (subtask_info w)) /\
  attempts out.2 = 2%nat /\ num_retries (subtask_info out.2) = 1.
Proof.
  intros w out.
  assert (Hrun : _retry_run (Scenarios.subtask_S true) "_run_subtask_once"
                   (Scenarios.run_once true (fun _ => Scenarios.run_fails)) w
                 = Some (out.1, out.2)) by (by vm_compute).
  split; [by vm_compute |].
  destruct (retry_run_attempts (Scenarios.subtask_S true) "numa-0" "worker"
              Scenarios.quota_req (fun _ => Scenarios.run_fails) w out.2 out.1)
    as (Hatt & Hmono & Hmax & _); [by vm_compute | by vm_compute | exact Hrun |].
  assert (Hnum : num_retries (subtask_info out.2) = 1) by (by vm_compute).
  split; [| exact Hnum].
  rewrite Hnum in Hatt. change (attempts w) with 0%nat in Hatt.
  change (num_retries (subtask_info w)) with 0 in Hatt. lia.
Defined.

Section LastCall.
Context {A : Type}.
Variable subtask : Subtask.
Variable target_repr : string.
Variable target : M world A.

(** What [_retry_run] does with the outcome of the last call of its
    target: a value is returned, an exception is raised as it is or
    wrapped. *)
Definition passed_on (last out : res A) : Prop :=
  match last, out with
  | Ok v, Ok v' => v' = v
  | Raise ex, Raise ex' =>
      ex' = ex \/ exists wrap_name message, ex' = wrap_exception ex wrap_name message
  | _, _ => False
  end.

Lemma retry_loop_last_call (fuel : nat) (w w' : world) r :
  retry_loop fuel subtask target_repr target w = Some (r, w') ->
  exists w0 last, target w0 = (last, w') /\ passed_on last r.
Proof.
  revert w. induction fuel as [| fuel IH]; intros w; simpl; [done |].
  destruct (target w) as [[v | ex] w1] eqn:Ht.
  { intros H. inversion H; subst. exists w, (Ok v). by split. }
  unfold on_target_error.
  repeat match goal with
         | |- context [if ?b then _ else _] => destruct b
         end;
    try (intros H; inversion H; subst; exists w, (Raise ex); split; [done |];
         simpl; eauto).
  apply IH.
Qed.
End LastCall.

(** X2. Whatever [_retry_run] returns or raises is the outcome of the last
    call of its target, and nothing is done after that call: the state is
    the one the call left, a value is returned as it is, and an exception
    is the one the call raised or a wrapper made of it, which passes the
    same [isinstance] tests and has the same traceback. *)
Theorem retry_run_passes_on_last_call {A} subtask target_repr
    (target : M world A) (w w' : world) r :
  0 <= num_retries (subtask_info w) ->
  0 <= max_retries (subtask_info w) ->
  _retry_run subtask target_repr target w = Some (r, w') ->
  exists w0 last,
    target w0 = (last, w') /\ passed_on last r /\
    match last, r with
    | Raise ex, Raise ex' =>
        (forall c, isinstance ex' c = isinstance ex c) /\
        traceback_of ex' = traceback_of ex
    | _, _ => True
    end.
Proof.
  intros Hn Hm. unfold _retry_run.
  destruct (Z.leb_spec 0 (num_retries (subtask_info w))); [| lia].
  destruct (Z.leb_spec 0 (max_retries (subtask_info w))); [| lia]. cbn [negb].
  intros Hrun. apply retry_loop_last_call in Hrun as (w0 & last & Ht & Hp).
  exists w0, last. split; [done |]. split; [done |].
  destruct last as [v | ex], r as [v' | ex']; try done.
  destruct Hp as [-> | (n & m & ->)]; by split.
Qed.

(** The second run of the witness above raises the [OSError] that comes
    back wrapped. *)
Lemma retry_run_passes_on_last_call_witness :
  let w := Scenarios.world_with 1 in
  let target := Scenarios.run_once true (fun _ => Scenarios.run_fails) in
  let out := default (Raise assertion_error, w)
               (_retry_run (Scenarios.subtask_S true) "_run_subtask_once" target w) in
  (0 <= num_retries (subtask_info w) /\ 0 <= max_retries (subtask_info w)) /\
  exists w0 last, target w0 = (last, out.2) /\ passed_on last out.1.
Proof.
  intros w target out.
  assert (Hrun : _retry_run (Scenarios.subtask_S true) "_run_subtask_once" target w
                 = Some (out.1, out.2)) by (by vm_compute).
  split; [by vm_compute |].
  destruct (retry_run_passes_on_last_call (Scenarios.subtask_S true)
              "_run_subtask_once" target w out.2 out.1)
    as (w0 & last & Ht & Hp & _); [by vm_compute | by vm_compute | exact Hrun |].
  by exists w0, last.
Defined.

End RetryFacts.

(** ** More on [_run_subtask_once] *)

Module RunOnceFacts.
Import Execution PyFacts MonadFacts ExecutionFacts.

Section Handlers.
Variable subtask : Subtask.
Variable band : string.
Variable address : string.
Variable req : list (quota_key * Z).
Variable e : run_env.

(** The handler of a cancellation leaves by raising the cancellation it
    was entered with, whatever happens while it makes the slot give up the
    subtask. *)
Lemma on_cancelled_raises {A} (ex : exn) (w : world) :
  (on_cancelled (A := A) band address e ex w).1 = Raise ex.
Proof. reflexivity. Qed.

(** No [except] clause ends normally: each one leaves by an exception. *)
Lemma except_clauses_raise (ex : exn) (w : world) :
  is_ok (except_clauses band address e ex w).1 = false.
Proof.
  unfold except_clauses.
  destruct (isinstance ex CancelledError); [done |].
  destruct (isinstance ex OSError || isinstance ex MarsError); [| done].
  unfold on_os_or_mars_error, bind, gets, raise, await, ret.
  destruct (slot_id_local w); [| done].
  destruct (answer (on_get_slot_address e)); [| done]. simpl.
  by destruct (answer (on_wait_actor_pool_recovered e)).
Qed.

(** The [try] block when it returns: the three calls it made, all
    answered, and what it wrote. *)
Lemma try_block_returns (w w1 : world) (r : SubtaskResult) :
  try_block subtask band req e w = (Ok r, w1) ->
  exists s,
    answer (on_request_batch_quota e) = Ok tt /\
    answer (on_acquire_free_slot e) = Ok s /\
    answer (on_run_subtask_in_slot e) = Ok r /\
    calls w1 = calls w ++
      [(request_batch_quota req, true);
       (acquire_free_slot (subtask_key subtask), true);
       (run_subtask_in_slot band s (subtask_id subtask), true)] /\
    slot_id_local w1 = Some s /\
    slot_id (subtask_info w1) = Some s /\
    status (result (subtask_info w1)) = running /\
    attempts w1 = attempts w.
Proof.
  unfold try_block, run_in_slot, _check_cancelling, bind, gets, modify, ret,
    raise, await.
  destruct (answer (on_request_batch_quota e)) as [[] | ?]; [| done]. simpl.
  destruct (cancelling (subtask_info w) || _); [done |].
  destruct (answer (on_acquire_free_slot e)) as [s | ?]; [| done]. simpl.
  destruct (_ || cancelled_meanwhile (on_acquire_free_slot e)); [done |].
  destruct (answer (on_run_subtask_in_slot e)) as [r' | ?]; [| done]. simpl.
  intros H. inversion H; subst. exists s. simpl.
  rewrite <- !app_assoc. by repeat split.
Qed.

(** The [finally] block when it returns, entered with the slot in the
    local: both releases were made and answered. *)
Lemma release_returns (w w2 : world) (s : Z) :
  slot_id_local w = Some s ->
  release_slot_and_quota subtask req e w = (Ok tt, w2) ->
  calls w2 = calls w ++
    [(release_free_slot s (subtask_key subtask), true);
     (release_quotas (map fst req), true)] /\
  slot_id (subtask_info w2) = slot_id (subtask_info w) /\
  status (result (subtask_info w2)) = status (result (subtask_info w)) /\
  attempts w2 = attempts w.
Proof.
  intros Hs. unfold release_slot_and_quota, bind, gets, ret, await.
  simpl. repeat (rewrite Hs; simpl).
  destruct (answer (on_release_free_slot e)) as [[] | ?]; [| done]. simpl.
  destruct (answer (on_release_quotas e)) as [[] | ?]; [| done]. simpl.
  intros H. inversion H; subst. simpl. rewrite <- !app_assoc. by repeat split.
Qed.
End Handlers.

(** X3. When [_run_subtask_once] returns a result, it made exactly five
    calls, each of which returned: the quota request, the acquisition of a
    slot, the run of the subtask in that slot, whose answer is the result
    returned, then the release of the slot and the release of the quota.
    No exception of the [try] block is swallowed by a handler.  The info
    holds the slot and the status [running]. *)
Theorem run_subtask_once_returns subtask band address req env w r w' :
  _run_subtask_once subtask band address req env w = (Ok r, w') ->
  let e := env (attempts w) in
  exists s,
    answer (on_acquire_free_slot e) = Ok s /\
    answer (on_run_subtask_in_slot e) = Ok r /\
    calls w' = calls w ++
      [(request_batch_quota req, true);
       (acquire_free_slot (subtask_key subtask), true);
       (run_subtask_in_slot band s (subtask_id subtask), true);
       (release_free_slot s (subtask_key subtask), true);
       (release_quotas (map fst req), true)] /\
    slot_id (subtask_info w') = Some s /\
    status (result (subtask_info w')) = running.
Proof.
  rewrite run_subtask_once_unfold. intros Hrun e. fold e in Hrun.
  unfold try_finally, try_except in Hrun.
  destruct (try_block subtask band req e (enter_run_subtask_once w))
    as [[r1 | ex] w1] eqn:Htry.
  - apply try_block_returns in Htry
      as (s & _ & Hs & Hr & Hcalls & Hlocal & Hslot & Hst & _).
    destruct (release_slot_and_quota subtask req e w1) as [[[] | ex] w2] eqn:Hrel;
      [| done].
    inversion Hrun; subst r1 w2.
    apply (release_returns subtask req e w1 w' s Hlocal) in Hrel
      as (Hcalls' & Hslot' & Hst' & _).
    exists s. repeat split; [done | done | | congruence | congruence].
    rewrite Hcalls', Hcalls. simpl. by rewrite <- app_assoc.
  - pose proof (except_clauses_raise band address e ex w1) as Hex.
    destruct (except_clauses band address e ex w1) as [[r1 | ex1] w1']; [done |].
    by destruct (release_slot_and_quota subtask req e w1') as [[[] | ex2] w2].
Qed.

(** Scenario 1: the five calls, with slot 7. *)
Lemma run_subtask_once_returns_witness :
  let w := Scenarios.world_with 0 in
  let out := Scenarios.run_once false (fun _ => Scenarios.happy) w in
  out.1 = Ok Scenarios.succeeded_result /\
  calls out.2 =
    [(request_batch_quota Scenarios.quota_req, true);
     (acquire_free_slot ("sess", "S"), true);
     (run_subtask_in_slot "numa-0" 7 "S", true);
     (release_free_slot 7 ("sess", "S"), true);
     (release_quotas [("sess", "S")], true)].
Proof.
  intros w out.
  assert (Hrun : _run_subtask_once (Scenarios.subtask_S false) "numa-0" "worker"
                   Scenarios.quota_req (fun _ => Scenarios.happy) w
                 = (Ok Scenarios.succeeded_result, out.2)) by (by vm_compute).
  split; [by vm_compute |].
  destruct (run_subtask_once_returns (Scenarios.subtask_S false) "numa-0" "worker"
              Scenarios.quota_req (fun _ => Scenarios.happy) w
              Scenarios.succeeded_result out.2 Hrun)
    as (s & Hs & _ & Hcalls & _).
  simpl in Hs. inversion Hs; subst s. exact Hcalls.
Defined.

(** X4. A cancellation raised in the [try] block of [_run_subtask_once]
    (by a check of [cancelling] or at one of its awaits) leaves the function
    as that same exception whatever the handling of the cancellation meets
    (a failing or timed out [cancel_subtask_in_slot], a failing [kill_slot]),
    unless the [finally] block raises, in which case the exception of the
    [finally] block leaves it. *)
Theorem run_subtask_once_cancelled subtask band address req env w ex w1 :
  let e := env (attempts w) in
  try_block subtask band req e (enter_run_subtask_once w) = (Raise ex, w1) ->
  isinstance ex CancelledError = true ->
  let out := _run_subtask_once subtask band address req env w in
  exists w2,
    match release_slot_and_quota subtask req e w2 with
    | (Ok _, w3) => out = (Raise ex, w3)
    | (Raise ex', w3) => out = (Raise ex', w3)
    end.
Proof.
  intros e Htry Hc out. unfold out. rewrite run_subtask_once_unfold. fold e.
  unfold try_finally, try_except. rewrite Htry.
  unfold except_clauses. rewrite Hc.
  pose proof (on_cancelled_raises (A := SubtaskResult) band address e ex w1) as Hr.
  destruct (on_cancelled band address e ex w1) as [r1 w2]. simpl in Hr. subst r1.
  exists w2. by destruct (release_slot_and_quota subtask req e w2) as [[[] | ex'] w3].
Qed.

(** The task is cancelled while it waits for its quota: the cancellation
    comes out of [_run_subtask_once]. *)
Lemma run_subtask_once_cancelled_witness :
  let w := Scenarios.world_with 0 in
  (isinstance Scenarios.task_cancelled CancelledError = true) /\
  (Scenarios.run_once false (fun _ => Scenarios.cancelled_in_quota) w).1
  = Raise Scenarios.task_cancelled.
Proof.
  intros w. split; [by vm_compute |].
  destruct (run_subtask_once_cancelled (Scenarios.subtask_S false) "numa-0" "worker"
              Scenarios.quota_req (fun _ => Scenarios.cancelled_in_quota) w
              Scenarios.task_cancelled
              (try_block (Scenarios.subtask_S false) "numa-0" Scenarios.quota_req
                 Scenarios.cancelled_in_quota (enter_run_subtask_once w)).2)
    as [w2 H]; [by vm_compute | by vm_compute |].
  destruct (release_slot_and_quota _ _ _ w2) as [[[] | ex'] w3];
    by vm_compute.
Defined.

(** *** When a slot is killed *)

Section KillSlot.
Variable subtask : Subtask.
Variable band : string.
Variable address : string.
Variable req : list (quota_key * Z).
Variable e : run_env.

(** The steps that log a [kill_slot] only for the slot of a
    [cancel_subtask_in_slot] logged before it that did not return, and only
    when the answer to that call is a [TimeoutError]. *)
Definition kills_after_timeout : relation world :=
  fun w w' =>
    exists evs,
      calls w' = calls w ++ evs /\
      forall s ok, (kill_slot s, ok) ∈ evs ->
        (exists e1, answer (on_cancel_subtask_in_slot e) = Raise e1 /\
                    isinstance e1 TimeoutError = true) /\
        exists timeout pre post,
          evs = pre ++ (cancel_subtask_in_slot band s timeout, false)
                    :: (kill_slot s, ok) :: post.

Global Instance kills_after_timeout_preorder : PreOrder kills_after_timeout.
Proof.
  split.
  - intros w. exists []. split; [by rewrite app_nil_r |].
    intros s ok Hin. by apply elem_of_nil in Hin.
  - intros w1 w2 w3 (evs1 & H1 & K1) (evs2 & H2 & K2).
    exists (evs1 ++ evs2). split; [by rewrite H2, H1, app_assoc |].
    intros s ok Hin. apply elem_of_app in Hin as [Hin | Hin].
    + destruct (K1 s ok Hin) as (Ht & t & pre & post & ->).
      split; [done |]. exists t, pre, (post ++ evs2).
      by rewrite <- !app_assoc.
    + destruct (K2 s ok Hin) as (Ht & t & pre & post & ->).
      split; [done |]. exists t, (evs1 ++ pre), post.
      by rewrite <- !app_assoc.
Qed.

Definition is_kill (c : call) : bool :=
  match c with kill_slot _ => true | _ => false end.

Lemma no_kill_await {A} (c : call) (r : reply A) (w : world) :
  is_kill c = false -> kills_after_timeout w (await c r w).2.
Proof.
  intros Hc. exists [(c, is_ok (answer r))]. split; [done |].
  intros s ok Hin. apply list_elem_of_singleton in Hin.
  inversion Hin; subst. discriminate.
Qed.

Lemma no_kill_modify (f : world -> world) (w : world) :
  calls (f w) = calls w -> kills_after_timeout w (f w).
Proof.
  intros Hc. exists []. split; [by rewrite Hc, app_nil_r |].
  intros s ok Hin. by apply elem_of_nil in Hin.
Qed.

Lemma on_cancelled_kills {A} (ex : exn) :
  steps kills_after_timeout (on_cancelled (A := A) band address e ex).
Proof.
  intros w. unfold on_cancelled, finally_raise, try_except, bind, gets, ret,
    raise, await.
  destruct (aiotask w); simpl.
  2:{ by apply (no_kill_modify (fun w => w)). }
  destruct (answer (on_cancel_subtask_in_slot e)) as [[] | e1] eqn:Hans; simpl.
  { exists [(cancel_subtask_in_slot band (slot_id_local w)
               (kill_timeout (subtask_info w)), true)].
    split; [done |]. intros s ok Hin. apply list_elem_of_singleton in Hin.
    discriminate. }
  destruct (isinstance e1 TimeoutError) eqn:Ht; simpl.
  2:{ exists [(cancel_subtask_in_slot band (slot_id_local w)
                 (kill_timeout (subtask_info w)), false)].
      split; [done |]. intros s ok Hin. apply list_elem_of_singleton in Hin.
      discriminate. }
  assert (Hfound : forall (rest : list (call * bool)) s ok,
            Forall (fun ev => is_kill ev.1 = false) rest ->
            (kill_slot s, ok)
              ∈ (cancel_subtask_in_slot band (slot_id_local w)
                   (kill_timeout (subtask_info w)), false)
                :: (kill_slot (slot_id_local w), is_ok (answer (on_kill_slot e)))
                :: rest ->
            (exists e0, answer (on_cancel_subtask_in_slot e) = Raise e0 /\
                        isinstance e0 TimeoutError = true) /\
            exists timeout pre post,
              (cancel_subtask_in_slot band (slot_id_local w)
                 (kill_timeout (subtask_info w)), false)
              :: (kill_slot (slot_id_local w), is_ok (answer (on_kill_slot e)))
              :: rest
              = pre ++ (cancel_subtask_in_slot band s timeout, false)
                    :: (kill_slot s, ok) :: post).
  { intros rest s ok Hrest Hin. split; [by exists e1 |].
    apply elem_of_cons in Hin as [Hin | Hin]; [discriminate |].
    apply elem_of_cons in Hin as [Hin | Hin].
    - inversion Hin; subst. by exists (kill_timeout (subtask_info w)), [], rest.
    - rewrite Forall_forall in Hrest. by specialize (Hrest _ Hin). }
  destruct (answer (on_kill_slot e)) as [[] | e2] eqn:Hk; simpl.
  2:{ eexists [_; _]. split; [simpl; by rewrite <- !app_assoc |].
      intros s ok. by apply (Hfound []). }
  destruct (answer (on_get_slot_address e)) as [a | e3] eqn:Ha; simpl.
  2:{ eexists [_; _; _]. split; [simpl; by rewrite <- !app_assoc |].
      intros s ok. apply (Hfound [_]). by repeat constructor. }
  eexists [_; _; _; _]. split; [simpl; by rewrite <- !app_assoc |].
  intros s ok. apply (Hfound [_; _]). by repeat constructor.
Qed.

Lemma run_subtask_once_body_kills :
  steps kills_after_timeout
    (try_finally
       (try_except (try_block subtask band req e) (except_clauses band address e))
       (release_slot_and_quota subtask req e)).
Proof.
  unfold try_block, run_in_slot, except_clauses, on_os_or_mars_error,
    release_slot_and_quota.
  steps;
    first [ apply on_cancelled_kills
          | intros w0; first [by apply no_kill_modify | by apply no_kill_await] ].
Qed.
End KillSlot.

(** X5. [_run_subtask_once] kills a slot only when its request to cancel
    the subtask in the slot timed out: every [kill_slot] among the calls of
    a run comes right after a [cancel_subtask_in_slot] for the same slot
    that did not return, and the answer to that request is a
    [TimeoutError]. *)
Theorem kill_slot_only_after_timeout subtask band address req env w evs s ok :
  let e := env (attempts w) in
  calls (_run_subtask_once subtask band address req env w).2 = calls w ++ evs ->
  (kill_slot s, ok) ∈ evs ->
  (exists e1, answer (on_cancel_subtask_in_slot e) = Raise e1 /\
              isinstance e1 TimeoutError = true) /\
  exists timeout pre post,
    evs = pre ++ (cancel_subtask_in_slot band s timeout, false)
              :: (kill_slot s, ok) :: post.
Proof.
  intros e Hcalls Hin. rewrite run_subtask_once_unfold in Hcalls. fold e in Hcalls.
  destruct (run_subtask_once_body_kills subtask band address req e
              (enter_run_subtask_once w)) as (evs' & Hevs' & Hk).
  rewrite Hcalls in Hevs'. simpl in Hevs'. apply app_inv_head in Hevs'. subst evs'.
  by apply Hk.
Qed.

(** The task is cancelled while the subtask runs in slot 7 and the request
    to cancel it in the slot times out: slot 7 is killed right after that
    request. *)
Lemma kill_slot_only_after_timeout_witness :
  let w := Scenarios.world_with 0 in
  let evs := calls (Scenarios.run_once false (fun _ => Cases.cancel_times_out) w).2 in
  (kill_slot (Some 7), true) ∈ evs /\
  exists timeout pre post,
    evs = pre ++ (cancel_subtask_in_slot "numa-0" (Some 7) timeout, false)
              :: (kill_slot (Some 7), true) :: post.
Proof.
  intros w evs.
  assert (Hin : (kill_slot (Some 7), true) ∈ evs).
  { vm_compute. repeat (first [apply list_elem_of_here | apply list_elem_of_further]). }
  split; [exact Hin |].
  assert (Hcalls : calls (_run_subtask_once (Scenarios.subtask_S false) "numa-0"
                            "worker" Scenarios.quota_req
                            (fun _ => Cases.cancel_times_out) w).2
                   = calls w ++ evs) by (by vm_compute).
  destruct (kill_slot_only_after_timeout (Scenarios.subtask_S false) "numa-0"
              "worker" Scenarios.quota_req (fun _ => Cases.cancel_times_out) w evs
              (Some 7) true Hcalls Hin) as [_ H].
  exact H.
Defined.

End RunOnceFacts.

(** ** [_prepare_input_data] *)

Module PrepareFacts.
Import Execution Estimator Coordinator.

Section Prepare.
Variable address : string.
Variable gpu : Operand -> bool.
Variable chunk_key_to_data_keys : gmap string (list data_key).
Variable subtask : Subtask.
Variable band_name : string.

(** What a query says of the chunk it was made for. *)
Definition fetches (chunk : Chunk) (q : fetch_delay) : Prop :=
  (key chunk ∉ pure_depend_keys subtask) /\
  fetch_band_name q = (if gpu (op chunk) then band_name else "numa-0") /\
  ((is_Fetch (op chunk) = true /\
    fetch_data_key q = StrKey (key chunk) /\ fetch_error_ignore q = false) \/
   (kind (op chunk) = FetchShuffle /\ fetch_error_ignore q = true /\
    exists keys, chunk_key_to_data_keys !! key chunk = Some keys /\
                 fetch_data_key q ∈ keys)).

Lemma prepare_step_fetches acc acc' (chunk : Chunk) :
  prepare_step gpu chunk_key_to_data_keys subtask band_name acc chunk = Ok acc' ->
  (forall q, q ∈ acc'.1 -> q ∈ acc.1 \/ (fetches chunk q /\ is_Fetch (op chunk) = true)) /\
  (forall q, q ∈ acc'.2 ->
     q ∈ acc.2 \/ (fetches chunk q /\ kind (op chunk) = FetchShuffle)) /\
  (acc.2 <> [] -> acc'.2 <> []).
Proof.
  destruct acc as [queries shuffle_queries]. unfold prepare_step.
  case_bool_decide as Hpure; [intros H; inversion H; subst; by auto |].
  destruct (is_Fetch (op chunk)) eqn:Hfetch.
  { intros H. inversion H; subst. simpl. split; [| auto].
    intros q Hq. apply elem_of_app in Hq as [Hq | Hq]; [by left |].
    apply list_elem_of_singleton in Hq as ->. right. split; [| done].
    split; [done |]. split; [done |]. left. by rewrite Hfetch. }
  case_bool_decide as Hshuffle; [| intros H; inversion H; subst; by auto].
  unfold getitem.
  destruct (chunk_key_to_data_keys !! key chunk) as [keys |] eqn:Hkeys; [| done].
  simpl. intros H. inversion H; subst. simpl. split; [by auto |]. split.
  - intros q Hq. apply elem_of_app in Hq as [Hq | Hq]; [by left |].
    apply list_elem_of_fmap in Hq as (k & -> & Hk). right. split; [| done].
    split; [done |]. split; [done |]. right. repeat split; [done |].
    by exists keys.
  - intros Hne Happ. apply app_eq_nil in Happ as [? _]. done.
Qed.

Lemma prepare_loop_fetches (cs : list Chunk) acc acc' :
  prepare_loop gpu chunk_key_to_data_keys subtask band_name cs acc = Ok acc' ->
  (forall q, q ∈ acc'.1 ->
     q ∈ acc.1 \/ exists chunk, chunk ∈ cs /\ fetches chunk q
                              /\ is_Fetch (op chunk) = true) /\
  (forall q, q ∈ acc'.2 ->
     q ∈ acc.2 \/ exists chunk, chunk ∈ cs /\ fetches chunk q
                              /\ kind (op chunk) = FetchShuffle).
Proof.
  revert acc. induction cs as [| c cs IH]; intros acc; simpl.
  { intros H. inversion H; subst. by auto. }
  destruct (prepare_step _ _ _ _ acc c) as [acc1 | ex] eqn:Hstep; [| done].
  simpl. intros Hloop. apply IH in Hloop as [H1 H2].
  apply prepare_step_fetches in Hstep as (S1 & S2 & _).
  split; intros q Hq.
  - destruct (H1 q Hq) as [Hq1 | (chunk & Hin & Hf)].
    + destruct (S1 q Hq1) as [? | ?]; [by left |].
      right. exists c. split; [apply list_elem_of_here | done].
    + right. exists chunk. split; [by apply list_elem_of_further | done].
  - destruct (H2 q Hq) as [Hq1 | (chunk & Hin & Hf)].
    + destruct (S2 q Hq1) as [? | ?]; [by left |].
      right. exists c. split; [apply list_elem_of_here | done].
    + right. exists chunk. split; [by apply list_elem_of_further | done].
Qed.

(** The batches that [_prepare_input_data] asks for: none while the loop
    raised, then the list [queries] when it is not empty, then the list
    [shuffle_queries] when it is not empty and the first batch returned. *)
Lemma prepare_input_data_batches (e : prepare_env) log qs ok :
  (fetch_batch qs, ok)
    ∈ (_prepare_input_data address gpu chunk_key_to_data_keys subtask band_name e
         log).2 ->
  (fetch_batch qs, ok) ∈ log \/
  exists acc,
    prepare_loop gpu chunk_key_to_data_keys subtask band_name
      (chunks (chunk_graph subtask)) ([], []) = Ok acc /\
    (qs = acc.1 \/ qs = acc.2).
Proof.
  unfold _prepare_input_data, bind, sawait, ret.
  destruct (on_create e) as [[] | ex0]; simpl.
  2:{ intros Hin. apply elem_of_app in Hin as [Hin | Hin]; [by left |].
      apply list_elem_of_singleton in Hin. discriminate. }
  destruct (prepare_loop _ _ _ _ _ _) as [[queries shuffle_queries] | ex1] eqn:Hloop.
  2:{ simpl. intros Hin. apply elem_of_app in Hin as [Hin | Hin]; [by left |].
      apply list_elem_of_singleton in Hin. discriminate. }
  assert (Hfound : forall l : list (storage_call * bool),
            Forall (fun ev => ev.1 = fetch_batch queries
                              \/ ev.1 = fetch_batch shuffle_queries
                              \/ ev.1 = StorageAPI_create (session_id subtask) address
                                          band_name) l ->
            (fetch_batch qs, ok) ∈ log ++ l ->
            (fetch_batch qs, ok) ∈ log \/
            exists acc, Ok (queries, shuffle_queries) = Ok acc
                        /\ (qs = acc.1 \/ qs = acc.2)).
  { intros l Hl Hin. apply elem_of_app in Hin as [Hin | Hin]; [by left |].
    right. exists (queries, shuffle_queries). split; [done |].
    rewrite Forall_forall in Hl.
    destruct (Hl _ Hin) as [H | [H | H]]; simpl in H; inversion H; auto. }
  assert (Hall : forall l : list (storage_call * bool),
            Forall (fun ev => ev.1 = fetch_batch queries
                              \/ ev.1 = fetch_batch shuffle_queries
                              \/ ev.1 = StorageAPI_create (session_id subtask) address
                                          band_name) l ->
            Forall (fun ev => ev.1 = fetch_batch queries
                              \/ ev.1 = fetch_batch shuffle_queries
                              \/ ev.1 = StorageAPI_create (session_id subtask) address
                                          band_name)
                   ((StorageAPI_create (session_id subtask) address band_name, true)
                    :: l)).
  { intros l Hl. constructor; [simpl; auto | done]. }
  destruct queries as [| q queries]; simpl.
  - destruct shuffle_queries as [| sq shuffle_queries]; simpl.
    + apply Hfound, Hall. constructor.
    + destruct (on_shuffle_fetch_batch e); simpl; rewrite <- !app_assoc;
        apply Hfound, Hall; (constructor; [simpl; auto | constructor]).
  - destruct (on_fetch_batch e) as [[] | ex2]; simpl.
    2:{ rewrite <- !app_assoc. apply Hfound, Hall.
        constructor; [simpl; auto | constructor]. }
    destruct shuffle_queries as [| sq shuffle_queries]; simpl.
    + rewrite <- !app_assoc. apply Hfound, Hall.
      constructor; [simpl; auto | constructor].
    + destruct (on_shuffle_fetch_batch e); simpl; rewrite <- !app_assoc;
        apply Hfound, Hall;
        (constructor; [simpl; auto |]); (constructor; [simpl; auto | constructor]).
Qed.
End Prepare.

(** X6. Every key that [_prepare_input_data] asks the storage to fetch is
    asked for a chunk of the graph that is not among the
    [pure_depend_keys]: the chunk's own key, with no [error] argument, for a
    [Fetch] chunk; one of the data keys that the mapping holds for the
    chunk, with [error="ignore"], for a [FetchShuffle] chunk; in both cases
    to the band [numa-0] unless the operand is on a GPU, and then to the
    band of the subtask. *)
Theorem prepare_input_data_fetches address gpu chunk_key_to_data_keys subtask
    band_name (e : prepare_env) qs ok q :
  (fetch_batch qs, ok)
    ∈ (_prepare_input_data address gpu chunk_key_to_data_keys subtask band_name e
         []).2 ->
  q ∈ qs ->
  exists chunk,
    chunk ∈ chunks (chunk_graph subtask) /\
    fetches gpu chunk_key_to_data_keys subtask band_name chunk q.
Proof.
  intros Hin Hq.
  apply prepare_input_data_batches in Hin as [Hin | (acc & Hloop & Hqs)].
  { by apply elem_of_nil in Hin. }
  apply prepare_loop_fetches in Hloop as [H1 H2].
  destruct Hqs as [-> | ->].
  - destruct (H1 q Hq) as [Hnil | (chunk & Hc & Hf & _)];
      [by apply elem_of_nil in Hnil | by exists chunk].
  - destruct (H2 q Hq) as [Hnil | (chunk & Hc & Hf & _)];
      [by apply elem_of_nil in Hnil | by exists chunk].
Qed.

(** The reducer: the batch of the shuffle pieces asks for the piece of
    the mapper M1 on behalf of the chunk R. *)
Lemma prepare_input_data_fetches_witness :
  let q := {| fetch_data_key := Processor.TupleKey "M1" 0;
              fetch_band_name := "numa-0"; fetch_error_ignore := true |} in
  let qs := [q; {| fetch_data_key := Processor.TupleKey "M2" 0;
                   fetch_band_name := "numa-0"; fetch_error_ignore := true |}] in
  ((fetch_batch qs, true) ∈ Cases.prepare_reduce.2 /\ q ∈ qs) /\
  exists chunk,
    chunk ∈ chunks (chunk_graph Cases.subtask_reduce) /\
    fetches Cases.no_gpu Cases.reduce_data_keys Cases.subtask_reduce "numa-0" chunk q.
Proof.
  intros q qs.
  assert (Hin : (fetch_batch qs, true) ∈ Cases.prepare_reduce.2).
  { vm_compute. repeat (first [apply list_elem_of_here | apply list_elem_of_further]). }
  assert (Hq : q ∈ qs) by apply list_elem_of_here.
  split; [by split |].
  exact (prepare_input_data_fetches "worker" Cases.no_gpu Cases.reduce_data_keys
           Cases.subtask_reduce "numa-0" Cases.storage_fetches qs true q Hin Hq).
Defined.

(** X7. [_prepare_input_data] returns remote mapper keys only for a
    subtask with a [FetchShuffle] chunk outside [pure_depend_keys] for which
    the mapping holds at least one data key, and what it returns then is the
    answer of the storage to the batch of the shuffle fetches; for any other
    subtask it returns [None]. *)
Theorem prepare_input_data_remote_mapper_keys address gpu chunk_key_to_data_keys
    subtask band_name (e : prepare_env) log keys :
  (_prepare_input_data address gpu chunk_key_to_data_keys subtask band_name e
     log).1 = Ok (Some keys) ->
  on_shuffle_fetch_batch e = Ok keys /\
  exists chunk data_keys,
    chunk ∈ chunks (chunk_graph subtask) /\
    kind (op chunk) = FetchShuffle /\
    (key chunk ∉ pure_depend_keys subtask) /\
    chunk_key_to_data_keys !! key chunk = Some data_keys /\
    data_keys <> [].
Proof.
  unfold _prepare_input_data, bind, sawait, ret.
  destruct (on_create e) as [[] | ex0]; [| done]. simpl.
  destruct (prepare_loop _ _ _ _ _ _) as [[queries shuffle_queries] | ex1] eqn:Hloop;
    [| done].
  simpl. intros Hres.
  assert (Hshuffle : shuffle_queries <> [] /\ on_shuffle_fetch_batch e = Ok keys).
  { destruct queries as [| q0 queries]; simpl in Hres.
    - destruct shuffle_queries; simpl in Hres; [done |].
      destruct (on_shuffle_fetch_batch e); simpl in Hres; by inversion Hres.
    - destruct (on_fetch_batch e) as [[] | ?]; simpl in Hres; [| done].
      destruct shuffle_queries; simpl in Hres; [done |].
      destruct (on_shuffle_fetch_batch e); simpl in Hres; by inversion Hres. }
  destruct Hshuffle as [Hne Hans]. split; [done |].
  destruct shuffle_queries as [| q rest]; [done |].
  apply prepare_loop_fetches in Hloop as [_ H2].
  destruct (H2 q (list_elem_of_here _ _)) as [Hnil | (chunk & Hc & Hf & Hk)].
  { by apply elem_of_nil in Hnil. }
  destruct Hf as (Hpure & _ & [(Hfetch & _) | (_ & _ & dk & Hdk & Hin)]).
  { unfold is_Fetch in Hfetch. rewrite Hk in Hfetch. done. }
  exists chunk, dk. repeat split; [done | done | done | done |].
  intros ->. by apply elem_of_nil in Hin.
Qed.

(** The reducer gets the key of the piece that was fetched from another
    worker. *)
Lemma prepare_input_data_remote_mapper_keys_witness :
  Cases.prepare_reduce.1 = Ok (Some [Processor.TupleKey "M2" 0]) /\
  exists chunk data_keys,
    chunk ∈ chunks (chunk_graph Cases.subtask_reduce) /\
    kind (op chunk) = FetchShuffle /\
    Cases.reduce_data_keys !! key chunk = Some data_keys.
Proof.
  assert (Hres : Cases.prepare_reduce.1 = Ok (Some [Processor.TupleKey "M2" 0]))
    by (by vm_compute).
  split; [exact Hres |].
  destruct (prepare_input_data_remote_mapper_keys "worker" Cases.no_gpu
              Cases.reduce_data_keys Cases.subtask_reduce "numa-0"
              Cases.storage_fetches [] _ Hres)
    as (_ & chunk & dk & Hc & Hk & _ & Hdk & _).
  by exists chunk, dk.
Defined.

End PrepareFacts.

(** ** [_collect_input_sizes] *)

Module CollectFacts.
Import Execution Estimator Coordinator MonadFacts.

(** [level & MEMORY] on the levels joined by [|] is true exactly when it
    is for one of them. *)
Lemma land_lor_nonzero (a b m : Z) :
  Z.land (Z.lor a b) m <> 0 <-> Z.land a m <> 0 \/ Z.land b m <> 0.
Proof.
  rewrite Z.land_lor_distr_l. split.
  - intros H. destruct (decide (Z.land a m = 0)) as [Ha | Ha]; [| by left].
    right. intros Hb. apply H. rewrite Ha, Hb. reflexivity.
  - intros H Hz. apply Z.lor_eq_0_iff in Hz as [Ha Hb]. tauto.
Qed.

Lemma reduce_or_shared (MEMORY : Z) (first : Z) (others : list Z) :
  Z.land (reduce_or (first, others)) MEMORY <> 0 <->
  exists level, level ∈ first :: others /\ Z.land level MEMORY <> 0.
Proof.
  unfold reduce_or. simpl. revert first.
  induction others as [| l others IH]; intros first; simpl.
  - split.
    + intros H. exists first. split; [apply list_elem_of_here | done].
    + intros (level & Hin & H). by apply list_elem_of_singleton in Hin as ->.
  - rewrite IH. split.
    + intros (level & Hin & H). apply elem_of_cons in Hin as [-> | Hin].
      * apply land_lor_nonzero in H as [H | H].
        -- exists first. split; [apply list_elem_of_here | done].
        -- exists l. split; [apply list_elem_of_further, list_elem_of_here | done].
      * exists level. split; [by do 2 apply list_elem_of_further | done].
    + intros (level & Hin & H).
      apply elem_of_cons in Hin as [-> | Hin];
        [| apply elem_of_cons in Hin as [-> | Hin]].
      * exists (Z.lor first l). split; [apply list_elem_of_here |].
        apply land_lor_nonzero. by left.
      * exists (Z.lor first l). split; [apply list_elem_of_here |].
        apply land_lor_nonzero. by right.
      * exists level. split; [by apply list_elem_of_further | done].
Qed.

Section Collect.
Variable address : string.
Variable MEMORY : Z.

Abbreviation triple := (string * chunk_meta * (Z * list Z))%type.

Definition insert_size (sizes : size_ctx) (t : triple) : size_ctx :=
  <[t.1.1 := size_entry MEMORY t.1.2 t.2]> sizes.

Lemma collect_sizes_fold keys metas infos :
  collect_sizes MEMORY keys metas infos
  = foldl insert_size ∅ (zip (zip keys metas) infos).
Proof.
  unfold collect_sizes. generalize (∅ : size_ctx).
  induction (zip (zip keys metas) infos) as [| [[k m] i] ts IH]; intros acc;
    [done | apply IH].
Qed.

Lemma fold_insert_lookup (ts : list triple) (acc : size_ctx) (k : string) (v : Z * Z) :
  NoDup (map (fun t : triple => t.1.1) ts) ->
  foldl insert_size acc ts !! k = Some v <->
  (exists meta infos, (k, meta, infos) ∈ ts /\ v = size_entry MEMORY meta infos) \/
  ((forall meta infos, (k, meta, infos) ∉ ts) /\ acc !! k = Some v).
Proof.
  revert acc. induction ts as [| [[k0 m0] i0] ts IH]; intros acc Hnd; simpl.
  { split; [intros H; right; split; [| done] | intros [(m & i & H & _) | [_ H]]].
    - intros m i Hin. by apply elem_of_nil in Hin.
    - by apply elem_of_nil in H.
    - done. }
  apply NoDup_cons in Hnd as [Hnot Hnd]. rewrite (IH _ Hnd). clear IH.
  unfold insert_size at 1. simpl. split.
  - intros [(m & i & Hin & ->) | [Hno Hacc]].
    + left. exists m, i. split; [by apply list_elem_of_further | done].
    + destruct (decide (k0 = k)) as [-> | Hne].
      * rewrite lookup_insert_eq in Hacc. inversion Hacc.
        left. exists m0, i0. split; [apply list_elem_of_here | done].
      * rewrite lookup_insert_ne in Hacc by done.
        right. split; [| done]. intros m i Hin.
        apply elem_of_cons in Hin as [Hin | Hin]; [by inversion Hin |].
        by apply (Hno m i).
  - intros [(m & i & Hin & ->) | [Hno Hacc]].
    + apply elem_of_cons in Hin as [Hin | Hin].
      * inversion Hin; subst. right. split; [| by rewrite lookup_insert_eq].
        intros m' i' Hin'. apply Hnot.
        apply list_elem_of_fmap. by exists (k0, m', i').
      * left. by exists m, i.
    + right. split.
      * intros m i Hin. apply (Hno m i). by apply list_elem_of_further.
      * rewrite lookup_insert_ne; [done |]. intros ->.
        apply (Hno m0 i0). apply list_elem_of_here.
Qed.

Lemma zip3_keys (keys : list string) (metas : list chunk_meta)
    (infos : list (Z * list Z)) (k : string) :
  k ∈ map (fun t : triple => t.1.1) (zip (zip keys metas) infos) -> k ∈ keys.
Proof.
  intros Hin. apply list_elem_of_fmap in Hin as ([[k' m] i] & -> & Hin).
  apply elem_of_lookup_zip_with in Hin as (n & [k1 m1] & i1 & Heq & Hkm & _).
  inversion Heq; subst.
  apply lookup_zip_Some in Hkm as [Hk _]. simpl.
  by eapply list_elem_of_lookup_2.
Qed.

Lemma zip3_NoDup (keys : list string) (metas : list chunk_meta)
    (infos : list (Z * list Z)) :
  NoDup keys -> NoDup (map (fun t : triple => t.1.1) (zip (zip keys metas) infos)).
Proof.
  revert metas infos. induction keys as [| k keys IH]; intros metas infos Hnd.
  { constructor. }
  destruct metas as [| m metas]; [constructor |].
  destruct infos as [| i infos]; [constructor |].
  apply NoDup_cons in Hnd as [Hnot Hnd]. simpl. apply NoDup_cons. split.
  - intros Hin. apply Hnot. by eapply zip3_keys.
  - by apply IH.
Qed.

(** The entries of the dict that the loop builds. *)
Lemma collect_sizes_lookup keys metas infos (k : string) (v : Z * Z) :
  NoDup keys ->
  collect_sizes MEMORY keys metas infos !! k = Some v <->
  exists i meta levels,
    keys !! i = Some k /\ metas !! i = Some meta /\ infos !! i = Some levels /\
    v = size_entry MEMORY meta levels.
Proof.
  intros Hnd. rewrite collect_sizes_fold.
  rewrite fold_insert_lookup by by apply zip3_NoDup. split.
  - intros [(m & l & Hin & ->) | [_ H]]; [| by rewrite lookup_empty in H].
    apply elem_of_lookup_zip_with in Hin as (n & [k1 m1] & i1 & Heq & Hkm & Hi).
    inversion Heq; subst. apply lookup_zip_Some in Hkm as [Hk Hm].
    by eexists n, _, _.
  - intros (i & m & l & Hk & Hm & Hl & ->). left. exists m, l. split; [| done].
    apply (elem_of_lookup_zip_with_2 pair (zip keys metas) infos (k, m) l
             (k, m, l) i); [| done].
    by apply lookup_zip_Some.
Qed.

(** The keys that are asked about. *)
Lemma fetch_keys_spec (subtask : Subtask) (k : string) :
  k ∈ fetch_keys subtask <->
  exists n, n ∈ iter_indep (chunk_graph subtask) /\ key n = k /\
            is_Fetch (op n) = true /\ (k ∉ pure_depend_keys subtask).
Proof.
  unfold fetch_keys. rewrite elem_of_remove_dups, list_elem_of_fmap. split.
  - intros (n & -> & Hn). apply list_elem_of_filter in Hn as [Hp Hn].
    exists n. split; [done |]. split; [done |].
    apply Is_true_true, andb_true_iff in Hp as [Hf Hpure]. split; [done |].
    apply negb_true_iff, bool_decide_eq_false in Hpure. done.
  - intros (n & Hn & <- & Hf & Hpure). exists n. split; [done |].
    apply list_elem_of_filter. split; [| done].
    apply Is_true_true, andb_true_iff. split; [done |].
    by apply negb_true_iff, bool_decide_eq_false.
Qed.

(** What [_collect_input_sizes] returns, in terms of the answers. *)
Lemma collect_input_sizes_returns e subtask supervisor band (a a' : actor) sizes :
  _collect_input_sizes address MEMORY e subtask supervisor band a = (Ok sizes, a') ->
  (fetch_keys subtask = [] /\ sizes = ∅ /\ a' = a) \/
  exists metas infos,
    fetch_keys subtask <> [] /\
    answer (on_get_chunk_meta e (fetch_keys subtask)) = Ok metas /\
    answer (on_get_infos e (fetch_keys subtask)) = Ok infos /\
    sizes = collect_sizes MEMORY (fetch_keys subtask) metas infos.
Proof.
  unfold _collect_input_sizes.
  destruct (fetch_keys subtask) as [| k keys] eqn:Hkeys.
  { intros H. inversion H. by left. }
  unfold bind, aawait, ret.
  destruct (answer (on_create_StorageAPI e)) as [[] | ?]; [| done].
  destruct (answer (on_create_MetaAPI e)) as [[] | ?]; [| done].
  destruct (answer (on_get_chunk_meta e (k :: keys))) as [metas | ?]; [| done].
  destruct (answer (on_get_infos e (k :: keys))) as [infos | ?]; [| done].
  intros H. inversion H. right. by exists metas, infos.
Qed.
End Collect.

(** X8. Every entry [key -> (store_size, mem_cost)] of the dict that
    [_collect_input_sizes] returns is made, for a position of the listing of
    the keys to fetch, from the meta and the infos answered at that
    position: [store_size] is the meta's, and [mem_cost] is
    [max(0, memory_size - store_size)] when one of the infos has the bit
    [MEMORY] in its level and [memory_size] otherwise.  The key is the key
    of a [Fetch] chunk without predecessors that is not among the
    [pure_depend_keys]. *)
Theorem collect_input_sizes_entry address MEMORY e subtask supervisor band
    (a a' : actor) sizes (k : string) (v : Z * Z) :
  _collect_input_sizes address MEMORY e subtask supervisor band a = (Ok sizes, a') ->
  sizes !! k = Some v ->
  exists i metas infos meta first others,
    answer (on_get_chunk_meta e (fetch_keys subtask)) = Ok metas /\
    answer (on_get_infos e (fetch_keys subtask)) = Ok infos /\
    fetch_keys subtask !! i = Some k /\
    metas !! i = Some meta /\ infos !! i = Some (first, others) /\
    v.1 = store_size meta /\
    ((exists level, level ∈ first :: others /\ Z.land level MEMORY <> 0) ->
     v.2 = Z.max 0 (memory_size meta - store_size meta)) /\
    ((forall level, level ∈ first :: others -> Z.land level MEMORY = 0) ->
     v.2 = memory_size meta) /\
    exists n, n ∈ iter_indep (chunk_graph subtask) /\ key n = k /\
              is_Fetch (op n) = true /\ (k ∉ pure_depend_keys subtask).
Proof.
  intros Hrun Hk.
  apply collect_input_sizes_returns in Hrun
    as [(_ & -> & _) | (metas & infos & Hne & Hmetas & Hinfos & ->)].
  { by rewrite lookup_empty in Hk. }
  apply collect_sizes_lookup in Hk
    as (i & meta & [first others] & Hi & Hm & Hl & ->);
    [| apply NoDup_remove_dups].
  exists i, metas, infos, meta, first, others.
  repeat split; try done.
  - intros Hshared. apply (reduce_or_shared MEMORY) in Hshared.
    unfold size_entry. simpl. by rewrite bool_decide_eq_true_2.
  - intros Hnone. unfold size_entry. simpl.
    rewrite bool_decide_eq_false_2; [done |].
    intros Hshared. apply reduce_or_shared in Hshared as (level & Hin & Hbit).
    by apply Hbit, Hnone.
  - apply fetch_keys_spec. by eapply list_elem_of_lookup_2.
Qed.

(** Scenario 1, with A also in shared memory: its entry is (100, 100). *)
Lemma collect_input_sizes_entry_witness :
  let sizes : size_ctx := {[ "A" := (100, 100) ]} in
  ((Cases.collect_S true).1 = Ok sizes /\ sizes !! "A" = Some (100, 100)) /\
  exists meta,
    100 = store_size meta /\ 100 = Z.max 0 (memory_size meta - store_size meta).
Proof.
  intros sizes.
  assert (Hrun : Cases.collect_S true = (Ok sizes, (Cases.collect_S true).2))
    by (by vm_compute).
  assert (Hk : sizes !! "A" = Some (100, 100)) by (by vm_compute).
  split; [split; [by rewrite Hrun | exact Hk] |].
  destruct (collect_input_sizes_entry "worker" Cases.MEMORY (Cases.happy_actor true)
              (Scenarios.subtask_S true) "supervisor" "numa-0" (Cases.accepted 0)
              _ sizes "A" (100, 100) Hrun Hk)
    as (i & metas & infos & meta & first & others & Hm & Hi & Hkey & Hmeta & Hinfo
        & Hstore & Hshared & _).
  exists meta. split; [exact Hstore |]. apply Hshared.
  exists Cases.MEMORY. split; [| by vm_compute].
  assert (Hinfos : infos = [(Cases.DISK, [Cases.MEMORY])]).
  { vm_compute in Hi. by inversion Hi. }
  subst infos. destruct i as [| i]; [| by destruct i].
  inversion Hinfo. apply list_elem_of_further, list_elem_of_here.
Defined.

(** X9. When the meta service and the storage answer with one meta and one
    entry of infos for each key asked about, the dict that
    [_collect_input_sizes] returns has an entry for a key exactly when it is
    the key of a [Fetch] chunk without predecessors that is not among the
    [pure_depend_keys]. *)
Theorem collect_input_sizes_keys address MEMORY e subtask supervisor band
    (a a' : actor) sizes (k : string) :
  _collect_input_sizes address MEMORY e subtask supervisor band a = (Ok sizes, a') ->
  (forall metas infos,
     answer (on_get_chunk_meta e (fetch_keys subtask)) = Ok metas ->
     answer (on_get_infos e (fetch_keys subtask)) = Ok infos ->
     length metas = length (fetch_keys subtask) /\
     length infos = length (fetch_keys subtask)) ->
  is_Some (sizes !! k) <->
  exists n, n ∈ iter_indep (chunk_graph subtask) /\ key n = k /\
            is_Fetch (op n) = true /\ (k ∉ pure_depend_keys subtask).
Proof.
  intros Hrun Hlen. rewrite <- fetch_keys_spec.
  apply collect_input_sizes_returns in Hrun
    as [(Hnil & -> & _) | (metas & infos & Hne & Hmetas & Hinfos & ->)].
  { rewrite Hnil, lookup_empty. split; [by intros [? ?] |].
    intros Hin. by apply elem_of_nil in Hin. }
  destruct (Hlen metas infos Hmetas Hinfos) as [Hlm Hli]. split.
  - intros [v Hv]. apply collect_sizes_lookup in Hv as (i & _ & _ & Hi & _);
      [| apply NoDup_remove_dups].
    by eapply list_elem_of_lookup_2.
  - intros Hin. apply list_elem_of_lookup_1 in Hin as [i Hi].
    pose proof (lookup_lt_Some _ _ _ Hi) as Hlt.
    destruct (lookup_lt_is_Some_2 metas i) as [m Hm]; [lia |].
    destruct (lookup_lt_is_Some_2 infos i) as [l Hl]; [lia |].
    exists (size_entry MEMORY m l).
    apply collect_sizes_lookup; [apply NoDup_remove_dups |].
    by exists i, m, l.
Qed.

(** Scenario 1: A, the chunk that is fetched, has an entry. *)
Lemma collect_input_sizes_keys_witness :
  is_Some ((default ∅ (match (Cases.collect_S false).1 with
                       | Ok sizes => Some sizes
                       | Raise _ => None
                       end)) !! "A") <->
  exists n, n ∈ iter_indep (chunk_graph (Scenarios.subtask_S true)) /\ key n = "A" /\
            is_Fetch (op n) = true /\
            ("A" ∉ pure_depend_keys (Scenarios.subtask_S true)).
Proof.
  set (sizes := default ∅ _).
  assert (Hrun : Cases.collect_S false = (Ok sizes, (Cases.collect_S false).2))
    by (by vm_compute).
  apply (collect_input_sizes_keys "worker" Cases.MEMORY (Cases.happy_actor false)
           (Scenarios.subtask_S true) "supervisor" "numa-0" (Cases.accepted 0)
           _ sizes "A" Hrun).
  intros metas infos Hm Hi. vm_compute in Hm, Hi.
  inversion Hm. inversion Hi. by vm_compute.
Defined.

(** X10. For a subtask that has no [Fetch] chunk without predecessors
    outside its [pure_depend_keys], [_collect_input_sizes] returns the empty
    dict and asks neither the meta service nor the storage. *)
Theorem collect_input_sizes_nothing_to_fetch address MEMORY e subtask supervisor
    band (a : actor) :
  (forall n, n ∈ iter_indep (chunk_graph subtask) -> is_Fetch (op n) = true ->
             key n ∈ pure_depend_keys subtask) ->
  _collect_input_sizes address MEMORY e subtask supervisor band a = (Ok ∅, a).
Proof.
  intros Hnone. unfold _collect_input_sizes.
  destruct (fetch_keys subtask) as [| k keys] eqn:Hkeys; [done |].
  assert (Hin : k ∈ fetch_keys subtask) by (rewrite Hkeys; apply list_elem_of_here).
  apply fetch_keys_spec in Hin as (n & Hn & <- & Hf & Hpure).
  by specialize (Hnone n Hn Hf).
Qed.

(** The subtask whose only fetched chunk is a pure dependency. *)
Lemma collect_input_sizes_nothing_to_fetch_witness :
  _collect_input_sizes "worker" Cases.MEMORY (Cases.happy_actor false)
    Cases.subtask_pure_depend "supervisor" "numa-0" (Cases.accepted 0)
  = (Ok ∅, Cases.accepted 0).
Proof.
  apply collect_input_sizes_nothing_to_fetch.
  intros n Hn _. vm_compute in Hn.
  apply list_elem_of_singleton in Hn as ->. apply list_elem_of_here.
Defined.

(** X11. The sizes that [_collect_input_sizes] returns, given to
    [_estimate_sizes]: when no meta reports a negative [memory_size], no
    entry has a negative memory cost, and the peak that is estimated, which
    is the quota that the subtask will ask for, is at least the sum of the
    memory costs of the inputs and so not negative. *)
Theorem collected_sizes_peak address MEMORY e subtask supervisor band
    (a a' : actor) sizes (store peak : Z) :
  _collect_input_sizes address MEMORY e subtask supervisor band a = (Ok sizes, a') ->
  (forall metas,
     answer (on_get_chunk_meta e (fetch_keys subtask)) = Ok metas ->
     Forall (fun meta => 0 <= memory_size meta) metas) ->
  _estimate_sizes subtask sizes = Some (Ok (store, peak)) ->
  map_Forall (fun _ v => 0 <= v.2) sizes /\
  0 <= sum_values snd sizes <= peak.
Proof.
  intros Hrun Hpos Hest.
  assert (Hall : map_Forall (fun _ (v : Z * Z) => 0 <= v.2) sizes).
  { apply collect_input_sizes_returns in Hrun
      as [(_ & -> & _) | (metas & infos & Hne & Hmetas & Hinfos & ->)].
    { apply map_Forall_empty. }
    intros k v Hk.
    apply collect_sizes_lookup in Hk as (i & meta & levels & _ & Hm & _ & ->);
      [| apply NoDup_remove_dups].
    specialize (Hpos metas Hmetas). rewrite Forall_forall in Hpos.
    assert (0 <= memory_size meta) by (by eapply Hpos, list_elem_of_lookup_2).
    unfold size_entry. simpl. case_bool_decide; lia. }
  split; [done |]. split.
  - by apply EstimatorFacts.sum_values_nonneg.
  - by apply EstimatorFacts.estimate_sizes_peak_from_start in Hest.
Qed.

(** Scenario 1: A costs 200 bytes of memory, and the peak is 300. *)
Lemma collected_sizes_peak_witness :
  let sizes : size_ctx := {[ "A" := (100, 200) ]} in
  (Cases.collect_S false).1 = Ok sizes /\
  _estimate_sizes (Scenarios.subtask_S true) sizes = Some (Ok (100, 300)) /\
  0 <= sum_values snd sizes <= 300.
Proof.
  intros sizes.
  assert (Hrun : Cases.collect_S false = (Ok sizes, (Cases.collect_S false).2))
    by (by vm_compute).
  assert (Hest : _estimate_sizes (Scenarios.subtask_S true) sizes
                 = Some (Ok (100, 300))) by (by vm_compute).
  split; [by rewrite Hrun |]. split; [exact Hest |].
  destruct (collected_sizes_peak "worker" Cases.MEMORY (Cases.happy_actor false)
              (Scenarios.subtask_S true) "supervisor" "numa-0" (Cases.accepted 0)
              _ sizes 100 300 Hrun) as [_ H]; [| exact Hest | exact H].
  intros metas Hm. vm_compute in Hm. inversion Hm.
  repeat constructor; by vm_compute.
Defined.

End CollectFacts.

(** ** [internal_run_subtask] *)

Module InternalFacts.
Import Execution Estimator Coordinator PyFacts MonadFacts ExecutionFacts.

(** *** Statements that hold a loop *)

(** [osteps R m]: when [m] ends, it has taken the state to one related to
    it by [R]. *)
Definition osteps {W A} (R : relation W) (m : MO W A) : Prop :=
  forall w r w', m w = Some (r, w') -> R w w'.

(** [m] ends in every state. *)
Definition ends {W A} (m : MO W A) : Prop := forall w, is_Some (m w).

Section OSteps.
Context {W : Type}.
Variable R : relation W.
Context `{!PreOrder R}.

Lemma osteps_total {A} (m : M W A) : steps R m -> osteps R (total m).
Proof.
  intros Hm w r w' H. inversion H as [H1]. specialize (Hm w).
  by rewrite H1 in Hm.
Qed.

Lemma osteps_bind {A B} (m : MO W A) (k : A -> MO W B) :
  osteps R m -> (forall a, osteps R (k a)) -> osteps R (obind m k).
Proof.
  intros Hm Hk w r w'. unfold obind.
  destruct (m w) as [[[a | e] w1] |] eqn:Hmw; [| | done].
  - intros H. etransitivity; [by eapply Hm | by eapply Hk].
  - intros H. inversion H; subst. by eapply Hm.
Qed.

Lemma osteps_try_except {A} (m : MO W A) (h : exn -> MO W A) :
  osteps R m -> (forall e, osteps R (h e)) -> osteps R (otry_except m h).
Proof.
  intros Hm Hh w r w'. unfold otry_except.
  destruct (m w) as [[[a | e] w1] |] eqn:Hmw; [| | done].
  - intros H. inversion H; subst. by eapply Hm.
  - intros H. etransitivity; [by eapply Hm | by eapply Hh].
Qed.

Lemma osteps_try_finally {A} (m : MO W A) (fin : MO W unit) :
  osteps R m -> osteps R fin -> osteps R (otry_finally m fin).
Proof.
  intros Hm Hf w r w'. unfold otry_finally.
  destruct (m w) as [[r1 w1] |] eqn:Hmw; [| done].
  destruct (fin w1) as [[[[] | e] w2] |] eqn:Hfw; [| | done];
    intros H; inversion H; subst;
    (etransitivity; [by eapply Hm | by eapply Hf]).
Qed.
End OSteps.

Lemma ends_total {W A} (m : M W A) : ends (total m).
Proof. intros w. by eexists. Qed.

Lemma ends_bind {W A B} (m : MO W A) (k : A -> MO W B) :
  ends m -> (forall a, ends (k a)) -> ends (obind m k).
Proof.
  intros Hm Hk w. unfold obind. destruct (Hm w) as [[[a | e] w1] ->]; [apply Hk | done].
Qed.

Lemma ends_try_except {W A} (m : MO W A) (h : exn -> MO W A) :
  ends m -> (forall e, ends (h e)) -> ends (otry_except m h).
Proof.
  intros Hm Hh w. unfold otry_except.
  destruct (Hm w) as [[[a | e] w1] ->]; [done | apply Hh].
Qed.

Lemma ends_try_finally {W A} (m : MO W A) (fin : MO W unit) :
  ends m -> ends fin -> ends (otry_finally m fin).
Proof.
  intros Hm Hf w. unfold otry_finally.
  destruct (Hm w) as [[r1 w1] ->]. by destruct (Hf w1) as [[[[] | e] w2] ->].
Qed.

Lemma ends_zoom {A} (m : MO world A) : ends m -> ends (zoom m).
Proof. intros Hm a. unfold zoom. by destruct (Hm (current a)) as [[r w] ->]. Qed.

(** *** The two loops end *)

Lemma prepare_keeps_counters (e : actor_env) :
  keeps_counters (prepare_input_data_task e).
Proof. by intros w. Qed.

Lemma retry_run_subtask_ends subtask band address req env refs :
  ends (_retry_run_subtask subtask band address req env refs).
Proof.
  intros w. unfold _retry_run_subtask.
  destruct (get_refs_and_info subtask band refs w) as [[[] | e] w0]; [| done].
  unfold retry_or_run_once. destruct (retryable subtask).
  - destruct (retry_run_returns subtask "_run_subtask_once" _
                (run_subtask_once_keeps_counters subtask band address req env) w0)
      as [r ->]. done.
  - destruct (_run_subtask_once _ _ _ _ _ w0) as [[r | ex] w1]; [done |].
    by destruct (isinstance ex Exception).
Qed.

Lemma wait_for_ends {A} (timed_out : bool) (task : MO world A) :
  ends task -> ends (wait_for timed_out task).
Proof.
  intros Ht w. unfold wait_for. destruct (Ht w) as [[[v | ex] w1] ->]; [done |].
  by destruct (timed_out && _).
Qed.

Lemma to_thread_ends {A} (f : option (res A)) (r : reply unit) :
  is_Some f -> ends (to_thread f r).
Proof.
  intros [out ->] a. unfold to_thread. by destruct (answer r).
Qed.

(** *** What the loop of [_retry_run] keeps *)

Lemma retry_loop_steps {A} (R : relation world) `{!PreOrder R}
    (subtask : Subtask) (target_repr : string) (target : M world A) :
  steps R target ->
  (forall w, R w (set_info incr_num_retries w)) ->
  forall fuel w r w',
    retry_loop fuel subtask target_repr target w = Some (r, w') -> R w w'.
Proof.
  intros Ht Hincr. induction fuel as [| fuel IH]; intros w r w'; simpl; [done |].
  pose proof (Ht w) as Hw. destruct (target w) as [[v | ex] w1]; simpl in Hw.
  { intros H. by inversion H; subst. }
  unfold on_target_error.
  repeat match goal with
         | |- context [if ?b then _ else _] => destruct b
         end;
    try (intros H; inversion H; subst; exact Hw).
  intros H. apply IH in H. etransitivity; [exact Hw |].
  etransitivity; [apply Hincr | exact H].
Qed.

Lemma retry_run_steps {A} (R : relation world) `{!PreOrder R}
    (subtask : Subtask) (target_repr : string) (target : M world A) :
  steps R target ->
  (forall w, R w (set_info incr_num_retries w)) ->
  osteps R (_retry_run subtask target_repr target).
Proof.
  intros Ht Hincr w r w'. unfold _retry_run.
  destruct (negb _); [intros H; by inversion H |].
  destruct (negb _); [intros H; by inversion H |].
  by apply retry_loop_steps.
Qed.

Lemma retry_run_subtask_steps (R : relation world) `{!PreOrder R}
    subtask band address req env refs :
  steps R (get_refs_and_info subtask band refs) ->
  steps R (_run_subtask_once subtask band address req env) ->
  (forall w, R w (set_info incr_num_retries w)) ->
  osteps R (_retry_run_subtask subtask band address req env refs).
Proof.
  intros Hrefs Ht Hincr w r w'. unfold _retry_run_subtask.
  pose proof (Hrefs w) as Hw0.
  destruct (get_refs_and_info subtask band refs w) as [[[] | e] w0]; simpl in Hw0;
    [| intros H; by inversion H; subst].
  intros H. etransitivity; [exact Hw0 |]. revert H.
  unfold retry_or_run_once.
  destruct (retryable subtask); [by apply retry_run_steps |].
  pose proof (Ht w0) as Hw.
  destruct (_run_subtask_once _ _ _ _ _ w0) as [[v | ex] w1]; simpl in Hw.
  - intros H. by inversion H; subst.
  - destruct (isinstance ex Exception); intros H; by inversion H; subst.
Qed.

(** *** While the actor waits: the stages around the run of the subtask *)

(** Steps of the run that make no call to the quota or to the slot
    manager and enter no run: the log of these calls, the count of the runs
    and the result stay as they are, and [num_retries] can only grow, within
    [max_retries]. *)
Definition waits : relation world :=
  fun w w' =>
    calls w' = calls w /\ attempts w' = attempts w /\
    result (subtask_info w') = result (subtask_info w) /\
    supervisor_address (subtask_info w') = supervisor_address (subtask_info w) /\
    max_retries (subtask_info w') = max_retries (subtask_info w) /\
    num_retries (subtask_info w) <= num_retries (subtask_info w') /\
    (num_retries (subtask_info w) <= max_retries (subtask_info w) ->
     num_retries (subtask_info w') <= max_retries (subtask_info w)).

Global Instance waits_preorder : PreOrder waits.
Proof.
  split.
  - intros w. by repeat split.
  - intros w1 w2 w3 (C1 & A1 & R1 & S1 & M1 & N1 & B1) (C2 & A2 & R2 & S2 & M2 & N2 & B2).
    repeat split; try congruence; [lia |].
    intros H. rewrite M1 in B2. specialize (B1 H). lia.
Qed.

Lemma waits_mark (b : bool) (w : world) : waits w (mark_cancelling b w).
Proof. repeat split; simpl; lia. Qed.

Lemma prepare_waits (e : actor_env) : steps waits (prepare_input_data_task e).
Proof. intros w. apply waits_mark. Qed.

Lemma waits_retry (w w1 w2 : world) (ex : exn) subtask target_repr :
  waits w w1 ->
  on_target_error (A := option (list data_key)) subtask target_repr ex w1 = inr w2 ->
  waits w w2.
Proof.
  intros (C & A & R & S & M & N & B). unfold on_target_error.
  destruct (_ || _).
  - destruct (Z.ltb_spec (num_retries (subtask_info w1)) (max_retries (subtask_info w1)))
      as [Hlt | Hge]; [| by destruct (0 <? _)].
    intros H. inversion H; subst. repeat split; simpl; try done; lia.
  - destruct (isinstance ex CancelledError); [done |].
    destruct (isinstance ex Exception); [| done]. by destruct (0 <? _).
Qed.

Lemma prepare_loop_waits (e : actor_env) subtask target_repr fuel w0 w r w' :
  waits w0 w ->
  retry_loop fuel subtask target_repr (prepare_input_data_task e) w = Some (r, w') ->
  waits w0 w'.
Proof.
  revert w. induction fuel as [| fuel IH]; intros w Hw; simpl; [done |].
  assert (Hw1 : waits w0 (mark_cancelling
                           (cancelled_meanwhile
                              (on_prepare_input_data e (num_retries (subtask_info w))))
                           w)).
  { etransitivity; [exact Hw | apply waits_mark]. }
  unfold prepare_input_data_task at 1.
  destruct (answer _) as [v | ex].
  { intros H. by inversion H; subst. }
  destruct (on_target_error _ _ _ _) as [[r1 w1] | w2] eqn:Herr.
  - intros H. inversion H; subst.
    assert (w' = mark_cancelling
                   (cancelled_meanwhile
                      (on_prepare_input_data e (num_retries (subtask_info w)))) w)
      as ->; [| done].
    unfold on_target_error in Herr.
    repeat match type of Herr with
           | context [if ?b then _ else _] => destruct b
           end; by inversion Herr.
  - apply IH. by eapply waits_retry.
Qed.

Lemma prepare_stage_waits (e : actor_env) subtask :
  osteps waits
    (wait_for (data_prepare_timed_out e)
       (_retry_run subtask "_prepare_input_data" (prepare_input_data_task e))).
Proof.
  intros w r w'. unfold wait_for, _retry_run.
  assert (Hloop : forall fuel r w',
            retry_loop fuel subtask "_prepare_input_data"
              (prepare_input_data_task e) w = Some (r, w') -> waits w w').
  { intros fuel r0 w0. by apply prepare_loop_waits. }
  destruct (negb _).
  { destruct (_ && _); intros H; by inversion H. }
  destruct (negb _).
  { destruct (_ && _); intros H; by inversion H. }
  destruct (retry_loop _ _ _ _ w) as [[[v | ex] w1] |] eqn:Hrun; [| | done].
  - intros H. inversion H; subst. by eapply Hloop.
  - destruct (_ && _); intros H; inversion H; subst; by eapply Hloop.
Qed.

(** The same for the actor: the table stays as it is, and the calls that
    are added to its log are those of the stages before the run. *)
Definition is_early (c : acall) : bool :=
  match c with
  | create_StorageAPI _ _ _ | create_MetaAPI _ _ | get_chunk_meta_batch _
  | get_infos_batch _ | to_thread_estimate_sizes => true
  | remove_mapper_data_tell _ _ _ | get_slot_manager_ref _ | upload_slot_usages => false
  end.

Definition awaits : relation actor :=
  fun a a' =>
    _subtask_info a' = _subtask_info a /\
    waits (current a) (current a') /\
    exists evs, acalls a' = acalls a ++ evs /\ Forall (fun ev => is_early ev.1 = true) evs.

Global Instance awaits_preorder : PreOrder awaits.
Proof.
  split.
  - intros a. split; [done |]. split; [reflexivity |].
    exists []. by rewrite app_nil_r.
  - intros a1 a2 a3 (T1 & W1 & e1 & E1 & Q1) (T2 & W2 & e2 & E2 & Q2).
    split; [congruence |]. split; [by etransitivity |].
    exists (e1 ++ e2). rewrite E2, E1, app_assoc. split; [done |].
    by apply Forall_app.
Qed.

Lemma awaits_aawait {A} (c : acall) (r : reply A) :
  is_early c = true -> steps awaits (aawait c r).
Proof.
  intros Hc a. split; [done |]. split; [apply waits_mark |].
  exists [(c, is_ok (answer r))]. split; [done |]. by repeat constructor.
Qed.

Lemma awaits_zoom {A} (m : MO world A) : osteps waits m -> osteps awaits (zoom m).
Proof.
  intros Hm a r a'. unfold zoom.
  destruct (m (current a)) as [[r1 w1] |] eqn:Hrun; [| done].
  intros H. inversion H; subst. split; [done |]. split; [by eapply Hm |].
  exists []. by rewrite app_nil_r.
Qed.

Lemma collect_awaits address MEMORY e subtask supervisor band :
  steps awaits (_collect_input_sizes address MEMORY e subtask supervisor band).
Proof.
  unfold _collect_input_sizes.
  destruct (fetch_keys subtask); [apply (steps_ret awaits) |].
  repeat (apply (steps_bind awaits); [by apply awaits_aawait | intros ?]).
  apply (steps_ret awaits).
Qed.

Lemma to_thread_awaits {A} (f : option (res A)) (r : reply unit) :
  osteps awaits (to_thread f r).
Proof.
  intros a out a'. unfold to_thread.
  pose proof (awaits_aawait to_thread_estimate_sizes r eq_refl a) as Ha.
  destruct (answer r); [destruct f; [| done] |]; intros H; by inversion H; subst.
Qed.

(** *** The quota that a run asks for *)

(** A logged request for quota asks for [req]. *)
Definition asks_for (req : list (quota_key * Z)) (ev : call * bool) : Prop :=
  forall req', ev.1 = request_batch_quota req' -> req' = req.

Lemma run_subtask_once_asks subtask band address req env :
  steps (logs (asks_for req)) (_run_subtask_once subtask band address req env).
Proof.
  intros w. unfold _run_subtask_once.
  set (e := env (attempts w)). clearbody e. revert w.
  change (steps (logs (asks_for req))
    (modify enter_run_subtask_once ;;
     try_finally
       (try_except (try_block subtask band req e) (except_clauses band address e))
       (release_slot_and_quota subtask req e))).
  unfold try_block, run_in_slot, except_clauses, on_cancelled,
    on_os_or_mars_error, release_slot_and_quota.
  steps; intros w;
    first [ by (exists []; split; [by rewrite app_nil_r | constructor])
          | (eexists [_]; split; [reflexivity |]; repeat constructor;
             intros req' Heq; simpl in Heq; by inversion Heq) ].
Qed.

Lemma retry_run_subtask_asks subtask band address req env refs :
  osteps (logs (asks_for req))
         (_retry_run_subtask subtask band address req env refs).
Proof.
  apply retry_run_subtask_steps; [apply _ | | apply run_subtask_once_asks |].
  - unfold get_refs_and_info.
    steps; intros w;
      first [ by (exists []; split; [by rewrite app_nil_r | constructor])
            | (eexists [_]; split; [reflexivity |]; repeat constructor;
               intros req' Heq; simpl in Heq; by inversion Heq) ].
  - intros w. exists []. split; [by rewrite app_nil_r | constructor].
Qed.

(** The counts of [_retry_run_subtask]. *)
Lemma retry_run_subtask_counts subtask band address req env refs (w w' : world) r :
  0 <= num_retries (subtask_info w) ->
  num_retries (subtask_info w) <= max_retries (subtask_info w) ->
  _retry_run_subtask subtask band address req env refs w = Some (r, w') ->
  Z.of_nat (attempts w') - Z.of_nat (attempts w)
    <= num_retries (subtask_info w') - num_retries (subtask_info w) + 1 /\
  num_retries (subtask_info w) <= num_retries (subtask_info w') /\
  num_retries (subtask_info w') <= max_retries (subtask_info w) /\
  max_retries (subtask_info w') = max_retries (subtask_info w).
Proof.
  intros Hn Hle. unfold _retry_run_subtask.
  pose proof (get_refs_and_info_keeps_attempts subtask band refs w) as Hatt0.
  pose proof (get_refs_and_info_keeps_counters subtask band refs w) as Hc0.
  unfold keeps, counters in Hatt0, Hc0. injection Hc0 as Hnum0 Hmax0.
  destruct (get_refs_and_info subtask band refs w) as [[[] | e] w0]; simpl in *.
  2:{ intros Hr. injection Hr as <- <-. repeat split; lia. }
  rewrite <- Hatt0, <- Hnum0, <- Hmax0.
  assert (Hn0 : 0 <= num_retries (subtask_info w0)) by lia.
  assert (Hle0 : num_retries (subtask_info w0) <= max_retries (subtask_info w0))
    by lia.
  clear Hatt0 Hnum0 Hmax0 Hn Hle. unfold retry_or_run_once.
  destruct (retryable subtask).
  - intros Hrun.
    destruct (RetryFacts.retry_run_counts subtask band address req env w0 w' r Hn0
                Hle0 Hrun) as (Hatt & Hmono & Hmax & Hsame).
    repeat split; [lia | done | done | done].
  - pose proof (run_subtask_once_attempts subtask band address req env w0) as Hatt.
    destruct (run_subtask_once_keeps_counters subtask band address req env w0)
      as [Hnum Hmax].
    destruct (_run_subtask_once _ _ _ _ _ w0) as [[v | ex] w1]; simpl in *.
    + intros Hr. injection Hr as <- <-. repeat split; lia.
    + destruct (isinstance ex Exception); intros Hr; injection Hr as <- <-;
        repeat split; lia.
Qed.


(** The prepare stage when the deadline passes during the first call. *)
Lemma prepare_stage_timed_out (e : actor_env) subtask (w : world) (ex : exn) :
  0 <= num_retries (subtask_info w) ->
  0 <= max_retries (subtask_info w) ->
  data_prepare_timed_out e = true ->
  answer (on_prepare_input_data e (num_retries (subtask_info w))) = Raise ex ->
  isinstance ex CancelledError = true ->
  wait_for (data_prepare_timed_out e)
    (_retry_run subtask "_prepare_input_data" (prepare_input_data_task e)) w
  = Some (Raise (Exc TimeoutError "" []),
          mark_cancelling
            (cancelled_meanwhile
               (on_prepare_input_data e (num_retries (subtask_info w)))) w).
Proof.
  intros Hn Hm Htimed Hans Hc. unfold wait_for, _retry_run.
  destruct (Z.leb_spec 0 (num_retries (subtask_info w))); [| lia].
  destruct (Z.leb_spec 0 (max_retries (subtask_info w))); [| lia]. cbn [negb].
  cbn [retry_loop]. unfold prepare_input_data_task at 1. rewrite Hans.
  unfold on_target_error. rewrite (cancelled_not_retried ex Hc), Hc, Htimed.
  simpl. by rewrite Hc.
Qed.

Section Run.
Variable address : string.
Variable MEMORY : Z.
Variable subtask : Subtask.
Variable band_name : string.
Variable e : actor_env.

Abbreviation run_stages := (run_stages address MEMORY subtask band_name e).
Abbreviation internal_run_subtask :=
  (internal_run_subtask address MEMORY subtask band_name e).

Lemma run_stages_ends : ends run_stages.
Proof.
  unfold Coordinator.run_stages.
  apply ends_bind.
  { apply ends_zoom, wait_for_ends. intros w.
    destruct (retry_run_returns subtask "_prepare_input_data" _
                (prepare_keeps_counters e) w) as [r ->]. done. }
  intros keys. apply ends_bind; [apply ends_total |].
  intros supervisor. apply ends_bind; [apply ends_total |].
  intros sizes. apply ends_bind.
  { apply to_thread_ends.
    destruct (EstimatorFacts.estimate_sizes_returns subtask sizes) as [r ->]. done. }
  intros [store calc]. apply ends_bind; [apply ends_zoom, ends_total |].
  intros _. apply ends_bind.
  { intros a. apply (ends_zoom _ (retry_run_subtask_ends _ _ _ _ _ _)). }
  intros r. apply ends_bind; [apply ends_zoom, ends_total |].
  intros _. destruct keys as [[| k keys] |]; apply ends_total.
Qed.

Abbreviation prepare_stage :=
  (wait_for (data_prepare_timed_out e)
     (_retry_run subtask "_prepare_input_data" (prepare_input_data_task e))).

Abbreviation quota_request peak :=
  ([((session_id subtask, subtask_id subtask), peak)] : list (quota_key * Z)).

(** The stages before the run of the subtask, when each of them returned:
    the prepared inputs gave [keys], the sizes collected are [sizes], the
    peak estimated is [peak], and the info was not marked as cancelling. *)
Definition stages_passed (a0 : actor) (keys : option (list data_key)) (sizes : size_ctx)
    (peak : Z) (a4 : actor) : Prop :=
  exists w1 a2 store,
    prepare_stage (current a0) = Some (Ok keys, w1) /\
    _collect_input_sizes address MEMORY e subtask
      (supervisor_address (subtask_info w1)) band_name (set_current w1 a0)
    = (Ok sizes, a2) /\
    _estimate_sizes subtask sizes = Some (Ok (store, peak)) /\
    answer (on_to_thread e) = Ok tt /\
    a4 = (aawait to_thread_estimate_sizes (on_to_thread e) a2).2 /\
    cancelling (subtask_info (current a4)) = false.

(** The run of the subtask and what follows it in the [try] block. *)
Definition run_from (a4 : actor) (keys : option (list data_key)) (peak : Z)
    (r1 : res unit) (a1 : actor) : Prop :=
  exists r5 w5,
    _retry_run_subtask subtask band_name address (quota_request peak) (on_run e)
      (run_refs subtask e a4) (current a4) = Some (r5, w5) /\
    match r5 with
    | Raise ex => r1 = Raise ex /\ a1 = set_current w5 a4
    | Ok r_run =>
        let a6 := set_current (set_info (Execution.set_result r_run) w5) a4 in
        match keys with
        | Some (k :: ks) =>
            (r1, a1) = aawait (remove_mapper_data_tell (session_id subtask) band_name
                                 (k :: ks))
                              (on_remove_mapper_data e) a6
        | _ => r1 = Ok tt /\ a1 = a6
        end
    end.

Lemma stages_passed_awaits a0 keys sizes peak a4 :
  stages_passed a0 keys sizes peak a4 -> awaits a0 a4.
Proof.
  intros (w1 & a2 & store & Hprep & Hcoll & _ & _ & -> & _).
  assert (H1 : awaits a0 (set_current w1 a0)).
  { apply (awaits_zoom _ (prepare_stage_waits e subtask) a0 (Ok keys)).
    unfold zoom. by rewrite Hprep. }
  pose proof (collect_awaits address MEMORY e subtask
                (supervisor_address (subtask_info w1)) band_name
                (set_current w1 a0)) as H2.
  rewrite Hcoll in H2. simpl in H2.
  pose proof (awaits_aawait to_thread_estimate_sizes (on_to_thread e) eq_refl a2)
    as H3.
  etransitivity; [exact H1 |]. etransitivity; [exact H2 | exact H3].
Qed.

Lemma run_stages_inv (a0 : actor) (r1 : res unit) (a1 : actor) :
  run_stages a0 = Some (r1, a1) ->
  (is_ok r1 = false /\ awaits a0 a1) \/
  exists keys sizes peak a4,
    stages_passed a0 keys sizes peak a4 /\ run_from a4 keys peak r1 a1.
Proof.
  unfold Coordinator.run_stages. unfold obind at 1. unfold zoom at 1.
  destruct (prepare_stage (current a0)) as [[[keys | ex] w1] |] eqn:Hprep; [| | done].
  2:{ intros H. injection H as <- <-. left. split; [done |].
      apply (awaits_zoom _ (prepare_stage_waits e subtask) a0 (Raise ex)).
      unfold zoom. by rewrite Hprep. }
  assert (H1 : awaits a0 (set_current w1 a0)).
  { apply (awaits_zoom _ (prepare_stage_waits e subtask) a0 (Ok keys)).
    unfold zoom. by rewrite Hprep. }
  unfold obind at 1. unfold total at 1, gets at 1. cbn [current set_current].
  unfold obind at 1. unfold total at 1.
  pose proof (collect_awaits address MEMORY e subtask
                (supervisor_address (subtask_info w1)) band_name
                (set_current w1 a0)) as H2.
  destruct (_collect_input_sizes _ _ _ _ _ _ (set_current w1 a0))
    as [[sizes | ex] a2] eqn:Hcoll; simpl in H2.
  2:{ intros H. injection H as <- <-. left. split; [done |]. by etransitivity. }
  unfold obind at 1. unfold to_thread at 1.
  pose proof (awaits_aawait to_thread_estimate_sizes (on_to_thread e) eq_refl a2)
    as H3.
  remember ((aawait to_thread_estimate_sizes (on_to_thread e) a2).2) as a3 eqn:Ha3.
  assert (H13 : awaits a0 a3).
  { etransitivity; [exact H1 |]. by etransitivity. }
  destruct (answer (on_to_thread e)) as [[] | ex] eqn:Hthread.
  2:{ intros H. injection H as <- <-. left. by split. }
  destruct (_estimate_sizes subtask sizes) as [[[store peak] | ex] |] eqn:Hest;
    [| | done].
  2:{ intros H. injection H as <- <-. left. by split. }
  unfold obind at 1. unfold zoom at 1, total at 1.
  unfold _check_cancelling, bind, gets.
  destruct (cancelling (subtask_info (current a3))) eqn:Hcancel.
  { unfold raise. intros H. injection H as <- <-. left. split; [done |].
    by destruct a3. }
  unfold ret. cbn [fst snd].
  assert (Hsame : set_current (current a3) a3 = a3) by (by destruct a3).
  rewrite Hsame.
  intros Hrun. right. exists keys, sizes, peak, a3. split.
  { exists w1, a2, store. by repeat split. }
  revert Hrun. unfold obind at 1. unfold zoom at 1.
  destruct (_retry_run_subtask _ _ _ _ _ _ (current a3)) as [[[r_run | ex] w5] |]
    eqn:Hrun5; [| | done].
  2:{ intros H. injection H as <- <-. exists (Raise ex), w5. by split. }
  unfold obind at 1. unfold zoom at 1, total at 1, modify at 1.
  cbn [current set_current].
  intros H. exists (Ok r_run), w5. split; [done |]. cbn zeta.
  replace (set_current (set_info (Execution.set_result r_run) w5)
             (set_current w5 a3))
    with (set_current (set_info (Execution.set_result r_run) w5) a3) in H
    by (by destruct a3).
  destruct keys as [[| k ks] |]; unfold total, ret in H;
    injection H as <- <-; done.
Qed.


Lemma run_from_grows a4 keys peak r1 a1 :
  run_from a4 keys peak r1 a1 ->
  _subtask_info a1 = _subtask_info a4 /\
  exists evs,
    acalls a1 = acalls a4 ++ evs /\
    Forall (fun ev => exists keys ok,
              ev = (remove_mapper_data_tell (session_id subtask) band_name keys, ok))
           evs.
Proof.
  intros (r5 & w5 & _ & H). destruct r5 as [r_run | ex].
  2:{ destruct H as [_ ->]. split; [done |]. exists []. by rewrite app_nil_r. }
  cbn zeta in H. destruct keys as [[| k ks] |].
  - destruct H as [_ ->]. split; [done |]. exists []. by rewrite app_nil_r.
  - injection H as _ ->. split; [done |]. eexists [_]. split; [done |].
    repeat constructor. by eexists _, _.
  - destruct H as [_ ->]. split; [done |]. exists []. by rewrite app_nil_r.
Qed.

(** The result that [_fill_subtask_result_with_exception] leaves in the
    info. *)
Definition filled (ex : exn) (i : SubtaskExecutionInfo) : SubtaskResult :=
  result (_fill_subtask_result_with_exception (Some ex) i).

Lemma filled_result (ex : exn) (i i' : SubtaskExecutionInfo) :
  result i' = result i -> filled ex i' = filled ex i.
Proof.
  unfold filled, _fill_subtask_result_with_exception. intros H. cbv zeta.
  destruct (isinstance ex ExecutionError); [destruct (nested_error ex) |];
    simpl; by rewrite H.
Qed.

Lemma fill_num_retries (exc_info : option exn) (i : SubtaskExecutionInfo) :
  num_retries (_fill_subtask_result_with_exception exc_info i) = num_retries i.
Proof.
  unfold _fill_subtask_result_with_exception. cbv zeta.
  destruct exc_info as [ex |]; [| done].
  destruct (isinstance ex ExecutionError); [destruct (nested_error ex) |]; done.
Qed.

Lemma fill_max_retries (exc_info : option exn) (i : SubtaskExecutionInfo) :
  max_retries (_fill_subtask_result_with_exception exc_info i) = max_retries i.
Proof.
  unfold _fill_subtask_result_with_exception. cbv zeta.
  destruct exc_info as [ex |]; [| done].
  destruct (isinstance ex ExecutionError); [destruct (nested_error ex) |]; done.
Qed.

(** The state in which the [finally] block is entered. *)
Definition handled (r1 : res unit) (a1 : actor) : actor :=
  match r1 with
  | Ok _ => a1
  | Raise ex => (fill ex a1).2
  end.

Abbreviation upload_block :=
  (upload_slot_usages_block subtask band_name e).

Lemma upload_block_spec (a2 : actor) :
  let a3 := (upload_block a2).2 in
  let found := answer (on_get_slot_manager_ref e) in
  let uploaded := answer (on_upload_slot_usages e) in
  (upload_block a2).1 = Ok tt /\
  _subtask_info a3 = delete (subtask_id subtask) (_subtask_info a2) /\
  acalls a3 = acalls a2 ++
    (get_slot_manager_ref band_name, is_ok found)
    :: (if is_ok found then [(upload_slot_usages, is_ok uploaded)] else []) /\
  calls (current a3) = calls (current a2) /\
  attempts (current a3) = attempts (current a2) /\
  num_retries (subtask_info (current a3)) = num_retries (subtask_info (current a2)) /\
  max_retries (subtask_info (current a3)) = max_retries (subtask_info (current a2)) /\
  result (subtask_info (current a3)) =
    match found, uploaded with
    | Raise ex, _ => filled ex (subtask_info (current a2))
    | Ok _, Raise ex => filled ex (subtask_info (current a2))
    | Ok _, Ok _ => result (subtask_info (current a2))
    end.
Proof.
  unfold upload_slot_usages_block, try_finally, try_except, bind, aawait, fill,
    modify. cbv zeta.
  destruct (answer (on_get_slot_manager_ref e)) as [[] | ex1]; simpl.
  - destruct (answer (on_upload_slot_usages e)) as [[] | ex2]; simpl.
    + rewrite <- app_assoc. by repeat split.
    + rewrite <- app_assoc.
      repeat split; try done;
        [by rewrite fill_num_retries | by rewrite fill_max_retries
        | by apply filled_result].
  - repeat split; try done;
      [by rewrite fill_num_retries | by rewrite fill_max_retries
      | by apply filled_result].
Qed.

Lemma internal_run_subtask_unfold (a : actor) (info : SubtaskExecutionInfo) :
  _subtask_info a !! subtask_id subtask = Some info ->
  let a0 := set_current (new_world (Execution.set_result pending_result info)) a in
  exists r1 a1,
    run_stages a0 = Some (r1, a1) /\
    let a3 := (upload_block (handled r1 a1)).2 in
    internal_run_subtask a = Some (Ok (result (subtask_info (current a3))), a3).
Proof.
  intros Hinfo a0. unfold Coordinator.internal_run_subtask. rewrite Hinfo.
  destruct (run_stages_ends a0) as [[r1 a1] Hrun]. exists r1, a1.
  split; [done |]. cbv zeta.
  unfold obind at 1. unfold total at 1, modify at 1. fold a0.
  unfold obind at 1. unfold otry_finally, otry_except.
  fold (Coordinator.run_stages address MEMORY subtask band_name e). rewrite Hrun.
  destruct (upload_block_spec (handled r1 a1)) as (Hok & _).
  destruct r1 as [[] | ex]; unfold total at 1; simpl handled in *.
  - unfold total at 1. destruct (upload_block a1) as [[[] | ex] a3]; [done | done].
  - unfold fill at 1, modify at 1.
    unfold fill, modify in Hok. simpl in Hok.
    unfold total at 1.
    destruct (upload_block _) as [[[] | ex'] a3]; [done | done].
Qed.


(** The [try] block keeps the table and adds to the log of the actor the
    calls of the stages before the run and, at most, the request to remove
    mapper data. *)
Definition stage_call (ev : acall * bool) : Prop :=
  is_early ev.1 = true \/
  exists keys ok,
    ev = (remove_mapper_data_tell (session_id subtask) band_name keys, ok).

Lemma run_stages_grows (a0 : actor) (r1 : res unit) (a1 : actor) :
  run_stages a0 = Some (r1, a1) ->
  _subtask_info a1 = _subtask_info a0 /\
  exists evs, acalls a1 = acalls a0 ++ evs /\ Forall stage_call evs.
Proof.
  intros Hrun. apply run_stages_inv in Hrun
    as [[_ (Ht & _ & evs & Hevs & Hearly)]
       | (keys & sizes & peak & a4 & Hadm & Hfrom)].
  - split; [done |]. exists evs. split; [done |].
    eapply Forall_impl; [exact Hearly |]. intros ev H. by left.
  - apply stages_passed_awaits in Hadm as (Ht & _ & evs & Hevs & Hearly).
    apply run_from_grows in Hfrom as (Ht' & evs' & Hevs' & Htell).
    split; [congruence |]. exists (evs ++ evs').
    rewrite Hevs', Hevs, app_assoc. split; [done |].
    apply Forall_app. split.
    + eapply Forall_impl; [exact Hearly |]. intros ev H. by left.
    + eapply Forall_impl; [exact Htell |]. intros ev H. by right.
Qed.

Lemma handled_grows (r1 : res unit) (a1 : actor) :
  _subtask_info (handled r1 a1) = _subtask_info a1 /\
  acalls (handled r1 a1) = acalls a1 /\
  calls (current (handled r1 a1)) = calls (current a1) /\
  attempts (current (handled r1 a1)) = attempts (current a1) /\
  num_retries (subtask_info (current (handled r1 a1)))
    = num_retries (subtask_info (current a1)) /\
  max_retries (subtask_info (current (handled r1 a1)))
    = max_retries (subtask_info (current a1)).
Proof.
  destruct r1 as [[] | ex]; simpl; [done |].
  by rewrite fill_num_retries, fill_max_retries.
Qed.


Lemma run_from_current a4 keys peak r1 a1 :
  run_from a4 keys peak r1 a1 ->
  exists r5 w5,
    _retry_run_subtask subtask band_name address (quota_request peak) (on_run e)
      (run_refs subtask e a4) (current a4) = Some (r5, w5) /\
    calls (current a1) = calls w5 /\ attempts (current a1) = attempts w5 /\
    num_retries (subtask_info (current a1)) = num_retries (subtask_info w5) /\
    max_retries (subtask_info (current a1)) = max_retries (subtask_info w5).
Proof.
  intros (r5 & w5 & Hrun & H). exists r5, w5. split; [done |].
  destruct r5 as [r_run | ex]; [| by destruct H as [_ ->]].
  cbn zeta in H. destruct keys as [[| k ks] |].
  - by destruct H as [_ ->].
  - by injection H as _ ->.
  - by destruct H as [_ ->].
Qed.


Lemma run_refs_table (a a' : actor) :
  _subtask_info a' = _subtask_info a -> run_refs subtask e a' = run_refs subtask e a.
Proof. intros H. unfold run_refs. by rewrite H. Qed.

(** The [try] statement ends by returning, in the state in which the
    [finally] block is entered. *)
Lemma try_statement_returns (a0 : actor) (r1 : res unit) (a1 : actor) :
  run_stages a0 = Some (r1, a1) ->
  otry_except run_stages (fun ex => total (fill ex)) a0
  = Some (Ok tt, handled r1 a1).
Proof.
  intros Hrun. unfold otry_except. rewrite Hrun.
  destruct r1 as [[] | ex]; [done |]. reflexivity.
Qed.

Lemma retry_run_subtask_max req refs (w w' : world) r :
  _retry_run_subtask subtask band_name address req (on_run e) refs w
  = Some (r, w') ->
  max_retries (subtask_info w') = max_retries (subtask_info w).
Proof.
  apply (retry_run_subtask_steps (keeps (fun w => max_retries (subtask_info w)))).
  - intros w0.
    pose proof (get_refs_and_info_keeps_counters subtask band_name refs w0) as Hc.
    unfold keeps, counters in *. by injection Hc.
  - intros w0.
    apply (run_subtask_once_keeps_counters subtask band_name address req (on_run e)).
  - by intros w0.
Qed.

Lemma run_stages_max (a0 : actor) (r1 : res unit) (a1 : actor) :
  run_stages a0 = Some (r1, a1) ->
  max_retries (subtask_info (current a1)) = max_retries (subtask_info (current a0)).
Proof.
  intros Hrun. apply run_stages_inv in Hrun
    as [[_ (_ & Hw & _)] | (keys & sizes & peak & a4 & Hadm & Hfrom)].
  { by destruct Hw as (_ & _ & _ & _ & Hmax & _). }
  apply stages_passed_awaits in Hadm as (_ & (_ & _ & _ & _ & Hmax & _) & _).
  apply run_from_current in Hfrom as (r5 & w5 & Hrun5 & _ & _ & _ & Hmax5).
  apply retry_run_subtask_max in Hrun5. congruence.
Qed.

End Run.

(** The shape of a result that was filled from an exception. *)
Definition filled_from (ex : exn) (r : SubtaskResult) : Prop :=
  let exc := if isinstance ex ExecutionError
             then default ex (nested_error ex) else ex in
  error r = Some exc /\
  result_traceback r = Some (traceback_of exc) /\
  status r = (if isinstance exc CancelledError then cancelled else errored) /\
  progress r = 1%Qc.

Lemma filled_shape (ex : exn) (i : SubtaskExecutionInfo) :
  filled_from ex (filled ex i).
Proof.
  unfold filled_from, filled, _fill_subtask_result_with_exception. cbv zeta.
  destruct (isinstance ex ExecutionError) eqn:Hexec.
  - destruct (isinstance_ExecutionError_nested ex Hexec) as [n Hn].
    rewrite Hn. simpl. auto.
  - simpl. auto.
Qed.

Lemma filled_from_done (ex : exn) (r : SubtaskResult) :
  filled_from ex r -> status r = cancelled \/ status r = errored.
Proof. intros (_ & _ & Hs & _). rewrite Hs. destruct (isinstance _ _); auto. Qed.

(** How [internal_run_subtask] ends. *)
Lemma internal_run_subtask_ends address MEMORY subtask band_name e
    (a : actor) (info : SubtaskExecutionInfo) :
  _subtask_info a !! subtask_id subtask = Some info ->
  exists r a' evs,
    internal_run_subtask address MEMORY subtask band_name e a = Some (Ok r, a') /\
    r = result (subtask_info (current a')) /\
    _subtask_info a' = delete (subtask_id subtask) (_subtask_info a) /\
    Forall (stage_call subtask band_name) evs /\
    acalls a' = acalls a ++ evs ++
      (get_slot_manager_ref band_name, is_ok (answer (on_get_slot_manager_ref e)))
      :: (if is_ok (answer (on_get_slot_manager_ref e))
          then [(upload_slot_usages, is_ok (answer (on_upload_slot_usages e)))]
          else []) /\
    max_retries (subtask_info (current a')) = max_retries info.
Proof.
  intros Hinfo.
  destruct (internal_run_subtask_unfold address MEMORY subtask band_name e a info
              Hinfo) as (r1 & a1 & Hrun & Hres).
  cbv zeta in Hres.
  pose proof (run_stages_max _ _ _ _ _ _ _ _ Hrun) as Hmax0. simpl in Hmax0.
  apply run_stages_grows in Hrun as (Ht & evs & Hevs & Hstage).
  destruct (handled_grows r1 a1) as (Ht1 & Ha1 & _ & _ & _ & Hmax1).
  destruct (upload_block_spec subtask band_name e (handled r1 a1))
    as (_ & Ht3 & Ha3 & _ & _ & _ & Hmax3 & _).
  cbv zeta in Ht3, Ha3, Hmax3.
  eexists _, _, evs. split; [exact Hres |]. split; [done |].
  split; [by rewrite Ht3, Ht1, Ht |]. split; [done |].
  split; [by rewrite Ha3, Ha1, Hevs, <- app_assoc |].
  by rewrite Hmax3, Hmax1, Hmax0.
Qed.

(** X12. [internal_run_subtask], for a subtask that the table holds,
    raises nothing: whatever any of its stages raises, a cancellation
    included, the [try] statement ends by returning, and the function
    returns the result that the info holds at the end.  When it returns,
    the subtask is no longer in the table, and after its [try] statement
    the only calls it made, of all the calls of the run, are the look-up of
    the slot manager and, when that returned, one request to upload the slot
    usages. *)
Theorem internal_run_subtask_returns address MEMORY subtask band_name e
    (a : actor) (info : SubtaskExecutionInfo) :
  _subtask_info a !! subtask_id subtask = Some info ->
  let a0 := set_current (new_world (Execution.set_result pending_result info)) a in
  exists r a' a2,
    internal_run_subtask address MEMORY subtask band_name e a = Some (Ok r, a') /\
    r = result (subtask_info (current a')) /\
    _subtask_info a' = delete (subtask_id subtask) (_subtask_info a) /\
    otry_except (run_stages address MEMORY subtask band_name e)
                (fun ex => total (fill ex)) a0
    = Some (Ok tt, a2) /\
    calls (current a') = calls (current a2) /\
    acalls a' = acalls a2 ++
      (get_slot_manager_ref band_name, is_ok (answer (on_get_slot_manager_ref e)))
      :: (if is_ok (answer (on_get_slot_manager_ref e))
          then [(upload_slot_usages, is_ok (answer (on_upload_slot_usages e)))]
          else []).
Proof.
  intros Hinfo a0.
  destruct (internal_run_subtask_unfold address MEMORY subtask band_name e a info
              Hinfo) as (r1 & a1 & Hrun & Hres).
  cbv zeta in Hres. fold a0 in Hrun.
  pose proof (try_statement_returns address MEMORY subtask band_name e a0 r1 a1 Hrun)
    as Htry.
  apply run_stages_grows in Hrun as (Ht & _).
  destruct (handled_grows r1 a1) as (Ht1 & _).
  destruct (upload_block_spec subtask band_name e (handled r1 a1))
    as (_ & Ht3 & Ha3 & Hc3 & _).
  cbv zeta in Ht3, Ha3, Hc3.
  eexists _, _, (handled r1 a1). split; [exact Hres |]. split; [done |].
  split; [by rewrite Ht3, Ht1, Ht |]. split; [exact Htry |].
  split; [exact Hc3 | exact Ha3].
Qed.

(** Scenario 1: the subtask S ends with the result of its run, and the
    table is empty again. *)
Lemma internal_run_subtask_returns_witness :
  _subtask_info (Cases.accepted 0) !! "S"
  = Some (new_SubtaskExecutionInfo "numa-0" "supervisor" 0) /\
  exists a',
    Cases.run_S (Cases.happy_actor false) 0 = Some (Ok Scenarios.succeeded_result, a') /\
    _subtask_info a' = delete "S" (_subtask_info (Cases.accepted 0)).
Proof.
  assert (Hinfo : _subtask_info (Cases.accepted 0) !! "S"
                  = Some (new_SubtaskExecutionInfo "numa-0" "supervisor" 0))
    by (by vm_compute).
  split; [exact Hinfo |].
  destruct (internal_run_subtask_returns "worker" Cases.MEMORY
              (Scenarios.subtask_S true) "numa-0" (Cases.happy_actor false)
              (Cases.accepted 0) _ Hinfo) as (r & a' & a2 & Hres & _ & Ht & _).
  exists a'. split; [| exact Ht].
  assert (Hr : (Cases.ran_S (Cases.happy_actor false) 0).1
               = Ok Scenarios.succeeded_result) by (by vm_compute).
  unfold Cases.ran_S, Cases.run_S in *. rewrite Hres in Hr |- *. simpl in Hr.
  by rewrite Hr.
Defined.

(** X13. The result that [internal_run_subtask] returns is one of two: a
    result that [_retry_run_subtask] returned, and then the look-up of the
    slot manager and the upload of the slot usages returned; or a result
    filled from an exception, with that exception (the nested one for an
    [ExecutionError]) as its error, its traceback, progress 1.0 and the
    status [cancelled] for a cancellation and [errored] otherwise, so
    never [pending], [running] or [succeeded]. *)
Theorem internal_run_subtask_result address MEMORY subtask band_name e
    (a a' : actor) (info : SubtaskExecutionInfo) (r : SubtaskResult) :
  _subtask_info a !! subtask_id subtask = Some info ->
  internal_run_subtask address MEMORY subtask band_name e a = Some (Ok r, a') ->
  (exists ex, filled_from ex r /\ (status r = cancelled \/ status r = errored)) \/
  (exists peak w w',
     _retry_run_subtask subtask band_name address
       [((session_id subtask, subtask_id subtask), peak)] (on_run e)
       (run_refs subtask e a) w
     = Some (Ok r, w') /\
     answer (on_get_slot_manager_ref e) = Ok tt /\
     answer (on_upload_slot_usages e) = Ok tt).
Proof.
  intros Hinfo Hres.
  destruct (internal_run_subtask_unfold address MEMORY subtask band_name e a info
              Hinfo) as (r1 & a1 & Hrun & Hres').
  cbv zeta in Hres'. rewrite Hres' in Hres. injection Hres as <- <-. clear Hres'.
  destruct (upload_block_spec subtask band_name e (handled r1 a1))
    as (_ & _ & _ & _ & _ & _ & _ & Hr).
  cbv zeta in Hr. rewrite Hr. clear Hr.
  assert (Hleft : forall ex i,
            exists ex0, filled_from ex0 (filled ex i)
                        /\ (status (filled ex i) = cancelled
                            \/ status (filled ex i) = errored)).
  { intros ex i. exists ex. split; [apply filled_shape |].
    eapply filled_from_done, filled_shape. }
  destruct (answer (on_get_slot_manager_ref e)) as [[] | ex1]; [| left; apply Hleft].
  destruct (answer (on_upload_slot_usages e)) as [[] | ex2]; [| left; apply Hleft].
  destruct r1 as [[] | ex]; [| left; apply Hleft].
  simpl handled.
  apply run_stages_inv in Hrun
    as [[Hfalse _] | (keys & sizes & peak & a4 & Hadm & r5 & w5 & Hrun5 & Hafter)];
    [done |].
  destruct r5 as [r_run | ex]; [| by destruct Hafter].
  right. exists peak, (current a4), w5. split; [| done].
  apply stages_passed_awaits in Hadm as (Ht4 & _).
  rewrite (run_refs_table subtask e a a4 Ht4) in Hrun5.
  rewrite Hrun5. do 3 f_equal.
  cbn zeta in Hafter. destruct keys as [[| k ks] |].
  - by destruct Hafter as [_ ->].
  - by injection Hafter as _ ->.
  - by destruct Hafter as [_ ->].
Qed.

(** Scenario 1: the result is the one of the run. *)
Lemma internal_run_subtask_result_witness :
  let out := Cases.ran_S (Cases.happy_actor false) 0 in
  Cases.run_S (Cases.happy_actor false) 0 = Some (Ok Scenarios.succeeded_result, out.2) /\
  exists peak w w',
    _retry_run_subtask (Scenarios.subtask_S true) "numa-0" "worker"
      [(("sess", "S"), peak)] (fun _ => Scenarios.happy) Scenarios.refs_found w
    = Some (Ok Scenarios.succeeded_result, w').
Proof.
  intros out.
  assert (Hout : Cases.run_S (Cases.happy_actor false) 0
                 = Some (Ok Scenarios.succeeded_result, out.2)) by (by vm_compute).
  split; [exact Hout |].
  destruct (internal_run_subtask_result "worker" Cases.MEMORY
              (Scenarios.subtask_S true) "numa-0" (Cases.happy_actor false)
              (Cases.accepted 0) out.2 _ Scenarios.succeeded_result
              (eq_refl : _subtask_info (Cases.accepted 0) !! "S" = Some _) Hout)
    as [(ex & _ & [Hs | Hs]) | (peak & w & w' & Hrun & _)];
    [discriminate | discriminate |].
  by exists peak, w, w'.
Defined.

(** X14. A failure of the upload of the slot usages overwrites the result:
    when the look-up of the slot manager or the call of [upload_slot_usages]
    raises, [internal_run_subtask] returns a result filled from that
    exception, whatever the run of the subtask gave, even a result with the
    status [succeeded]. *)
Theorem upload_failure_overwrites_result address MEMORY subtask band_name e
    (a a' : actor) (info : SubtaskExecutionInfo) (r : SubtaskResult) (ex : exn) :
  _subtask_info a !! subtask_id subtask = Some info ->
  internal_run_subtask address MEMORY subtask band_name e a = Some (Ok r, a') ->
  answer (on_get_slot_manager_ref e) = Raise ex \/
  (answer (on_get_slot_manager_ref e) = Ok tt /\
   answer (on_upload_slot_usages e) = Raise ex) ->
  filled_from ex r /\ status r <> succeeded.
Proof.
  intros Hinfo Hres Hfail.
  destruct (internal_run_subtask_unfold address MEMORY subtask band_name e a info
              Hinfo) as (r1 & a1 & Hrun & Hres').
  cbv zeta in Hres'. rewrite Hres' in Hres. injection Hres as <- <-. clear Hres'.
  destruct (upload_block_spec subtask band_name e (handled r1 a1))
    as (_ & _ & _ & _ & _ & _ & _ & Hr).
  cbv zeta in Hr. rewrite Hr. clear Hr.
  assert (Hfilled : forall i, filled_from ex (filled ex i)
                              /\ status (filled ex i) <> succeeded).
  { intros i. split; [apply filled_shape |].
    destruct (filled_from_done ex _ (filled_shape ex i)) as [-> | ->]; done. }
  destruct Hfail as [-> | [-> ->]]; apply Hfilled.
Qed.

(** Scenario 1 with a slot manager that fails to upload: the subtask ran
    and succeeded, and the result is [errored]. *)
Lemma upload_failure_overwrites_result_witness :
  let out := Cases.ran_S Cases.upload_fails 0 in
  (run_subtask_in_slot "numa-0" 7 "S", true) ∈ calls (current out.2) /\
  exists r, out.1 = Ok r /\ status r = errored /\ error r = Some Cases.upload_error.
Proof.
  intros out.
  assert (Hin : (run_subtask_in_slot "numa-0" 7 "S", true) ∈ calls (current out.2)).
  { vm_compute. repeat (first [apply list_elem_of_here | apply list_elem_of_further]). }
  split; [exact Hin |].
  set (r := match out.1 with Ok r => r | Raise _ => pending_result end).
  assert (Hout : Cases.run_S Cases.upload_fails 0 = Some (Ok r, out.2))
    by (by vm_compute).
  exists r. split; [by vm_compute |].
  destruct (upload_failure_overwrites_result "worker" Cases.MEMORY
              (Scenarios.subtask_S true) "numa-0" Cases.upload_fails
              (Cases.accepted 0) out.2 _ r Cases.upload_error
              (eq_refl : _subtask_info (Cases.accepted 0) !! "S" = Some _) Hout)
    as [(Herr & _ & Hst & _) _].
  - right. by split.
  - split; [exact Hst | exact Herr].
Defined.

(** X15. Every quota that a run of [internal_run_subtask] asks for is the
    peak that [_estimate_sizes] returned for the sizes that
    [_collect_input_sizes] returned, under the key of the subtask; it is at
    least the sum of the memory costs of these sizes.  A quota is asked
    for only when the sizes were collected and estimated. *)
Theorem quota_request_is_estimate address MEMORY subtask band_name e
    (a a' : actor) (info : SubtaskExecutionInfo) (r : SubtaskResult)
    (req : list (quota_key * Z)) (ok : bool) :
  _subtask_info a !! subtask_id subtask = Some info ->
  internal_run_subtask address MEMORY subtask band_name e a = Some (Ok r, a') ->
  (request_batch_quota req, ok) ∈ calls (current a') ->
  exists supervisor a_c a_c' sizes store peak,
    _collect_input_sizes address MEMORY e subtask supervisor band_name a_c
    = (Ok sizes, a_c') /\
    _estimate_sizes subtask sizes = Some (Ok (store, peak)) /\
    req = [((session_id subtask, subtask_id subtask), peak)] /\
    sum_values snd sizes <= peak.
Proof.
  intros Hinfo Hres Hin.
  destruct (internal_run_subtask_unfold address MEMORY subtask band_name e a info
              Hinfo) as (r1 & a1 & Hrun & Hres').
  cbv zeta in Hres'. rewrite Hres' in Hres. injection Hres as _ <-. clear Hres'.
  destruct (upload_block_spec subtask band_name e (handled r1 a1))
    as (_ & _ & _ & Hcalls & _).
  cbv zeta in Hcalls. rewrite Hcalls in Hin. clear Hcalls.
  destruct (handled_grows r1 a1) as (_ & _ & Hcalls & _). rewrite Hcalls in Hin.
  clear Hcalls.
  apply run_stages_inv in Hrun
    as [[_ (_ & (Hcalls & _) & _)] | (keys & sizes & peak & a4 & Hadm & Hfrom)].
  { rewrite Hcalls in Hin. by apply elem_of_nil in Hin. }
  apply run_from_current in Hfrom as (r5 & w5 & Hrun5 & Hcalls & _).
  rewrite Hcalls in Hin.
  apply retry_run_subtask_asks in Hrun5 as (evs & Hevs & Hasks).
  pose proof (stages_passed_awaits _ _ _ _ _ _ _ _ _ _ Hadm) as (_ & (Hcalls4 & _) & _).
  rewrite Hevs, Hcalls4 in Hin. simpl in Hin.
  rewrite Forall_forall in Hasks. specialize (Hasks _ Hin _ eq_refl).
  destruct Hadm as (w1 & a2 & store & _ & Hcoll & Hest & _).
  eexists _, _, _, sizes, store, peak. split; [exact Hcoll |].
  split; [done |]. split; [done |].
  by eapply EstimatorFacts.estimate_sizes_peak_from_start.
Qed.

(** Scenario 1: the quota asked for is the peak 300 estimated from the
    sizes of A. *)
Lemma quota_request_is_estimate_witness :
  let out := Cases.ran_S (Cases.happy_actor false) 0 in
  (request_batch_quota [(("sess", "S"), 300)], true) ∈ calls (current out.2) /\
  exists sizes store,
    _estimate_sizes (Scenarios.subtask_S true) sizes = Some (Ok (store, 300)) /\
    sum_values snd sizes <= 300.
Proof.
  intros out.
  assert (Hin : (request_batch_quota [(("sess", "S"), 300)], true)
                ∈ calls (current out.2)).
  { vm_compute. repeat (first [apply list_elem_of_here | apply list_elem_of_further]). }
  split; [exact Hin |].
  assert (Hout : Cases.run_S (Cases.happy_actor false) 0
                 = Some (Ok Scenarios.succeeded_result, out.2)) by (by vm_compute).
  destruct (quota_request_is_estimate "worker" Cases.MEMORY
              (Scenarios.subtask_S true) "numa-0" (Cases.happy_actor false)
              (Cases.accepted 0) out.2 _ Scenarios.succeeded_result _ true
              (eq_refl : _subtask_info (Cases.accepted 0) !! "S" = Some _) Hout Hin)
    as (sup & a_c & a_c' & sizes & store & peak & _ & Hest & Hreq & Hle).
  injection Hreq as <-. exists sizes, store. split; [exact Hest | exact Hle].
Defined.



(** X17. When [data_prepare_timeout] elapses during the first call of
    [_prepare_input_data], so that the prepare task ends by the cancellation
    that [asyncio.wait_for] sent to it, the subtask is not retried and ends
    [errored], not [cancelled], with an [asyncio.TimeoutError] as its error;
    no quota and no slot was asked for. *)
Theorem data_prepare_timeout_errored address MEMORY subtask band_name e
    (a a' : actor) (info : SubtaskExecutionInfo) (r : SubtaskResult) (ex : exn) :
  _subtask_info a !! subtask_id subtask = Some info ->
  0 <= num_retries info ->
  0 <= max_retries info ->
  data_prepare_timed_out e = true ->
  answer (on_prepare_input_data e (num_retries info)) = Raise ex ->
  isinstance ex CancelledError = true ->
  answer (on_get_slot_manager_ref e) = Ok tt ->
  answer (on_upload_slot_usages e) = Ok tt ->
  internal_run_subtask address MEMORY subtask band_name e a = Some (Ok r, a') ->
  status r = errored /\ error r = Some (Exc TimeoutError "" []) /\
  progress r = 1%Qc /\
  calls (current a') = [] /\ attempts (current a') = 0%nat /\
  num_retries (subtask_info (current a')) = num_retries info.
Proof.
  intros Hinfo Hn Hm Htimed Hans Hc Hfound Hup Hres.
  destruct (internal_run_subtask_unfold address MEMORY subtask band_name e a info
              Hinfo) as (r1 & a1 & Hrun & Hres').
  cbv zeta in Hres'. rewrite Hres' in Hres. injection Hres as <- <-. clear Hres'.
  destruct (upload_block_spec subtask band_name e (handled r1 a1))
    as (_ & _ & _ & Hcalls & Hatt & Hnum & _ & Hr).
  cbv zeta in Hcalls, Hatt, Hnum, Hr. rewrite Hfound, Hup in Hr.
  rewrite Hr, Hcalls, Hatt, Hnum. clear Hr Hcalls Hatt Hnum.
  assert (Hstages : run_stages address MEMORY subtask band_name e
                      (set_current
                         (new_world (Execution.set_result pending_result info)) a)
                    = Some (Raise (Exc TimeoutError "" []),
                            set_current
                              (mark_cancelling
                                 (cancelled_meanwhile
                                    (on_prepare_input_data e (num_retries info)))
                                 (new_world (Execution.set_result pending_result info)))
                              a)).
  { unfold run_stages. unfold obind at 1. unfold zoom at 1. cbn [current set_current].
    by rewrite (prepare_stage_timed_out e subtask
                  (new_world (Execution.set_result pending_result info)) ex). }
  rewrite Hstages in Hrun. injection Hrun as <- <-.
  simpl handled. by repeat split.
Qed.

(** The deadline passes while the inputs of S are prepared. *)
Lemma data_prepare_timeout_errored_witness :
  let out := Cases.ran_S Cases.prepare_times_out 0 in
  exists r, out.1 = Ok r /\ status r = errored /\
            error r = Some (Exc TimeoutError "" []) /\ calls (current out.2) = [].
Proof.
  intros out.
  set (r := match out.1 with Ok r => r | Raise _ => pending_result end).
  assert (Hout : Cases.run_S Cases.prepare_times_out 0 = Some (Ok r, out.2))
    by (by vm_compute).
  exists r. split; [by vm_compute |].
  destruct (data_prepare_timeout_errored "worker" Cases.MEMORY
              (Scenarios.subtask_S true) "numa-0" Cases.prepare_times_out
              (Cases.accepted 0) out.2 _ r Scenarios.task_cancelled
              (eq_refl : _subtask_info (Cases.accepted 0) !! "S" = Some _))
    as (Hst & Herr & _ & Hcalls & _);
    [by vm_compute | by vm_compute | reflexivity | reflexivity | by vm_compute
    | reflexivity | reflexivity | exact Hout |].
  by repeat split.
Defined.

(** X18. The retries of the prepare stage and those of the run of the
    subtask draw on the same counter: at the end of [internal_run_subtask],
    for an info that starts with [0 <= num_retries <= max_retries],
    [num_retries] has not passed [max_retries], and the subtask was run at
    most once more than the number of retries made by both stages. *)
Theorem retries_shared_by_stages address MEMORY subtask band_name e
    (a a' : actor) (info : SubtaskExecutionInfo) (r : SubtaskResult) :
  _subtask_info a !! subtask_id subtask = Some info ->
  0 <= num_retries info ->
  num_retries info <= max_retries info ->
  internal_run_subtask address MEMORY subtask band_name e a = Some (Ok r, a') ->
  let w := current a' in
  num_retries info <= num_retries (subtask_info w) /\
  num_retries (subtask_info w) <= max_retries info /\
  max_retries (subtask_info w) = max_retries info /\
  Z.of_nat (attempts w) <= num_retries (subtask_info w) - num_retries info + 1.
Proof.
  intros Hinfo Hn Hle Hres.
  destruct (internal_run_subtask_unfold address MEMORY subtask band_name e a info
              Hinfo) as (r1 & a1 & Hrun & Hres').
  cbv zeta in Hres'. rewrite Hres' in Hres. injection Hres as _ <-. clear Hres'.
  destruct (upload_block_spec subtask band_name e (handled r1 a1))
    as (_ & _ & _ & _ & Hatt & Hnum & Hmax & _).
  destruct (handled_grows r1 a1) as (_ & _ & _ & Hatt1 & Hnum1 & Hmax1).
  cbv zeta in *. rewrite Hatt, Hnum, Hmax, Hatt1, Hnum1, Hmax1.
  clear Hatt Hnum Hmax Hatt1 Hnum1 Hmax1.
  apply run_stages_inv in Hrun
    as [[_ (_ & Hw & _)] | (keys & sizes & peak & a4 & Hadm & Hfrom)].
  { destruct Hw as (_ & Hatt & _ & _ & Hmax & Hmono & Hbound).
    simpl in Hatt, Hmax, Hmono, Hbound. rewrite Hatt, Hmax.
    specialize (Hbound Hle). repeat split; lia. }
  apply stages_passed_awaits in Hadm
    as (_ & (_ & Hatt & _ & _ & Hmax & Hmono & Hbound) & _).
  simpl in Hatt, Hmax, Hmono, Hbound. specialize (Hbound Hle).
  apply run_from_current in Hfrom as (r5 & w5 & Hrun5 & _ & Hatt5 & Hnum5 & Hmax5).
  rewrite Hatt5, Hnum5, Hmax5.
  apply retry_run_subtask_counts in Hrun5 as (Hc1 & Hc2 & Hc3 & Hc4); [| lia | lia].
  rewrite Hatt in Hc1. repeat split; lia.
Qed.

(** With [max_retries = 2], one retry of the prepare stage and one of the
    run: the subtask was run twice. *)
Lemma retries_shared_by_stages_witness :
  let out := Cases.ran_S Cases.fails_twice 2 in
  num_retries (subtask_info (current out.2)) = 2 /\
  Z.of_nat (attempts (current out.2)) <= 2 - 0 + 1.
Proof.
  intros out.
  assert (Hout : Cases.run_S Cases.fails_twice 2
                 = Some (Ok Scenarios.succeeded_result, out.2)) by (by vm_compute).
  assert (Hnum : num_retries (subtask_info (current out.2)) = 2) by (by vm_compute).
  split; [exact Hnum |].
  destruct (retries_shared_by_stages "worker" Cases.MEMORY
              (Scenarios.subtask_S true) "numa-0" Cases.fails_twice
              (Cases.accepted 2) out.2 _ Scenarios.succeeded_result
              (eq_refl : _subtask_info (Cases.accepted 2) !! "S" = Some _))
    as (_ & _ & _ & Hatt); [by vm_compute | by vm_compute | exact Hout |].
  rewrite Hnum in Hatt. exact Hatt.
Defined.

End InternalFacts.

(** ** [run_subtask] and [cancel_subtask] *)

Module RunSubtaskFacts.
Import Execution Estimator Coordinator PyFacts MonadFacts ExecutionFacts InternalFacts.

(** X19. [run_subtask] rejects a subtask whose id is in the table, by an
    exception and without touching anything.  For any other subtask it
    raises nothing, whatever the task of [internal_run_subtask] meets, its
    cancellation included: it returns the result that the info of the
    subtask holds at the end, the info was made with the number of retries
    chosen for the subtask, and the table is at the end what it was at the
    start. *)
Theorem run_subtask_accepts address MEMORY subtask band_name _subtask_max_retries
    extra_config e supervisor (a : actor) :
  match _subtask_info a !! subtask_id subtask with
  | Some _ =>
      run_subtask address MEMORY subtask band_name _subtask_max_retries extra_config
        e supervisor a
      = inl (already_running_message address subtask)
  | None =>
      exists r a',
        run_subtask address MEMORY subtask band_name _subtask_max_retries
          extra_config e supervisor a
        = inr (Some (Ok r, a')) /\
        r = result (subtask_info (current a')) /\
        max_retries (subtask_info (current a'))
        = subtask_max_retries _subtask_max_retries extra_config /\
        _subtask_info a' = _subtask_info a
  end.
Proof.
  unfold run_subtask.
  destruct (_subtask_info a !! subtask_id subtask) as [info |] eqn:Hinfo.
  { by rewrite bool_decide_eq_true_2. }
  rewrite bool_decide_eq_false_2 by (by intros [? ?]).
  unfold obind at 1. unfold total at 1, modify at 1.
  set (info := new_SubtaskExecutionInfo band_name supervisor
                 (subtask_max_retries _subtask_max_retries extra_config)).
  set (a0 := set_table _ a).
  destruct (internal_run_subtask_ends address MEMORY subtask band_name e a0 info)
    as (r & a' & evs & Hrun & Hr & Ht & _ & _ & Hmax).
  { apply lookup_insert_eq. }
  unfold obind at 1. rewrite Hrun.
  unfold obind, total, modify, ret.
  eexists _, _. split; [reflexivity |]. simpl.
  split; [done |]. split; [done |].
  rewrite Ht. simpl. rewrite delete_insert_id by done. by apply delete_id.
Qed.

(** X20. A negative number of retries, which the [extra_config] of a
    subtask can give, fails the subtask before anything is done for it: the
    assertion of [_retry_run] fails at the prepare stage, and [run_subtask]
    returns a result with the status [errored] and the [AssertionError] as
    its error; no quota and no slot was asked for. *)
Theorem run_subtask_negative_max_retries address MEMORY subtask band_name
    _subtask_max_retries extra_config e supervisor (a a' : actor)
    (r : SubtaskResult) :
  _subtask_info a !! subtask_id subtask = None ->
  subtask_max_retries _subtask_max_retries extra_config < 0 ->
  answer (on_get_slot_manager_ref e) = Ok tt ->
  answer (on_upload_slot_usages e) = Ok tt ->
  run_subtask address MEMORY subtask band_name _subtask_max_retries extra_config
    e supervisor a
  = inr (Some (Ok r, a')) ->
  status r = errored /\ error r = Some assertion_error /\
  calls (current a') = [] /\ attempts (current a') = 0%nat.
Proof.
  intros Hinfo Hneg Hfound Hup. unfold run_subtask.
  rewrite bool_decide_eq_false_2 by (rewrite Hinfo; by intros [? ?]).
  unfold obind at 1. unfold total at 1, modify at 1.
  set (info := new_SubtaskExecutionInfo band_name supervisor
                 (subtask_max_retries _subtask_max_retries extra_config)).
  set (a0 := set_table _ a).
  destruct (internal_run_subtask_unfold address MEMORY subtask band_name e a0 info)
    as (r1 & a1 & Hstages & Hrun).
  { apply lookup_insert_eq. }
  cbv zeta in Hrun. unfold obind at 1. rewrite Hrun.
  unfold obind, total, modify, ret. intros H. injection H as <- <-.
  cbn [current set_table].
  destruct (upload_block_spec subtask band_name e (handled r1 a1))
    as (_ & _ & _ & Hcalls & Hatt & _ & _ & Hr).
  cbv zeta in Hcalls, Hatt, Hr. rewrite Hfound, Hup in Hr.
  rewrite Hr, Hcalls, Hatt. clear Hr Hcalls Hatt Hrun.
  assert (Hfails : run_stages address MEMORY subtask band_name e
                     (set_current
                        (new_world (Execution.set_result pending_result info)) a0)
                   = Some (Raise assertion_error,
                           set_current
                             (new_world (Execution.set_result pending_result info))
                             a0)).
  { unfold run_stages. unfold obind at 1. unfold zoom at 1, wait_for at 1.
    unfold _retry_run at 1. cbn [current set_current].
    change (num_retries (subtask_info _)) with 0.
    change (max_retries (subtask_info _))
      with (subtask_max_retries _subtask_max_retries extra_config).
    destruct (Z.leb_spec 0 (subtask_max_retries _subtask_max_retries extra_config));
      [lia |].
    simpl. by rewrite andb_false_r. }
  rewrite Hfails in Hstages. injection Hstages as <- <-.
  by repeat split.
Qed.

(** The subtask S with [subtask_max_retries = -1] in its [extra_config]. *)
Lemma run_subtask_negative_max_retries_witness :
  let config : option (gmap string (option Z)) :=
    Some {[ "subtask_max_retries" := Some (-1) ]} in
  let a := {| _subtask_info := ∅; current := Scenarios.world_with 0; acalls := [] |} in
  let out := run_subtask "worker" Cases.MEMORY (Scenarios.subtask_S true) "numa-0" 0
               config (Cases.happy_actor false) "supervisor" a in
  subtask_max_retries 0 config < 0 /\
  exists r a', out = inr (Some (Ok r, a')) /\ status r = errored /\
               error r = Some assertion_error.
Proof.
  intros config a out.
  assert (Hneg : subtask_max_retries 0 config < 0) by (by vm_compute).
  split; [exact Hneg |].
  set (r := match out with
            | inr (Some (Ok r, _)) => r
            | _ => pending_result
            end).
  set (a' := match out with
             | inr (Some (_, a')) => a'
             | _ => a
             end).
  assert (Hout : out = inr (Some (Ok r, a'))) by (by vm_compute).
  exists r, a'. split; [exact Hout |].
  destruct (run_subtask_negative_max_retries "worker" Cases.MEMORY
              (Scenarios.subtask_S true) "numa-0" 0 config (Cases.happy_actor false)
              "supervisor" a a' r) as (Hst & Herr & _);
    [reflexivity | exact Hneg | reflexivity | reflexivity | exact Hout |].
  by split.
Defined.

(** X21. The first request to cancel a subtask that the table holds marks
    its info as cancelling, with the kill timeout given, or with none when
    the actor does not kill slots, and cancels its task; a later request for
    the same subtask changes nothing, so that the kill timeout of the first
    request stays, and does not cancel the task again.  A request for a
    subtask that the table does not hold changes nothing.  No request
    touches the info of another subtask. *)
Theorem cancel_subtask_mark_once (_enable_kill_slot : bool) (subtask_id : string)
    (kill_timeout later_timeout : option Z)
    (table : gmap string SubtaskExecutionInfo) :
  let marked := cancel_subtask_mark _enable_kill_slot subtask_id kill_timeout table in
  cancel_subtask_mark _enable_kill_slot subtask_id later_timeout marked.1
  = (marked.1, false) /\
  (forall other, other <> subtask_id -> marked.1 !! other = table !! other) /\
  match table !! subtask_id with
  | None => marked = (table, false)
  | Some info =>
      if cancelling info then marked = (table, false)
      else
        marked.2 = true /\
        exists info',
          marked.1 !! subtask_id = Some info' /\
          cancelling info' = true /\
          Execution.kill_timeout info'
          = (if _enable_kill_slot then kill_timeout else None) /\
          set_kill_timeout (Execution.kill_timeout info)
            (set_cancelling (cancelling info) info')
          = info
  end.
Proof.
  unfold cancel_subtask_mark.
  destruct (table !! subtask_id) as [info |] eqn:Hinfo; simpl.
  2:{ rewrite Hinfo. by repeat split. }
  destruct (cancelling info) eqn:Hc; simpl.
  { rewrite Hinfo, Hc. by repeat split. }
  rewrite lookup_insert_eq. simpl. repeat split.
  - intros other Hne. by rewrite lookup_insert_ne.
  - eexists. split; [reflexivity |]. repeat split. destruct info. simpl in *.
    by subst.
Qed.

(** The claim C8 as it is worded, on the info of a subtask. *)
Definition retries_within_max (i : SubtaskExecutionInfo) : Prop :=
  num_retries i <= max_retries i.

(** The subtask S with [subtask_max_retries = -1] in its [extra_config]:
    [run_subtask] accepts it and makes its info with that number, unchecked;
    the execution, which the assertion of [_retry_run] fails, ends with a
    result, and the info holds [num_retries = 0] above [max_retries = -1]. *)
Lemma negative_max_retries_breaks_invariant :
  let config : option (gmap string (option Z)) :=
    Some {[ "subtask_max_retries" := Some (-1) ]} in
  let a := {| _subtask_info := ∅; current := Scenarios.world_with 0; acalls := [] |} in
  let out := run_subtask "worker" Cases.MEMORY (Scenarios.subtask_S true) "numa-0" 0
               config (Cases.happy_actor false) "supervisor" a in
  exists r a',
    out = inr (Some (Ok r, a')) /\
    num_retries (subtask_info (current a')) = 0 /\
    max_retries (subtask_info (current a')) = -1 /\
    ~ retries_within_max (subtask_info (current a')).
Proof.
  intros config a out.
  set (r := match out with
            | inr (Some (Ok r, _)) => r
            | _ => pending_result
            end).
  set (a' := match out with
             | inr (Some (_, a')) => a'
             | _ => a
             end).
  assert (Hout : out = inr (Some (Ok r, a'))) by (by vm_compute).
  assert (Hnum : num_retries (subtask_info (current a')) = 0) by (by vm_compute).
  assert (Hmax : max_retries (subtask_info (current a')) = -1) by (by vm_compute).
  exists r, a'. split; [exact Hout |]. split; [exact Hnum |]. split; [exact Hmax |].
  unfold retries_within_max. rewrite Hnum, Hmax. lia.
Qed.

End RunSubtaskFacts.

(** ** More on the processor *)

Module ProcessorRunFacts.
Import Processor PyFacts MonadFacts ProcessorFacts.

(** *** How [run] leaves the result *)

(** Steps that leave the status and the progress of the result alone. *)
Definition keeps_status : relation processor :=
  fun p p' =>
    status (result p') = status (result p) /\
    progress (result p') = progress (result p).

Global Instance keeps_status_preorder : PreOrder keeps_status.
Proof.
  split; [by intros p |].
  intros p1 p2 p3 [S1 P1] [S2 P2]. split; congruence.
Qed.

(** The result is final: a status that is done, and progress 1.0. *)
Definition final (p : processor) : Prop :=
  is_done (status (result p)) = true /\ progress (result p) = 1%Qc.

Ltac status_steps :=
  repeat lazymatch goal with
    | |- steps ?R (ret _) => apply (steps_ret R)
    | |- steps ?R (raise _) => apply (steps_raise R)
    | |- steps ?R (gets _) => apply (steps_gets R)
    | |- steps ?R (bind _ _) => apply (steps_bind R); [| intros ?]
    | |- steps ?R (try_finally _ _) => apply (steps_try_finally R)
    | |- steps ?R (try_except _ _) => apply (steps_try_except R); [| intros ?]
    | |- steps keeps_status (modify _) => by intros ?
    | |- steps keeps_status (lift _) => by intros ?
    | |- steps keeps_status (pawait _ _) => by intros ?
    | |- steps _ (if ?b then _ else _) => destruct b
    | |- steps _ (match ?x with _ => _ end) => destruct x
    end.

Section Run.
Variable e : proc_env.

Lemma unpin_data_keeps_status keys : steps keeps_status (_unpin_data e keys).
Proof. unfold _unpin_data. status_steps. Qed.

Lemma run_try_keeps_status : steps keeps_status (run_try e).
Proof.
  unfold run_try, run_loaded, _load_input_data, _store_meta, _unpin_data.
  status_steps.
Qed.

Lemma run_finally_keeps_status : steps keeps_status (run_finally e).
Proof. unfold run_finally, _unpin_data. status_steps. Qed.

(** The two [except] clauses leave a final result, and raise. *)
Lemma run_except_final (ex : exn) (p : processor) :
  final (run_except ex p).2 /\ (run_except ex p).1 = Raise ex /\
  status (result (run_except ex p).2)
  = (if isinstance ex CancelledError then cancelled else errored) /\
  (isinstance ex CancelledError = false ->
   error (result (run_except ex p).2)
   = (if isinstance ex ExecutionError then nested_error ex else Some ex)).
Proof.
  unfold run_except, done, final.
  destruct (isinstance ex CancelledError); [by repeat split |].
  unfold bind, modify, raise. simpl.
  destruct (isinstance ex ExecutionError); simpl; by repeat split.
Qed.

(** [done] on a result that is running or done already. *)
Lemma done_final (p : processor) :
  status (result p) <> pending -> final (done p).2.
Proof.
  intros Hs. unfold done, final, modify. simpl.
  case_bool_decide as Hr; simpl; [done |].
  split; [| done]. by destruct (status (result p)).
Qed.

Lemma final_kept (p p' : processor) : final p -> keeps_status p p' -> final p'.
Proof. intros [Hd Hp] [Hs Hpr]. split; congruence. Qed.

(** The part of [run] after [done]. *)
Definition report_and_return : M processor SubtaskResult :=
  try_except
    (pawait await_report_progress (on_report_progress e))
    (fun ex => if isinstance ex CancelledError then ret tt else raise ex) ;;
  gets Processor.result.

Lemma report_and_return_spec (p : processor) :
  keeps_status p (report_and_return p).2 /\
  forall r, (report_and_return p).1 = Ok r -> r = Processor.result (report_and_return p).2.
Proof.
  unfold report_and_return, try_except, bind, pawait, gets, ret, raise.
  destruct (on_report_progress e) as [[] | ex]; simpl.
  - split; [done |]. intros r H. by injection H as <-.
  - destruct (isinstance ex CancelledError); simpl.
    + split; [done |]. intros r H. by injection H as <-.
    + split; [done |]. by intros r H.
Qed.

(** [run] from the state in which its [try] statement is entered. *)
Lemma run_unfold (p : processor) :
  run e p =
  (try_finally (try_except (run_try e) run_except) (run_finally e) ;;
   done ;; report_and_return)
    (set_unpinned false (set_input_keys None (set_result (set_status running) p))).
Proof. reflexivity. Qed.

(** The [try] statement of [run]: when it ends normally the [try] block
    returned, the status is still [running], and the [finally] block had
    nothing to unpin; when it ends by an exception the result is final. *)
Lemma run_try_statement (p0 : processor) :
  input_keys p0 = None ->
  status (Processor.result p0) = running ->
  let out := try_finally (try_except (run_try e) run_except) (run_finally e) p0 in
  match out.1 with
  | Ok _ => status (Processor.result out.2) = running /\
            exists p1, run_try e p0 = (Ok tt, p1)
  | Raise _ => final out.2
  end.
Proof.
  intros Hnone Hrunning. cbv zeta. unfold try_finally.
  pose proof (run_try_unpins e p0 Hnone) as Hunpin.
  unfold try_except in *.
  pose proof (run_try_keeps_status p0) as [Hs _].
  destruct (run_try e p0) as [[[] | ex] p1] eqn:Htry; simpl in Hs, Hunpin.
  - assert (Hfin : run_finally e p1 = (Ok tt, p1)).
    { unfold run_finally, bind, gets.
      destruct Hunpin as [(Hi & _) | (Hi & Hu & _)]; rewrite Hi; [done |].
      by rewrite Hu. }
    rewrite Hfin. simpl. split; [congruence | by exists p1].
  - destruct (run_except_final ex p1) as (Hfinal & Hraise & _).
    destruct (run_except ex p1) as [r2 p2]. simpl in *. subst r2.
    pose proof (run_finally_keeps_status p2) as Hk.
    destruct (run_finally e p2) as [[[] | ex3] p3]; simpl in *;
      exact (final_kept _ _ Hfinal Hk).
Qed.
End Run.

(** What follows the [try] statement of [run]. *)
Lemma run_tail (e : proc_env) (p1 : processor) :
  status (Processor.result p1) = running ->
  let out := (done ;; report_and_return e) p1 in
  final out.2 /\
  forall r, out.1 = Ok r -> r = Processor.result out.2 /\ status r = succeeded.
Proof.
  intros Hrunning. cbv zeta. unfold bind.
  assert (Hdone : done p1 = (Ok tt, (done p1).2)) by done.
  rewrite Hdone.
  assert (Hfinal : final (done p1).2
                   /\ status (Processor.result (done p1).2) = succeeded).
  { split; [apply done_final; by rewrite Hrunning |].
    unfold done, modify. simpl. by rewrite bool_decide_eq_true_2. }
  destruct Hfinal as [Hfinal Hsucc].
  destruct (report_and_return_spec e (done p1).2) as [Hk Hret].
  split; [exact (final_kept _ _ Hfinal Hk) |].
  intros r Hr. specialize (Hret r Hr). split; [done |].
  destruct Hk as [Hs _]. rewrite Hret. congruence.
Qed.

Lemma bind_unfold {W A B} (m : M W A) (k : A -> M W B) (w : W) :
  bind m k w = match m w with
               | (Ok a, w') => k a w'
               | (Raise ex, w') => (Raise ex, w')
               end.
Proof. reflexivity. Qed.

(** X22. However [run] ends, by returning or by an exception, a
    cancellation included, it leaves a final result: the status is
    [succeeded], [errored] or [cancelled], never [pending] or [running], and
    the progress is 1.0.  When it returns, what it returns is that result,
    and its status is [succeeded]. *)
Theorem run_leaves_final_result (e : proc_env) (p : processor) :
  let out := run e p in
  is_done (status (Processor.result out.2)) = true /\
  progress (Processor.result out.2) = 1%Qc /\
  forall r, out.1 = Ok r -> r = Processor.result out.2 /\ status r = succeeded.
Proof.
  cbv zeta. rewrite run_unfold.
  set (p0 := set_unpinned false _).
  pose proof (run_try_statement e p0 eq_refl eq_refl) as Htry.
  cbv zeta in Htry. rewrite bind_unfold.
  destruct (try_finally _ _ p0) as [[[] | ex] p1]; simpl in Htry.
  2:{ destruct Htry as [Hd Hp]. simpl. split; [done |]. split; [done |].
      intros r Hr. discriminate Hr. }
  destruct Htry as [Hrunning _].
  destruct (run_tail e p1 Hrunning) as [[Hd Hp] Hret]. cbv zeta in Hd, Hp, Hret.
  by repeat split; [| | apply Hret ..].
Qed.

(** X23. When the [try] block of [run] raises, [run] does not return: the
    result gets the status [cancelled] for a cancellation, and otherwise the
    status [errored] with, as its error, the exception itself, or for an
    [ExecutionError] the exception nested in it. *)
Theorem run_records_exception (e : proc_env) (p p1 : processor) (ex : exn) :
  run_try e (set_unpinned false (set_input_keys None
               (set_result (set_status running) p))) = (Raise ex, p1) ->
  let out := run e p in
  is_ok out.1 = false /\
  status (Processor.result out.2)
  = (if isinstance ex CancelledError then cancelled else errored) /\
  (isinstance ex CancelledError = false ->
   error (Processor.result out.2)
   = (if isinstance ex ExecutionError then nested_error ex else Some ex)).
Proof.
  intros Htry. cbv zeta. rewrite run_unfold.
  set (p0 := set_unpinned false _) in *.
  rewrite bind_unfold. unfold try_finally, try_except. rewrite Htry.
  destruct (run_except_final ex p1) as (_ & Hraise & Hstatus & Herror).
  destruct (run_except ex p1) as [r2 p2]. simpl in *. subst r2.
  assert (Hk : Processor.result (run_finally e p2).2 = Processor.result p2).
  { unfold run_finally, _unpin_data, bind, gets, modify, pawait, ret.
    destruct (input_keys p2); [| done]. destruct (unpinned p2); [done |]. simpl.
    destruct (unpins l); [| destruct (on_unpin_batch e); [| done]];
      (destruct (shuffle_unpins l); [done |]); by destruct (on_shuffle_unpin_batch e). }
  destruct (run_finally e p2) as [[[] | ex3] p3]; simpl in *; rewrite Hk;
    (split; [done |]); by split.
Qed.

(** Scenario 1 with a graph whose execution fails: the result is
    [errored], with the [ValueError] that was raised as its error. *)
Lemma run_records_exception_witness :
  let p := __init__ (Scenarios.subtask_S true) in
  let out := run Scenarios.proc_execute_fails p in
  status (Processor.result out.2) = errored /\
  error (Processor.result out.2) = Some (Exc ValueError "bad value" ["execute"]).
Proof.
  intros p out.
  set (ex := ExecErr (Exc ValueError "bad value" ["execute"]) ["execute"]).
  set (p0 := set_unpinned false (set_input_keys None
               (set_result (set_status running) p))).
  assert (Htry : run_try Scenarios.proc_execute_fails p0
                 = (Raise ex, (run_try Scenarios.proc_execute_fails p0).2))
    by (by vm_compute).
  destruct (run_records_exception Scenarios.proc_execute_fails p _ ex Htry)
    as (_ & Hst & Herr).
  split; [exact Hst | exact (Herr eq_refl)].
Defined.

(** *** The metas that [_store_meta] publishes *)

Section StoreMeta.
Variable data_key_to_store_size data_key_to_memory_size : dict Z.
Variable data_key_to_object_id : dict string.
Variable update_meta_chunks : list string.

Abbreviation step :=
  (store_meta_step data_key_to_store_size data_key_to_memory_size
     data_key_to_object_id update_meta_chunks).
Abbreviation loop :=
  (store_meta_loop data_key_to_store_size data_key_to_memory_size
     data_key_to_object_id update_meta_chunks).

(** What the loop has built: a meta with its object reference for each
    chunk met, in their order, for the supervisor; and for the worker a meta
    without object reference for those among them that are in
    [update_meta_chunks]. *)
Definition built (cs : list string) (acc : meta_acc) : Prop :=
  map mc_chunk_key (set_chunk_metas acc) = cs /\
  map mc_chunk_key (set_worker_chunk_metas acc)
  = filter (fun k => k ∈ update_meta_chunks) cs /\
  Forall (fun m => is_Some (mc_object_ref m)) (set_chunk_metas acc) /\
  Forall (fun m => mc_object_ref m = None) (set_worker_chunk_metas acc) /\
  set_meta_keys acc = cs.

Lemma store_meta_step_built cs acc acc' (c : Chunk) :
  built cs acc -> step acc c = Ok acc' -> built (cs ++ [key c]) acc'.
Proof.
  intros (Hm & Hw & Hrefs & Hnone & Hkeys). unfold store_meta_step, Estimator.rbind.
  destruct (if dict_has _ _ then _ else _) as [[[[ss ms] rds] oref] | ex]; [| done].
  intros H. injection H as <-. unfold built. simpl.
  rewrite map_app, filter_app, Hm, Hkeys. simpl. repeat split.
  - rewrite filter_cons, filter_nil. case_bool_decide as Hin.
    + rewrite decide_True by done. rewrite map_app, Hw. done.
    + rewrite decide_False by done. by rewrite app_nil_r.
  - apply Forall_app. split; [done |]. by repeat constructor.
  - case_bool_decide; [| done]. apply Forall_app. split; [done |].
    by repeat constructor.
Qed.

Lemma store_meta_loop_built (chunks : list Chunk) cs acc acc' :
  built cs acc -> loop acc chunks = Ok acc' -> built (cs ++ map key chunks) acc'.
Proof.
  revert cs acc. induction chunks as [| c chunks IH]; intros cs acc Hb; simpl.
  { intros H. injection H as <-. by rewrite app_nil_r. }
  unfold Estimator.rbind. destruct (step acc c) as [acc1 | ex] eqn:Hstep; [| done].
  intros Hloop. rewrite (cons_middle (key c)), app_assoc.
  eapply IH; [| exact Hloop]. by eapply store_meta_step_built.
Qed.
End StoreMeta.

(** X24. When [_store_meta] returns, for a graph with result chunks it has
    sent one pair of batches of metas: to the supervisor one meta for each
    result chunk, in their order, each with its object reference; to the
    worker one meta for each result chunk that is among
    [update_meta_chunks], without the object reference.  For a graph without
    result chunks it has sent nothing. *)
Theorem store_meta_publishes (e : proc_env) (chunk_graph : ChunkGraph)
    (data_key_to_store_size data_key_to_memory_size : dict Z)
    (data_key_to_object_id : dict string) (update_meta_chunks : list string)
    (p p' : processor) :
  _store_meta e chunk_graph data_key_to_store_size data_key_to_memory_size
    data_key_to_object_id update_meta_chunks p = (Ok tt, p') ->
  match result_chunks chunk_graph with
  | [] => pcalls p' = pcalls p
  | _ =>
      exists worker_metas metas,
        pcalls p' = pcalls p ++ [(set_chunk_meta_batches worker_metas metas, true)] /\
        map mc_chunk_key metas = map key (result_chunks chunk_graph) /\
        map mc_chunk_key worker_metas
        = filter (fun k => k ∈ update_meta_chunks)
                 (map key (result_chunks chunk_graph)) /\
        Forall (fun m => is_Some (mc_object_ref m)) metas /\
        Forall (fun m => mc_object_ref m = None) worker_metas
  end.
Proof.
  unfold _store_meta, bind, lift.
  destruct (store_meta_loop _ _ _ _ _ _) as [acc | ex] eqn:Hloop; [| done].
  apply (store_meta_loop_built _ _ _ _ _ []) in Hloop;
    [| by repeat split].
  destruct Hloop as (Hm & Hw & Hrefs & Hnone & _). simpl in Hm, Hw.
  destruct (set_chunk_metas acc) as [| m metas] eqn:Hmetas.
  - destruct (result_chunks chunk_graph); [| done].
    unfold ret, modify. intros H. by injection H as <-.
  - unfold pawait, modify.
    destruct (on_set_chunk_meta e) as [[] | ex]; [| done]. simpl.
    intros H. injection H as <-.
    destruct (result_chunks chunk_graph) as [| c cs] eqn:Hcs; [done |].
    by exists (set_worker_chunk_metas acc), (m :: metas).
Qed.

(** Scenario 1: the meta of B goes to the supervisor and to the worker. *)
Lemma store_meta_publishes_witness :
  let p := __init__ (Scenarios.subtask_S true) in
  let out := _store_meta Scenarios.proc_happy (Scenarios.graph_A_B true)
               [(StrKey "B", 150)] [(StrKey "B", 250)] [(StrKey "B", "obj-B")]
               ["B"] p in
  out.1 = Ok tt /\
  exists worker_metas metas,
    pcalls out.2 = [(set_chunk_meta_batches worker_metas metas, true)] /\
    map mc_chunk_key metas = ["B"] /\ map mc_chunk_key worker_metas = ["B"].
Proof.
  intros p out.
  assert (Hout : _store_meta Scenarios.proc_happy (Scenarios.graph_A_B true)
                   [(StrKey "B", 150)] [(StrKey "B", 250)] [(StrKey "B", "obj-B")]
                   ["B"] p = (Ok tt, out.2)) by (by vm_compute).
  split; [by vm_compute |].
  destruct (store_meta_publishes _ _ _ _ _ _ _ _ Hout)
    as (wm & m & Hcalls & Hm & Hw & _).
  by exists wm, m.
Defined.

(** *** One turn of the reporter of progress *)

(** X25. A turn of the loop of [report_progress_periodically] leaves the
    status as it is and never sets a progress above 1.0; it makes at most
    one call, the notification of the task manager with the result as it is
    after the turn, and only when the subtask is not done and the progress
    differs from the last one reported by at least [eps]. *)
Theorem report_progress_turn_notifies (e : proc_env) (eps last_progress : Qc)
    (p : processor) :
  (progress (Processor.result p) <= 1)%Qc ->
  let out := report_progress_turn e eps last_progress p in
  status (Processor.result out.2) = status (Processor.result p) /\
  (progress (Processor.result out.2) <= 1)%Qc /\
  (pcalls out.2 = pcalls p \/
   exists ok,
     pcalls out.2
     = pcalls p ++ [(notify_task_manager_result (Processor.result out.2), ok)] /\
     is_done (status (Processor.result out.2)) = false /\
     (eps <= Qc_abs (last_progress - progress (Processor.result out.2)))%Qc).
Proof.
  intros Hle. cbv zeta. unfold report_progress_turn, bind, gets, lift, ret, raise.
  destruct (is_done (status (Processor.result p))) eqn:Hdone; [by auto |].
  destruct (truediv _ _) as [progress | ex]; [| by auto].
  destruct (decide (progress <= 1)%Qc) as [Hp | Hp]; [| by auto].
  unfold modify. simpl.
  destruct (decide (eps <= Qc_abs (last_progress - progress))%Qc) as [Heps | Heps];
    [| by auto].
  simpl. rewrite Hdone. simpl. unfold pawait.
  destruct (on_notify e) as [[] | ex]; simpl;
    (split; [done |]); (split; [done |]); right; eexists; by repeat split.
Qed.

(** The subtask S while B is half computed: the change from 0 to 0.5 is
    reported. *)
Lemma report_progress_turn_notifies_witness :
  let p := set_result (set_status running)
             {| subtask := Scenarios.subtask_S true; _actual_chunk_count := 1;
                _op_progress := {[ "op-B" := Q2Qc (QArith_base.Qmake 1 2) ]};
                result := {| status := pending; progress := 0%Qc; error := None;
                             result_traceback := None; data_size := None |};
                pcalls := []; input_keys := None; unpinned := false |} in
  let out := report_progress_turn Scenarios.proc_happy
               (Q2Qc (QArith_base.Qmake 1 1000)) 0%Qc p in
  (progress (Processor.result p) <= 1)%Qc /\
  status (Processor.result out.2) = running /\
  (progress (Processor.result out.2) <= 1)%Qc.
Proof.
  intros p out.
  assert (Hle : (progress (Processor.result p) <= 1)%Qc) by (by vm_compute).
  split; [exact Hle |].
  destruct (report_progress_turn_notifies Scenarios.proc_happy
              (Q2Qc (QArith_base.Qmake 1 1000)) 0%Qc p Hle) as (Hs & Hp & _).
  split; [exact Hs | exact Hp].
Defined.

End ProcessorRunFacts.

(** ** More on the memory estimator *)

Module EstimatorLoopFacts.
Import Estimator EstimatorFacts.

(** More turns than the loop takes change nothing. *)
Lemma while_key_stack_fuel (fuel fuel' : nat) subtask g (s : vars) r :
  while_key_stack fuel subtask g s = Some r ->
  (fuel <= fuel')%nat ->
  while_key_stack fuel' subtask g s = Some r.
Proof.
  revert fuel' s. induction fuel as [| fuel IH]; intros fuel' s.
  - simpl. destruct (key_stack s) eqn:Hs; [| done].
    intros H _. destruct fuel'; simpl; by rewrite Hs.
  - intros H Hle. destruct fuel' as [| fuel']; [lia |]. simpl in *.
    destruct (key_stack s) as [| key stack]; [done |].
    destruct (loop_body subtask g key stack s) as [s' | e]; [| done].
    apply IH; [done | lia].
Qed.

(** X26. The loop [while key_stack] of [_estimate_sizes] ends for every
    chunk graph, whatever its edges and whatever the estimators of its
    operands do: by an empty stack or by an exception, after at most as many
    turns as there are keys on the stack and predecessors still counted at
    its start.  [_estimate_sizes] returns what the loop leaves: the sum of
    the store sizes left in the size context, and the peak. *)
Theorem estimate_sizes_loop_ends subtask (input_sizes : size_ctx) (fuel : nat) :
  let s0 := initial_vars subtask input_sizes in
  (turns_left s0 <= fuel)%nat ->
  exists r,
    while_key_stack fuel subtask (op_key_graph subtask) s0 = Some r /\
    _estimate_sizes subtask input_sizes
    = Some match r with
           | Ok s => Ok (sum_values fst (size_context s), max_memory_cost s)
           | Raise e => Raise e
           end.
Proof.
  intros s0 Hfuel.
  destruct (while_key_stack_returns (turns_left s0) subtask (op_key_graph subtask) s0)
    as [r Hr]; [done |].
  exists r. split; [by eapply while_key_stack_fuel |].
  unfold _estimate_sizes. fold s0. rewrite Hr. by destruct r.
Qed.

(** Scenario 1: two turns, for A and for B. *)
Lemma estimate_sizes_loop_ends_witness :
  let s0 := initial_vars (Scenarios.subtask_S true) Scenarios.sizes_A in
  (turns_left s0 <= 2)%nat /\
  exists s, while_key_stack 2 (Scenarios.subtask_S true)
              (op_key_graph (Scenarios.subtask_S true)) s0 = Some (Ok s) /\
            max_memory_cost s = 300.
Proof.
  intros s0.
  assert (Hfuel : (turns_left s0 <= 2)%nat) by (vm_compute; lia).
  split; [exact Hfuel |].
  destruct (estimate_sizes_loop_ends (Scenarios.subtask_S true) Scenarios.sizes_A 2
              Hfuel) as (r & Hloop & Hest).
  assert (Hval : _estimate_sizes (Scenarios.subtask_S true) Scenarios.sizes_A
                 = Some (Ok (100, 300))) by (by vm_compute).
  rewrite Hval in Hest. destruct r as [s | ex]; [| discriminate Hest].
  exists s. split; [exact Hloop |]. injection Hest as _ Hmax. by symmetry.
Defined.

(** *** A subtask with nothing to walk *)

Lemma op_key_graph_empty subtask :
  Forall (fun i => forall n, chunks (chunk_graph subtask) !! i = Some n ->
                             key n ∈ pure_depend_keys subtask)
         (topo (chunk_graph subtask)) ->
  op_key_graph subtask = dag_empty.
Proof.
  unfold op_key_graph. generalize (topo (chunk_graph subtask)).
  intros l Hall. induction Hall as [| i l Hi _ IH]; [done |].
  simpl. unfold condense_step at 2.
  destruct (chunks (chunk_graph subtask) !! i) as [n |]; [| done].
  by rewrite bool_decide_eq_true_2 by by apply Hi.
Qed.

(** X27. For a subtask whose chunks are all among its [pure_depend_keys],
    or whose graph has no chunk, [_estimate_sizes] walks nothing and asks no
    operand for its sizes: it returns the sum of the store sizes and, as the
    peak, the sum of the memory costs of [input_sizes]. *)
Theorem estimate_sizes_nothing_to_walk subtask (input_sizes : size_ctx) :
  Forall (fun i => forall n, chunks (chunk_graph subtask) !! i = Some n ->
                             key n ∈ pure_depend_keys subtask)
         (topo (chunk_graph subtask)) ->
  _estimate_sizes subtask input_sizes
  = Some (Ok (sum_values fst input_sizes, sum_values snd input_sizes)).
Proof.
  intros Hall. unfold _estimate_sizes, initial_vars.
  rewrite (op_key_graph_empty subtask Hall). cbv zeta.
  change (rev (iter_indep dag_empty)) with (@nil string).
  by destruct (turns_left _).
Qed.

(** The subtask S with both of its chunks as pure dependencies. *)
Lemma estimate_sizes_nothing_to_walk_witness :
  let subtask :=
    {| subtask_id := "S"; session_id := "sess";
       chunk_graph := Scenarios.graph_A_B true;
       pure_depend_keys := ["A"; "B"]; update_meta_chunks := None;
       retryable := true |} in
  _estimate_sizes subtask Scenarios.sizes_A
  = Some (Ok (sum_values fst Scenarios.sizes_A, sum_values snd Scenarios.sizes_A)).
Proof.
  intros subtask. apply estimate_sizes_nothing_to_walk.
  simpl. apply Forall_cons_2; [| apply Forall_cons_2; [| apply Forall_nil_2]];
    intros n Hn; simpl in Hn; injection Hn as <-; simpl; set_solver.
Defined.

End EstimatorLoopFacts.

(** ** The tiling of a sort that keeps the first rows *)

Module SortFacts.
Import Sort.

Lemma sum_rows_app (l1 l2 : list chunk) :
  sum_rows (l1 ++ l2) = sum_rows l1 + sum_rows l2.
Proof.
  unfold sum_rows. rewrite List.map_app.
  induction (List.map rows l1) as [| x xs IH]; simpl; lia.
Qed.

Lemma sum_rows_nonneg (l : list chunk) :
  Forall (fun c => 0 <= rows c) l -> 0 <= sum_rows l.
Proof.
  unfold sum_rows. induction 1 as [| c l Hc _ IH]; simpl; lia.
Qed.

(** The rows of the first [j] chunks. *)
Definition prefix_rows (l : list chunk) (j : Z) : Z :=
  sum_rows (take (Z.to_nat j) l).

Lemma prefix_rows_all (l : list chunk) (j : Z) :
  Z.of_nat (length l) <= j -> prefix_rows l j = sum_rows l.
Proof. intros Hj. unfold prefix_rows. rewrite take_ge; [done | lia]. Qed.

Lemma prefix_rows_min (l : list chunk) (j : Z) :
  prefix_rows l (Z.min j (Z.of_nat (length l))) = prefix_rows l j.
Proof.
  destruct (Z.le_gt_cases j (Z.of_nat (length l))) as [H | H].
  - by rewrite Z.min_l.
  - rewrite Z.min_r by lia. rewrite !prefix_rows_all; [done | lia | lia].
Qed.

(** A slice with bounds that are not negative, and its rows. *)
Lemma slice_length {A} (l : list A) (a b : Z) :
  0 <= a -> a <= b ->
  Z.of_nat (length (slice l a b))
  = Z.min b (Z.of_nat (length l)) - Z.min a (Z.of_nat (length l)).
Proof.
  intros Ha Hab. unfold slice, slice_bound.
  destruct (Z.ltb_spec a 0); [lia |]. destruct (Z.ltb_spec b 0); [lia |].
  rewrite length_take, length_drop. lia.
Qed.

Lemma slice_rows (l : list chunk) (a b : Z) :
  0 <= a -> a <= b ->
  sum_rows (slice l a b) = prefix_rows l b - prefix_rows l a.
Proof.
  intros Ha Hab. rewrite <- (prefix_rows_min l b), <- (prefix_rows_min l a).
  unfold slice, slice_bound, prefix_rows.
  destruct (Z.ltb_spec a 0); [lia |]. destruct (Z.ltb_spec b 0); [lia |].
  set (len := Z.of_nat (length l)).
  replace (Z.to_nat (Z.min b len))
    with (Z.to_nat (Z.min a len) + Z.to_nat (Z.min b len - Z.min a len))%nat by lia.
  rewrite <- take_take_drop, sum_rows_app. lia.
Qed.

Lemma slice_Forall {A} (P : A -> Prop) (l : list A) (a b : Z) :
  Forall P l -> Forall P (slice l a b).
Proof. intros H. unfold slice. by apply Forall_take, Forall_drop. Qed.

Lemma range_S (m : nat) : range (Z.of_nat (S m)) = range (Z.of_nat m) ++ [Z.of_nat m].
Proof.
  unfold range. rewrite !Nat2Z.id, seq_S, List.map_app. reflexivity.
Qed.

Lemma range_elem (k i : Z) : i ∈ range k -> 0 <= i < k.
Proof.
  unfold range. intros Hin. apply list_elem_of_In, in_map_iff in Hin as (j & <- & Hj).
  apply in_seq in Hj. lia.
Qed.

Section TileHead.
Variable ceildiv : Z -> Z -> Z.
Variable combine_size : Z.
Variable nrows : Z.
Hypothesis ceildiv_spec :
  forall x y, 0 <= x -> 0 < y -> ceildiv x y = (x + y - 1) / y.
Hypothesis Hsize : 1 <= combine_size.

Abbreviation combine_chunk := (Sort.combine_chunk combine_size nrows).
Abbreviation for_range := (Sort.for_range combine_size nrows).
Abbreviation combine_loop := (Sort.combine_loop ceildiv combine_size nrows).

(** The number of chunks of the next round. *)
Definition chunk_size (l : list chunk) : Z :=
  ceildiv (Z.of_nat (length l)) combine_size.

Lemma chunk_size_bounds (l : list chunk) :
  let k := chunk_size l in
  0 <= k /\ Z.of_nat (length l) <= k * combine_size /\
  (k - 1) * combine_size < Z.of_nat (length l) \/ (k = 0 /\ l = []).
Proof.
  cbv zeta. unfold chunk_size. rewrite ceildiv_spec by lia.
  set (len := Z.of_nat (length l)).
  pose proof (Z.div_mod (len + combine_size - 1) combine_size ltac:(lia)) as Hdm.
  pose proof (Z.mod_pos_bound (len + combine_size - 1) combine_size ltac:(lia)) as Hm.
  set (k := (len + combine_size - 1) / combine_size) in *.
  destruct (decide (len = 0)) as [H0 | H0].
  - right. split; [| destruct l; [done | simpl in *; lia]].
    subst k. rewrite H0. apply Z.div_small. lia.
  - left. assert (0 <= k) by (apply Z.div_pos; lia). nia.
Qed.

(** The chunk that the loop makes at the index [i]. *)
Definition made (l : list chunk) (i : Z) : chunk :=
  {| stage := if 1 <? chunk_size l then OperandStage.combine else OperandStage.agg;
     index := i;
     rows := Z.min (sum_rows (slice l (i * combine_size) ((i + 1) * combine_size)))
                   nrows |}.

Lemma combine_chunk_made (l : list chunk) (i : Z) :
  0 <= i < chunk_size l ->
  combine_chunk l (chunk_size l) i = Returns (made l i).
Proof.
  intros Hi. unfold Sort.combine_chunk, made.
  destruct (chunk_size_bounds l) as [(Hk & Hup & Hlow) | [H0 _]]; [| lia].
  cbv zeta in *.
  pose proof (slice_length l (i * combine_size) ((i + 1) * combine_size)
                ltac:(nia) ltac:(nia)) as Hlen.
  destruct (slice l (i * combine_size) ((i + 1) * combine_size)) eqn:Hs; [| done].
  simpl in Hlen. nia.
Qed.

Lemma for_range_made (l : list chunk) (indices : list Z) (acc : list chunk) :
  Forall (fun i => 0 <= i < chunk_size l) indices ->
  for_range l (chunk_size l) indices acc = Returns (acc ++ List.map (made l) indices).
Proof.
  intros Hall. revert acc. induction Hall as [| i indices Hi _ IH]; intros acc; simpl.
  - by rewrite app_nil_r.
  - rewrite combine_chunk_made by done. rewrite IH, <- app_assoc. done.
Qed.

(** The chunks of the next round. *)
Definition next_round (l : list chunk) : list chunk :=
  List.map (made l) (range (chunk_size l)).

Lemma combine_loop_unfold (fuel : nat) (l : list chunk) :
  combine_loop (S fuel) l =
  if chunk_size l =? 1 then Some (Returns (next_round l))
  else combine_loop fuel (next_round l).
Proof.
  simpl. fold (chunk_size l).
  rewrite for_range_made; [done |].
  apply Forall_forall. intros i Hi. by apply range_elem.
Qed.

Lemma next_round_length (l : list chunk) :
  Z.of_nat (length (next_round l)) = chunk_size l.
Proof.
  unfold next_round, range. rewrite !length_map, length_seq.
  destruct (chunk_size_bounds l) as [(Hk & _) | [H0 _]]; cbv zeta in *; lia.
Qed.

Section Rows.
Hypothesis Hnrows : 0 <= nrows.
Variable l : list chunk.
Hypothesis Hrows : Forall (fun c => 0 <= rows c) l.

Lemma prefix_rows_mono (a b : Z) :
  0 <= a -> a <= b -> prefix_rows l a <= prefix_rows l b.
Proof.
  intros Ha Hab. pose proof (slice_rows l a b Ha Hab) as Hs.
  pose proof (sum_rows_nonneg (slice l a b) (slice_Forall _ l a b Hrows)). lia.
Qed.

Lemma made_rows (m : nat) :
  let made_rows := sum_rows (List.map (made l) (range (Z.of_nat m))) in
  0 <= made_rows /\
  Z.min made_rows nrows
  = Z.min (prefix_rows l (Z.of_nat m * combine_size)) nrows.
Proof.
  cbv zeta. induction m as [| m [IH0 IH]].
  { change (Z.of_nat 0) with 0. rewrite Z.mul_0_l.
    unfold range, prefix_rows, sum_rows. simpl. lia. }
  rewrite range_S, List.map_app, sum_rows_app.
  change (sum_rows (List.map (made l) [Z.of_nat m]))
    with (Z.min (sum_rows (slice l (Z.of_nat m * combine_size)
                             ((Z.of_nat m + 1) * combine_size))) nrows + 0).
  rewrite slice_rows by nia.
  pose proof (prefix_rows_mono (Z.of_nat m * combine_size)
                ((Z.of_nat m + 1) * combine_size) ltac:(nia) ltac:(nia)) as Hmono.
  pose proof (prefix_rows_mono 0 (Z.of_nat m * combine_size) ltac:(lia) ltac:(nia))
    as Hpos.
  change (prefix_rows l 0) with 0 in Hpos.
  replace (Z.of_nat (S m) * combine_size) with ((Z.of_nat m + 1) * combine_size) by lia.
  lia.
Qed.

Lemma next_round_rows :
  Forall (fun c => 0 <= rows c) (next_round l) /\
  Z.min (sum_rows (next_round l)) nrows = Z.min (sum_rows l) nrows.
Proof.
  split.
  - unfold next_round. apply Forall_forall. intros c Hc.
    apply list_elem_of_In, in_map_iff in Hc as (i & <- & _). simpl.
    pose proof (sum_rows_nonneg _ (slice_Forall _ l (i * combine_size)
                                    ((i + 1) * combine_size) Hrows)). lia.
  - unfold next_round.
    destruct (chunk_size_bounds l) as [(Hk & Hup & _) | [H0 ->]]; cbv zeta in *.
    + destruct (made_rows (Z.to_nat (chunk_size l))) as [_ H].
      rewrite Z2Nat.id in H by done. rewrite H.
      by rewrite prefix_rows_all.
    + by rewrite H0.
Qed.
End Rows.
End TileHead.

(** X28. With a [combine_size] of at least 2, for an input with at least
    one chunk, no chunk with a negative number of rows, and [nrows] not
    negative: the loop of [_tile_head] ends, after at most as many rounds as
    there are chunks, with exactly one chunk; it is a chunk of the stage
    [agg] at the index 0, and its number of rows is the lesser of the sum of
    the rows of the chunks of the input and [nrows].  [ceildiv] is taken to
    round the quotient up. *)
Theorem tile_head_one_agg_chunk (ceildiv : Z -> Z -> Z) (combine_size nrows : Z)
    (inp_chunks : list chunk) (fuel : nat) :
  (forall x y, 0 <= x -> 0 < y -> ceildiv x y = (x + y - 1) / y) ->
  2 <= combine_size ->
  0 <= nrows ->
  inp_chunks <> [] ->
  Forall (fun c => 0 <= rows c) inp_chunks ->
  (length inp_chunks <= fuel)%nat ->
  exists c,
    _tile_head ceildiv combine_size nrows fuel inp_chunks = Some (Returns [c]) /\
    stage c = OperandStage.agg /\ index c = 0 /\
    rows c = Z.min (sum_rows inp_chunks) nrows.
Proof.
  intros Hceil Hsize Hnrows Hne Hrows Hfuel. unfold _tile_head.
  assert (Hmap : map_chunks inp_chunks <> [] /\
                 Forall (fun c => 0 <= rows c) (map_chunks inp_chunks) /\
                 (length (map_chunks inp_chunks) <= fuel)%nat /\
                 sum_rows (map_chunks inp_chunks) = sum_rows inp_chunks).
  { unfold map_chunks. repeat split.
    - by destruct inp_chunks.
    - apply Forall_forall. intros c Hc.
      apply list_elem_of_In, in_map_iff in Hc as (c0 & <- & Hc0). simpl.
      rewrite Forall_forall in Hrows. by apply Hrows, list_elem_of_In.
    - by rewrite length_map.
    - unfold sum_rows. by rewrite List.map_map. }
  destruct Hmap as (Hne' & Hrows' & Hfuel' & <-).
  generalize dependent (map_chunks inp_chunks). clear inp_chunks Hne Hrows Hfuel.
  induction fuel as [| fuel IH]; intros l Hne Hrows Hfuel.
  { destruct l; [done | simpl in Hfuel; lia]. }
  rewrite (combine_loop_unfold ceildiv combine_size nrows Hceil ltac:(lia)).
  destruct (chunk_size_bounds ceildiv combine_size Hceil ltac:(lia) l)
    as [(Hk & Hup & Hlow) | [_ ->]]; [| done].
  cbv zeta in *.
  assert (Hlen : 1 <= Z.of_nat (length l)) by (destruct l; [done | simpl; lia]).
  destruct (next_round_rows ceildiv combine_size nrows Hceil ltac:(lia) Hnrows l Hrows)
    as [Hrows1 Hsum1].
  pose proof (next_round_length ceildiv combine_size nrows Hceil ltac:(lia) l) as Hlen1.
  destruct (Z.eqb_spec (chunk_size ceildiv combine_size l) 1) as [H1 | H1].
  - exists (made ceildiv combine_size nrows l 0).
    unfold next_round. rewrite H1. split; [done |].
    rewrite H1 in Hup.
    unfold made. cbn [stage index rows]. rewrite H1. repeat split.
    rewrite slice_rows by lia. rewrite Z.mul_0_l.
    change (prefix_rows l 0) with 0.
    rewrite prefix_rows_all by lia. f_equal. lia.
  - rewrite <- Hsum1. apply IH; [| done |].
    + intros Hnil. rewrite Hnil in Hlen1. simpl in Hlen1. nia.
    + nia.
Qed.

(** Six chunks of three rows each, combined by four, for the first five
    rows: two rounds, and one chunk of five rows. *)
Lemma tile_head_one_agg_chunk_witness :
  let ceildiv := fun x y => (x + y - 1) / y in
  let inp := List.map (fun i => {| stage := OperandStage.map; index := i; rows := 3 |})
                      (range 6) in
  (inp <> [] /\ Forall (fun c => 0 <= rows c) inp) /\
  _tile_head ceildiv 4 5 6 inp
  = Some (Returns [{| stage := OperandStage.agg; index := 0; rows := 5 |}]).
Proof.
  intros ceildiv inp.
  assert (Hne : inp <> []) by done.
  assert (Hrows : Forall (fun c => 0 <= rows c) inp).
  { repeat constructor; simpl; lia. }
  split; [by split |].
  destruct (tile_head_one_agg_chunk ceildiv 4 5 inp 6)
    as (c & Hrun & Hstage & Hindex & Hr);
    [done | lia | lia | exact Hne | exact Hrows | simpl; lia |].
  rewrite Hrun. destruct c as [s i r]. simpl in *. subst.
  do 3 f_equal.
Defined.

(** X29. The loop of [_tile_head] never reaches its [break] for an input
    without chunks, and never for an input with two chunks or more when
    [combine_size] is 1: each round leaves as many chunks as it found. *)
Theorem tile_head_never_ends (ceildiv : Z -> Z -> Z) (combine_size nrows : Z)
    (inp_chunks : list chunk) (fuel : nat) :
  (forall x y, 0 <= x -> 0 < y -> ceildiv x y = (x + y - 1) / y) ->
  (inp_chunks = [] /\ 1 <= combine_size) \/
  (combine_size = 1 /\ (2 <= length inp_chunks)%nat) ->
  _tile_head ceildiv combine_size nrows fuel inp_chunks = None.
Proof.
  intros Hceil Hcase. unfold _tile_head.
  assert (Hsize : 1 <= combine_size) by (destruct Hcase as [[_ ?] | [-> _]]; lia).
  assert (Hlen : Z.of_nat (length (map_chunks inp_chunks))
                 = Z.of_nat (length inp_chunks)).
  { unfold map_chunks. by rewrite length_map. }
  assert (Hstuck : chunk_size ceildiv combine_size (map_chunks inp_chunks)
                   = Z.of_nat (length (map_chunks inp_chunks))
                   /\ Z.of_nat (length (map_chunks inp_chunks)) <> 1).
  { unfold chunk_size. rewrite Hceil by lia. rewrite Hlen.
    destruct Hcase as [[-> _] | [-> Hl]]; simpl.
    - split; [| done]. apply Z.div_small. lia.
    - split; [| lia]. rewrite Z.div_1_r. lia. }
  clear Hlen Hcase. generalize dependent (map_chunks inp_chunks). clear inp_chunks.
  induction fuel as [| fuel IH]; intros l [Hk Hne]; [done |].
  rewrite (combine_loop_unfold ceildiv combine_size nrows Hceil Hsize).
  rewrite Hk. destruct (Z.eqb_spec (Z.of_nat (length l)) 1) as [? | _]; [done |].
  pose proof (next_round_length ceildiv combine_size nrows Hceil Hsize l) as Hlen1.
  apply IH. rewrite Hlen1, Hk. split; [| done].
  unfold chunk_size. rewrite next_round_length by done. rewrite Hk. exact Hk.
Qed.

(** An input without chunks, with the [combine_size] 4. *)
Lemma tile_head_never_ends_witness :
  _tile_head (fun x y => (x + y - 1) / y) 4 5 100 [] = None.
Proof.
  apply tile_head_never_ends; [done |]. left. split; [done | lia].
Defined.

End SortFacts.

(** ** The two counters during a run of [run_subtask] *)

Module CounterFacts.
Import Execution Estimator Coordinator PyFacts MonadFacts ExecutionFacts InternalFacts.

Section Advances.
Variable k : Z.
Hypothesis Hk : 0 <= k.

(** Steps that take a state of the execution of a subtask whose info was
    made with [max_retries = k] to another one. *)
Definition advances : relation world :=
  fun w w' => execution_state k w -> execution_state k w'.

Global Instance advances_preorder : PreOrder advances.
Proof.
  split; [intros w H; exact H |].
  intros w1 w2 w3 H1 H2 H. by apply H2, H1.
Qed.

Lemma advances_kept (w w' : world) : counters w' = counters w -> advances w w'.
Proof. intros Hc H. by eapply state_kept. Qed.

Lemma advances_steps {A} (m : M world A) :
  steps (keeps counters) m -> steps advances m.
Proof. intros Hm w. apply advances_kept. apply Hm. Qed.

Lemma advances_retry_run {A} (subtask : Subtask) (target_repr : string)
    (target : M world A) :
  keeps_counters target -> osteps advances (_retry_run subtask target_repr target).
Proof.
  intros Hkeeps w r w' Hrun Hstate. by eapply execution_state_retry_run.
Qed.

Lemma advances_wait_for {A} (timed_out : bool) (task : MO world A) :
  osteps advances task -> osteps advances (wait_for timed_out task).
Proof.
  intros Ht w r w'. unfold wait_for.
  destruct (task w) as [[[v | ex] w1] |] eqn:Htask; [| | done].
  - intros H. inversion H; subst. by eapply Ht.
  - destruct (_ && _); intros H; inversion H; subst; by eapply Ht.
Qed.

Lemma advances_retry_run_subtask subtask band address req env refs :
  osteps advances (_retry_run_subtask subtask band address req env refs).
Proof.
  intros w r w'. unfold _retry_run_subtask.
  pose proof (advances_steps _ (get_refs_and_info_keeps_counters subtask band refs) w)
    as Hw0.
  destruct (get_refs_and_info subtask band refs w) as [[[] | e] w0]; simpl in Hw0;
    [| intros H; by inversion H; subst].
  intros H. etransitivity; [exact Hw0 |]. revert H. unfold retry_or_run_once.
  pose proof (run_subtask_once_keeps_counters subtask band address req env) as Hkeeps.
  destruct (retryable subtask); [by apply advances_retry_run |].
  assert (Hw1 : advances w0 (_run_subtask_once subtask band address req env w0).2).
  { apply advances_kept. unfold counters. by destruct (Hkeeps w0) as [-> ->]. }
  destruct (_run_subtask_once _ _ _ _ _ w0) as [[v | ex] w1]; simpl in Hw1.
  - intros H. by inversion H; subst.
  - destruct (isinstance ex Exception); intros H; by inversion H; subst.
Qed.

(** The same for the actor. *)
Definition progresses : relation actor :=
  fun a a' => advances (current a) (current a').

Global Instance progresses_preorder : PreOrder progresses.
Proof.
  split; [intros a; unfold progresses; reflexivity |].
  intros a1 a2 a3 H1 H2. unfold progresses in *. by etransitivity.
Qed.

Lemma progresses_aawait {A} (c : acall) (r : reply A) : steps progresses (aawait c r).
Proof. intros a. by apply advances_kept. Qed.

Lemma progresses_zoom {A} (m : MO world A) :
  osteps advances m -> osteps progresses (zoom m).
Proof.
  intros Hm a r a'. unfold zoom.
  destruct (m (current a)) as [[r1 w1] |] eqn:Hrun; [| done].
  intros H. inversion H; subst. unfold progresses. simpl. by eapply Hm.
Qed.

Lemma progresses_fill (ex : exn) : steps progresses (fill ex).
Proof.
  intros a. apply advances_kept. unfold counters. simpl.
  by rewrite fill_num_retries, fill_max_retries.
Qed.

Section Run.
Variable address : string.
Variable MEMORY : Z.
Variable subtask : Subtask.
Variable band_name : string.
Variable e : actor_env.

Lemma run_stages_progresses :
  osteps progresses (run_stages address MEMORY subtask band_name e).
Proof.
  unfold run_stages.
  apply (osteps_bind progresses).
  { apply progresses_zoom, advances_wait_for, advances_retry_run,
      prepare_keeps_counters. }
  intros keys. apply (osteps_bind progresses).
  { apply (osteps_total progresses). by intros a. }
  intros supervisor. apply (osteps_bind progresses).
  { apply (osteps_total progresses). unfold _collect_input_sizes.
    destruct (fetch_keys subtask); [apply (steps_ret progresses) |].
    repeat (apply (steps_bind progresses); [apply progresses_aawait | intros ?]).
    apply (steps_ret progresses). }
  intros sizes. apply (osteps_bind progresses).
  { intros a out a'. unfold to_thread.
    pose proof (progresses_aawait to_thread_estimate_sizes (on_to_thread e) a) as Ha.
    destruct (answer (on_to_thread e));
      [destruct (_estimate_sizes subtask sizes); [| done] |];
      intros H; by inversion H; subst. }
  intros [store calc]. apply (osteps_bind progresses).
  { apply progresses_zoom, (osteps_total advances), advances_steps.
    apply (steps_check_cancelling (keeps counters)). }
  intros _. apply (osteps_bind progresses).
  { intros a. apply (progresses_zoom _ (advances_retry_run_subtask _ _ _ _ _ _)). }
  intros r. apply (osteps_bind progresses).
  { apply progresses_zoom, (osteps_total advances), advances_steps.
    by intros w. }
  intros _. destruct keys as [[| key keys] |];
    apply (osteps_total progresses);
    first [apply (steps_ret progresses) | apply progresses_aawait].
Qed.

(** [internal_run_subtask] on a fresh info ends in a state of the
    execution of the subtask. *)
Lemma internal_run_subtask_execution_state (a a' : actor) (band supervisor : string)
    (r : SubtaskResult) :
  _subtask_info a !! subtask_id subtask
  = Some (new_SubtaskExecutionInfo band supervisor k) ->
  internal_run_subtask address MEMORY subtask band_name e a = Some (Ok r, a') ->
  execution_state k (current a').
Proof.
  intros Hinfo Hres.
  destruct (internal_run_subtask_unfold address MEMORY subtask band_name e a _ Hinfo)
    as (r1 & a1 & Hrun & Hres').
  cbv zeta in Hres'. rewrite Hres' in Hres. injection Hres as _ <-. clear Hres'.
  apply run_stages_progresses in Hrun. unfold progresses in Hrun. simpl in Hrun.
  assert (H1 : execution_state k (current a1)).
  { apply Hrun. eapply state_kept; [apply (state_fresh k band supervisor) | done]. }
  destruct (handled_grows r1 a1) as (_ & _ & _ & _ & Hn2 & Hm2).
  destruct (upload_block_spec subtask band_name e (handled r1 a1))
    as (_ & _ & _ & _ & _ & Hn3 & Hm3 & _).
  cbv zeta in Hn3, Hm3.
  eapply state_kept; [exact H1 |]. unfold counters. congruence.
Qed.
End Run.
End Advances.

(** [run_subtask] with a number of retries that is not negative ends in a
    state of the execution of the subtask: on its info
    [num_retries <= max_retries] holds. *)
Lemma run_subtask_execution_state address MEMORY subtask band_name
    _subtask_max_retries extra_config e supervisor (a a' : actor)
    (r : SubtaskResult) :
  let k := subtask_max_retries _subtask_max_retries extra_config in
  0 <= k ->
  run_subtask address MEMORY subtask band_name _subtask_max_retries extra_config
    e supervisor a
  = inr (Some (Ok r, a')) ->
  execution_state k (current a') /\
  num_retries (subtask_info (current a')) <= max_retries (subtask_info (current a')).
Proof.
  intros k Hk. unfold run_subtask.
  destruct (bool_decide _); [done |].
  unfold obind at 1. unfold total at 1, modify at 1.
  set (info := new_SubtaskExecutionInfo band_name supervisor k).
  set (a0 := set_table _ a).
  destruct (internal_run_subtask address MEMORY subtask band_name e a0)
    as [[[r0 | ex] a1] |] eqn:Hrun; unfold obind at 1; rewrite Hrun;
    [| done | done].
  unfold obind, total, modify, ret. intros H. injection H as <- <-.
  cbn [current set_table].
  assert (Hstate : execution_state k (current a1)).
  { eapply (internal_run_subtask_execution_state k Hk); [| exact Hrun].
    apply lookup_insert_eq. }
  split; [exact Hstate |].
  by destruct (execution_state_counters k _ Hk Hstate).
Qed.

End CounterFacts.
